(** * dhcpcd ARP handler (src/arp.c): a shallow embedding and its properties

    The embedding follows arp.c built with ARP defined and KERNEL_RFC5227
    undefined, the configuration in which dhcpcd itself probes and
    announces.  Pointers to [struct arp_state] are names in a heap of live
    sessions, so that a session that was handed to free() can be told from a
    live one; a [struct interface] pointer is a position in ctx->ifaces.  The raw
    transport (the bpf functions), the event loop and the allocator are outside
    arp.c: every call into them is recorded in a time-stamped trace, and what
    they return comes from an oracle carried by the world.  A TAILQ is the
    list of its elements in queue order, TAILQ_NEXT the successor in that
    list.  Code that C leaves undefined (a read outside a buffer, a use
    after free, a call through NULL) ends the run with a fault. *)

From Stdlib Require Import ZArith List Lia.
From Stdlib.Strings Require Import Byte.
From stdpp Require Import base option list gmap.

Local Open Scope Z_scope.

(** ** Results of C code that may step outside defined behaviour *)

Inductive fault :=
  | OutOfBounds      (* a read outside the buffer handed to arp_packet *)
  | FieldOverflow    (* a memcpy longer than the struct member it fills *)
  | NullDeref        (* a NULL pointer is dereferenced or called *)
  | UseAfterFree     (* a struct arp_state is used after free() *)
  | BadInterface     (* an interface that is not in ctx->ifaces *)
  | NotLinked        (* TAILQ_REMOVE of an element that is not in the queue *)
  | OutOfFuel.       (* the bound given to a loop of the model was too small *)

Inductive res (A : Type) :=
  | Ok (a : A)
  | Err (f : fault).
Arguments Ok {A} a.
Arguments Err {A} f.

#[global] Instance res_ret : MRet res := fun _ a => Ok a.
#[global] Instance res_bind : MBind res := fun _ _ f m =>
  match m with
  | Ok a => f a
  | Err e => Err e
  end.

(** ** Bytes on the wire *)

#[global] Instance byte_eq_dec : EqDecision byte := Byte.byte_eq_dec.

Definition byte_val (b : byte) : nat := N.to_nat (Byte.to_N b).

Definition byte_of_Z (z : Z) : byte :=
  match Byte.of_N (Z.to_N (z mod 256)) with
  | Some b => b
  | None => x00
  end.

(* htons(v) stored to memory: most significant byte first. *)
Definition be16 (v : Z) : list byte :=
  [byte_of_Z (v / 256); byte_of_Z v].

(* An in_addr_t keeps the address in network byte order; it is modelled by
   the number its four bytes in memory spell, most significant first. *)
Definition in_addr_bytes (a : Z) : list byte :=
  [byte_of_Z (a / 16777216); byte_of_Z (a / 65536); byte_of_Z (a / 256);
   byte_of_Z a].

(* The number a run of bytes spells, most significant first. *)
Definition be_val (bs : list byte) : Z :=
  fold_left (fun acc b => acc * 256 + Z.of_nat (byte_val b)) bs 0.

Definition in_addr_of_bytes (bs : list byte) : Z := be_val bs.

Definition INADDR_ANY : Z := 0.
Definition ETHERTYPE_IP : Z := 2048.    (* 0x0800 *)
Definition ETHERTYPE_ARP : Z := 2054.   (* 0x0806 *)
Definition ARPOP_REQUEST : Z := 1.

(* __CTASSERT(sizeof(struct arphdr) == 8) *)
Definition sizeof_arphdr : nat := 8.
Definition sizeof_in_addr : nat := 4.

Record arphdr := {
  ar_hrd : Z;
  ar_pro : Z;
  ar_hln : nat;
  ar_pln : nat;
  ar_op : Z
}.

Definition arphdr_bytes (ar : arphdr) : list byte :=
  be16 (ar_hrd ar) ++ be16 (ar_pro ar)
    ++ [byte_of_Z (Z.of_nat (ar_hln ar)); byte_of_Z (Z.of_nat (ar_pln ar))]
    ++ be16 (ar_op ar).

(* A read of [n] bytes at offset [off] of the buffer [data, data + len). *)
Definition peek (data : list byte) (off n : nat) : res (list byte) :=
  if decide (off + n ≤ length data)%nat
  then Ok (take n (drop off data))
  else Err OutOfBounds.

(* memcpy(&ar, data, sizeof(ar)) *)
Definition read_arphdr (data : list byte) : res arphdr :=
  b ← peek data 0 sizeof_arphdr;
  match b with
  | [h0; h1; p0; p1; hl; pl; o0; o1] =>
      Ok {| ar_hrd := be_val [h0; h1];
            ar_pro := be_val [p0; p1];
            ar_hln := byte_val hl;
            ar_pln := byte_val pl;
            ar_op := be_val [o0; o1] |}
  | _ => Err OutOfBounds
  end.

(* memcpy(dst, src, n) into a struct member of sizeof [length dst] bytes:
   the first n bytes are replaced, the others keep what they held. *)
Definition memcpy_field (dst src : list byte) : res (list byte) :=
  if decide (length src ≤ length dst)%nat
  then Ok (src ++ drop (length src) dst)
  else Err FieldOverflow.

(** ** Data of the program *)

Abbreviation ptr := nat (only parsing).      (* pointer to struct arp_state *)
(* pointer to struct interface: its position in ctx->ifaces *)
Abbreviation ifindex := nat (only parsing).

(* sha and tha are arrays of HWADDR_LEN bytes; the length of the list is
   the size of the member. *)
Record arp_msg := {
  op : Z;
  sha : list byte;
  sip : Z;
  tha : list byte;
  tip : Z
}.

(* The owner's callbacks are code outside arp.c.  The model records each
   call in the trace.  For conflicted_cb it also carries what the dispatch
   loop of arp_packet has to survive: the sessions the callback hands to
   arp_free before it returns, in order. *)
Record arp_state := {
  iface : ifindex;
  addr : Z;
  probes : Z;
  claims : Z;
  probed_cb : bool;
  announced_cb : bool;
  conflicted_cb : option (arp_msg → list ptr);
  free_cb : bool
}.

Record iarp_state := {
  fd : Z;
  arp_states : list ptr
}.

(* struct interface as arp.c uses it; hwaddr holds the hwlen bytes in use. *)
Record interface := {
  family : Z;
  hwaddr : list byte;
  if_data_arp : option iarp_state
}.

Definition hwlen (ifn : interface) : nat := length (hwaddr ifn).

Inductive handler :=
  | H_arp_probe1
  | H_arp_probed
  | H_arp_announce1
  | H_arp_announced.

Record timeout := {
  t_when : Z;
  t_handler : handler;
  t_arg : ptr
}.

Inductive event :=
  | EvBpfOpen (ifp : ifindex) (r : Z)
  | EvBpfClose (d : Z)
  | EvBpfFilter (ifp : ifindex) (d : Z)
  | EvBpfSend (ifp : ifindex) (d : Z) (ethertype : Z) (frame : list byte)
  | EvEventAdd (d : Z)
  | EvEventDelete (d : Z)
  | EvProbed (p : ptr)
  | EvAnnounced (p : ptr)
  | EvConflicted (p : ptr) (m : arp_msg)
  | EvFreed (p : ptr).

(* What the collaborators answer, by the number of questions asked so far. *)
Record oracle := {
  o_malloc : nat → bool;
  o_bpf_open : nat → Z;
  o_bpf_send : nat → Z;
  o_random : nat → Z
}.

Record world := {
  ifaces : list interface;
  heap : gmap ptr arp_state;
  timers : list timeout;
  now : Z;
  trace : list (Z * event);
  env : oracle;
  tick : nat
}.

Inductive decoded :=
  | Short
  | Truncated
  | FromSelf
  | Message (arm : arp_msg).

(** ** World updates *)

Definition set_ifaces (l : list interface) (w : world) : world :=
  {| ifaces := l; heap := heap w; timers := timers w; now := now w;
     trace := trace w; env := env w; tick := tick w |}.

Definition set_heap (h : gmap ptr arp_state) (w : world) : world :=
  {| ifaces := ifaces w; heap := h; timers := timers w; now := now w;
     trace := trace w; env := env w; tick := tick w |}.

Definition set_timers (l : list timeout) (w : world) : world :=
  {| ifaces := ifaces w; heap := heap w; timers := l; now := now w;
     trace := trace w; env := env w; tick := tick w |}.

Definition set_now (t : Z) (w : world) : world :=
  {| ifaces := ifaces w; heap := heap w; timers := timers w; now := t;
     trace := trace w; env := env w; tick := tick w |}.

(* A call that leaves arp.c, stamped with the time it is made at. *)
Definition log (e : event) (w : world) : world :=
  {| ifaces := ifaces w; heap := heap w; timers := timers w; now := now w;
     trace := trace w ++ [(now w, e)]; env := env w; tick := tick w |}.

(* The oracle has been asked once more. *)
Definition bump (w : world) : world :=
  {| ifaces := ifaces w; heap := heap w; timers := timers w; now := now w;
     trace := trace w; env := env w; tick := S (tick w) |}.

Definition get_iface (ifp : ifindex) (w : world) : res interface :=
  match ifaces w !! ifp with
  | Some i => Ok i
  | None => Err BadInterface
  end.

(* ARP_STATE(ifp) and ARP_CSTATE(ifp): ifp->if_data[IF_DATA_ARP] *)
Definition ARP_STATE (ifp : ifindex) (w : world) : res (option iarp_state) :=
  i ← get_iface ifp w; Ok (if_data_arp i).

Definition with_arp (s : option iarp_state) (i : interface) : interface :=
  {| family := family i; hwaddr := hwaddr i; if_data_arp := s |}.

Definition set_ARP_STATE (ifp : ifindex) (s : option iarp_state)
    (w : world) : world :=
  set_ifaces (alter (with_arp s) ifp (ifaces w)) w.

Definition deref (p : ptr) (w : world) : res arp_state :=
  match heap w !! p with
  | Some st => Ok st
  | None => Err UseAfterFree
  end.

Definition with_probes (n : Z) (st : arp_state) : arp_state :=
  {| iface := iface st; addr := addr st; probes := n; claims := claims st;
     probed_cb := probed_cb st; announced_cb := announced_cb st;
     conflicted_cb := conflicted_cb st; free_cb := free_cb st |}.

Definition with_claims (n : Z) (st : arp_state) : arp_state :=
  {| iface := iface st; addr := addr st; probes := probes st; claims := n;
     probed_cb := probed_cb st; announced_cb := announced_cb st;
     conflicted_cb := conflicted_cb st; free_cb := free_cb st |}.

(* The sessions queued on an interface, in TAILQ order. *)
Definition sessions (ifp : ifindex) (w : world) : list ptr :=
  match ifaces w !! ifp with
  | Some i =>
      match if_data_arp i with
      | Some s => arp_states s
      | None => []
      end
  | None => []
  end.

(* TAILQ_NEXT(p, next), read off the queue p is linked in. *)
Fixpoint tailq_next (p : ptr) (l : list ptr) : option ptr :=
  match l with
  | [] => None
  | q :: rest => if decide (q = p) then head rest else tailq_next p rest
  end.

(** ** The protocol constants and the event loop *)

(** Modelled from the spec: arp.h is not among the sources; section 4.4
    gives PROBE_MIN=1s, PROBE_MAX=2s, PROBE_NUM=3 and section 4.5 gives
    ANNOUNCE_WAIT=2s, ANNOUNCE_NUM=2. *)
Definition PROBE_NUM : Z := 3.
Definition PROBE_MIN : Z := 1.
Definition PROBE_MAX : Z := 2.
Definition ANNOUNCE_WAIT : Z := 2.
Definition ANNOUNCE_NUM : Z := 2.

Definition NSEC_PER_SEC : Z := 1000000000.

(* arc4random_uniform(upper_bound): a number below upper_bound. *)
Definition arc4random_uniform (upper_bound : Z) (w : world) : Z :=
  o_random (env w) (tick w) mod upper_bound.

(** Modelled from the spec: common.h is not among the sources; timespecnorm
    carries whole seconds of tv_nsec over to tv_sec. *)
Definition timespecnorm (tv : Z * Z) : Z * Z :=
  (fst tv + snd tv / NSEC_PER_SEC, snd tv mod NSEC_PER_SEC).

(** Modelled from the spec: eloop.c is not among the sources; section 6 has
    scheduleAfter(duration, handler, context), and cancelAll(context), which
    cancels every timer tagged to a session.  Time is counted in
    nanoseconds. *)
Definition eloop_timeout_add_tv (tv : Z * Z) (h : handler) (arg : ptr)
    (w : world) : world :=
  set_timers
    (timers w ++ [{| t_when := now w + fst tv * NSEC_PER_SEC + snd tv;
                     t_handler := h; t_arg := arg |}]) w.

Definition eloop_timeout_add_sec (sec : Z) (h : handler) (arg : ptr)
    (w : world) : world :=
  eloop_timeout_add_tv (sec, 0) h arg w.

(* eloop_timeout_delete(eloop, NULL, arg) *)
Definition eloop_timeout_delete (arg : ptr) (w : world) : world :=
  set_timers (filter (λ t, t_arg t ≠ arg) (timers w)) w.

(** Modelled from the spec: section 5, pending timers fire in fire-time
    order; among equal fire times the one scheduled first is taken. *)
Fixpoint pop_earliest (l : list timeout) : option (timeout * list timeout) :=
  match l with
  | [] => None
  | t :: rest =>
      match pop_earliest rest with
      | None => Some (t, [])
      | Some (u, rest') =>
          if decide (t_when t ≤ t_when u) then Some (t, rest)
          else Some (u, t :: rest')
      end
  end.

Section arp.

(* dhcpcd.h is not among the sources: the size of the hardware address
   arrays is left open. *)
Variable HWADDR_LEN : nat.

Definition ARP_LEN : nat :=
  (sizeof_arphdr + 2 * sizeof_in_addr + 2 * HWADDR_LEN)%nat.

(** ** arp_packet, first half: from the buffer to a message *)

(* The TAILQ_FOREACH over ifp->ctx->ifaces that looks for the sender. *)
Fixpoint from_self (ifs : list interface) (data : list byte) (ar : arphdr)
    (hw_s : nat) : res bool :=
  match ifs with
  | [] => Ok false
  | ifn :: rest =>
      if decide (ar_hln ar = hwlen ifn) then
        s ← peek data hw_s (hwlen ifn);
        if decide (s = hwaddr ifn) then Ok true
        else from_self rest data ar hw_s
      else from_self rest data ar hw_s
  end.

(* [arm0] is what the automatic variable arm holds before the copies. *)
Definition arp_decode (ifs : list interface) (arm0 : arp_msg)
    (data : list byte) : res decoded :=
  let len := length data in
  if decide (len < sizeof_arphdr)%nat then Ok Short else
  ar ← read_arphdr data;
  let hw_s := sizeof_arphdr in
  let hw_t := (hw_s + ar_hln ar + ar_pln ar)%nat in
  if decide (len < hw_t + ar_hln ar + ar_pln ar)%nat then Ok Truncated else
  self ← from_self ifs data ar hw_s;
  if (self : bool) then Ok FromSelf else
  b_sha ← peek data hw_s (ar_hln ar);
  m_sha ← memcpy_field (sha arm0) b_sha;
  b_sip ← peek data (hw_s + ar_hln ar) (ar_pln ar);
  m_sip ← memcpy_field (in_addr_bytes (sip arm0)) b_sip;
  b_tha ← peek data hw_t (ar_hln ar);
  m_tha ← memcpy_field (tha arm0) b_tha;
  b_tip ← peek data (hw_t + ar_hln ar) (ar_pln ar);
  m_tip ← memcpy_field (in_addr_bytes (tip arm0)) b_tip;
  Ok (Message {| op := op arm0;
                 sha := m_sha;
                 sip := in_addr_of_bytes m_sip;
                 tha := m_tha;
                 tip := in_addr_of_bytes m_tip |}).

(** ** arp_request *)

(* The CHECK macro: append [b] unless it would not fit in arp_buffer. *)
Definition CHECK (buf : option (list byte)) (b : list byte)
    : option (list byte) :=
  match buf with
  | Some bs =>
      if decide (ARP_LEN < length bs + length b)%nat then None
      else Some (bs ++ b)
  | None => None
  end.

Definition arp_frame (i : interface) (sip tip : Z) : option (list byte) :=
  let ar := {| ar_hrd := family i; ar_pro := ETHERTYPE_IP;
               ar_hln := hwlen i; ar_pln := sizeof_in_addr;
               ar_op := ARPOP_REQUEST |} in
  let b1 := CHECK (Some []) (arphdr_bytes ar) in
  let b2 := CHECK b1 (hwaddr i) in
  let b3 := CHECK b2 (in_addr_bytes sip) in
  let b4 := CHECK b3 (replicate (hwlen i) x00) in
  CHECK b4 (in_addr_bytes tip).

Definition arp_request (ifp : ifindex) (sip tip : Z) (w : world)
    : res (Z * world) :=
  i ← get_iface ifp w;
  match arp_frame i sip tip with
  | None => Ok (-1, w)                       (* errno = ENOBUFS *)
  | Some buf =>
      match if_data_arp i with
      | None => Err NullDeref
      | Some s =>
          Ok (o_bpf_send (env w) (tick w),
              log (EvBpfSend ifp (fd s) ETHERTYPE_ARP buf) (bump w))
      end
  end.

(** ** arp_close, arp_open *)

Definition arp_close (ifp : ifindex) (w : world) : res world :=
  st ← ARP_STATE ifp w;
  match st with
  | Some s =>
      if decide (fd s = -1) then Ok w
      else
        Ok (set_ARP_STATE ifp (Some {| fd := -1; arp_states := arp_states s |})
              (log (EvBpfClose (fd s)) (log (EvEventDelete (fd s)) w)))
  | None => Ok w
  end.

Definition arp_open (ifp : ifindex) (w : world) : res (Z * world) :=
  st ← ARP_STATE ifp w;
  match st with
  | None => Err NullDeref
  | Some s =>
      if decide (fd s = -1) then
        let r := o_bpf_open (env w) (tick w) in
        let w1 :=
          set_ARP_STATE ifp (Some {| fd := r; arp_states := arp_states s |})
            (log (EvBpfOpen ifp r) (bump w)) in
        if decide (r = -1) then Ok (-1, w1)
        else Ok (r, log (EvEventAdd r) w1)
      else Ok (fd s, w)
  end.

(** ** Probing *)

Definition arp_probed (p : ptr) (w : world) : res world :=
  st ← deref p w;
  if probed_cb st then Ok (log (EvProbed p) w) else Err NullDeref.

Definition arp_probe1 (p : ptr) (w : world) : res world :=
  st ← deref p w;
  let ifp := iface st in
  _ ← get_iface ifp w;
  let n := probes st + 1 in
  let w1 := set_heap (<[p := with_probes n st]> (heap w)) w in
  let w2 :=
    if decide (n < PROBE_NUM) then
      let tv :=
        (PROBE_MIN,
         arc4random_uniform ((PROBE_MAX - PROBE_MIN) * NSEC_PER_SEC) w1) in
      eloop_timeout_add_tv (timespecnorm tv) H_arp_probe1 p (bump w1)
    else eloop_timeout_add_tv (ANNOUNCE_WAIT, 0) H_arp_probed p w1 in
  '(_, w3) ← arp_request ifp INADDR_ANY (addr st) w2;
  Ok w3.

Definition arp_probe (p : ptr) (w : world) : res world :=
  st ← deref p w;
  '(r, w1) ← arp_open (iface st) w;
  if decide (r = -1) then Ok w1
  else
    s ← ARP_STATE (iface st) w1;
    match s with
    | None => Err NullDeref
    | Some s =>
        let w2 := log (EvBpfFilter (iface st) (fd s)) w1 in
        arp_probe1 p (set_heap (<[p := with_probes 0 st]> (heap w2)) w2)
    end.

(** ** Announcing *)

Definition arp_announced (p : ptr) (w : world) : res world :=
  st ← deref p w;
  if announced_cb st then Ok (log (EvAnnounced p) w) else Ok w.

Definition arp_announce1 (p : ptr) (w : world) : res world :=
  st ← deref p w;
  let ifp := iface st in
  let n := claims st + 1 in
  let w1 := set_heap (<[p := with_claims n st]> (heap w)) w in
  '(_, w2) ← arp_request ifp (addr st) (addr st) w1;
  Ok (eloop_timeout_add_sec ANNOUNCE_WAIT
        (if decide (n < ANNOUNCE_NUM) then H_arp_announce1
         else H_arp_announced) p w2).

Definition arp_announce (p : ptr) (w : world) : res world :=
  st ← deref p w;
  '(r, w1) ← arp_open (iface st) w;
  if decide (r = -1) then Ok w1
  else arp_announce1 p (set_heap (<[p := with_claims 0 st]> (heap w1)) w1).

(** ** arp_find, arp_new, arp_cancel, arp_free *)

Fixpoint arp_find_in (l : list ptr) (ifp : ifindex) (a : Z) (w : world)
    : res (option ptr) :=
  match l with
  | [] => Ok None
  | p :: rest =>
      st ← deref p w;
      if decide (addr st = a ∧ iface st = ifp) then Ok (Some p)
      else arp_find_in rest ifp a w
  end.

Definition arp_find (ifp : ifindex) (a : Z) (w : world) : res (option ptr) :=
  st ← ARP_STATE ifp w;
  match st with
  | None => Ok None                          (* errno = ESRCH *)
  | Some s => arp_find_in (arp_states s) ifp a w
  end.

(* calloc gives a session with every member zero; iface and addr are then
   assigned. *)
Definition new_state (ifp : ifindex) (a : option Z) : arp_state :=
  {| iface := ifp; addr := default 0 a; probes := 0; claims := 0;
     probed_cb := false; announced_cb := false;
     conflicted_cb := None; free_cb := false |}.

(* The part of arp_new after the context is known to exist. *)
Definition arp_new_session (ifp : ifindex) (a : option Z) (w : world)
    : res (option ptr * world) :=
  if o_malloc (env w) (tick w) then
    let p := fresh (dom (heap w)) in
    let w1 := set_heap (<[p := new_state ifp a]> (heap w)) (bump w) in
    s ← ARP_STATE ifp w1;
    match s with
    | None => Err NullDeref
    | Some s =>
        Ok (Some p,
            log (EvBpfFilter ifp (fd s))
              (set_ARP_STATE ifp
                 (Some {| fd := fd s; arp_states := arp_states s ++ [p] |})
                 w1))
    end
  else Ok (None, bump w).

Definition arp_new (ifp : ifindex) (a : option Z) (w : world)
    : res (option ptr * world) :=
  st ← ARP_STATE ifp w;
  match st with
  | None =>
      if o_malloc (env w) (tick w) then
        arp_new_session ifp a
          (set_ARP_STATE ifp (Some {| fd := -1; arp_states := [] |}) (bump w))
      else Ok (None, bump w)
  | Some s =>
      match a with
      | Some a' =>
          r ← arp_find ifp a' w;
          match r with
          | Some p => Ok (Some p, w)
          | None => arp_new_session ifp a w
          end
      | None => arp_new_session ifp a w
      end
  end.

Definition arp_cancel (p : ptr) (w : world) : res world :=
  st ← deref p w;
  _ ← get_iface (iface st) w;
  Ok (eloop_timeout_delete p w).

Definition arp_free (astate : option ptr) (w : world) : res world :=
  match astate with
  | None => Ok w
  | Some p =>
      st ← deref p w;
      let ifp := iface st in
      _ ← get_iface ifp w;
      let w1 := eloop_timeout_delete p w in
      s ← ARP_STATE ifp w1;
      match s with
      | None => Err NullDeref
      | Some s =>
          if decide (p ∈ arp_states s) then
            let l := filter (λ q, q ≠ p) (arp_states s) in
            let w2 :=
              set_ARP_STATE ifp (Some {| fd := fd s; arp_states := l |}) w1 in
            let w3 := if free_cb st then log (EvFreed p) w2 else w2 in
            let w4 := set_heap (delete p (heap w3)) w3 in
            match l with
            | [] =>
                w5 ← arp_close ifp w4;
                Ok (set_ARP_STATE ifp None w5)
            | _ :: _ => Ok (log (EvBpfFilter ifp (fd s)) w4)
            end
          else Err NotLinked
      end
  end.

(** ** arp_packet, second half: running the conflicts *)

(* TAILQ_FOREACH_SAFE(var, head, next, tvar): tvar is read from var before
   the body runs, and var is used again only through tvar. *)
Fixpoint foreach_safe (fuel : nat) (ifp : ifindex)
    (body : ptr → world → res world) (var : option ptr) (w : world)
    : res world :=
  match var with
  | None => Ok w
  | Some p =>
      match fuel with
      | O => Err OutOfFuel
      | S fuel' =>
          _ ← deref p w;
          let tvar := tailq_next p (sessions ifp w) in
          w1 ← body p w;
          foreach_safe fuel' ifp body tvar w1
      end
  end.

(* The owner's code inside a conflicted callback: its calls of arp_free. *)
Fixpoint owner_frees (l : list ptr) (w : world) : res world :=
  match l with
  | [] => Ok w
  | q :: rest => w1 ← arp_free (Some q) w; owner_frees rest w1
  end.

Definition conflict_body (arm : arp_msg) (p : ptr) (w : world) : res world :=
  st ← deref p w;
  if decide (sip arm ≠ addr st ∧ tip arm ≠ addr st) then Ok w
  else
    match conflicted_cb st with
    | None => Ok w
    | Some cb => owner_frees (cb arm) (log (EvConflicted p arm) w)
    end.

Definition arp_conflicts (ifp : ifindex) (arm : arp_msg) (w : world)
    : res world :=
  s ← ARP_STATE ifp w;
  match s with
  | None => Err NullDeref
  | Some s =>
      foreach_safe (length (arp_states s)) ifp (conflict_body arm)
        (head (arp_states s)) w
  end.

Definition arp_packet (ifp : ifindex) (arm0 : arp_msg) (data : list byte)
    (w : world) : res world :=
  d ← arp_decode (ifaces w) arm0 data;
  match d with
  | Message arm => arp_conflicts ifp arm w
  | _ => Ok w
  end.

(** ** arp_read *)

(* What one call of bpf_read gives: -1, or a frame copied to buf together
   with the BPF_EOF bit of flags. *)
Inductive bpf_read_result :=
  | ReadFailed
  | ReadFrame (data : list byte) (eof : bool).

(* The while loop of arp_read.  [answers] are the results of the calls of
   bpf_read to come, each with what the automatic variable arm of that
   arp_packet call holds at first. *)
Fixpoint arp_read_loop (answers : list (bpf_read_result * arp_msg))
    (ifp : ifindex) (w : world) : res world :=
  match answers with
  | [] => Err OutOfFuel
  | (ReadFailed, _) :: _ => arp_close ifp w
  | (ReadFrame data eof, arm0) :: rest =>
      w1 ← arp_packet ifp arm0 data w;
      (* Check we still have a state after processing. *)
      s ← ARP_STATE ifp w1;
      match s with
      | None => Ok w1
      | Some s =>
          if decide (fd s = -1) then Ok w1
          else if eof then Ok w1
          else arp_read_loop rest ifp w1
      end
  end.

Definition arp_read (answers : list (bpf_read_result * arp_msg))
    (ifp : ifindex) (w : world) : res world :=
  s ← ARP_STATE ifp w;
  match s with
  | None => Err NullDeref
  | Some _ => arp_read_loop answers ifp w
  end.

(** ** arp_free_but1, arp_free_but, arp_drop *)

Definition arp_free_but1_body (astate : option ptr) (p : ptr) (w : world)
    : res world :=
  if decide (Some p = astate) then Ok w else arp_free (Some p) w.

Definition arp_free_but1 (ifp : ifindex) (astate : option ptr) (w : world)
    : res world :=
  s ← ARP_STATE ifp w;
  match s with
  | None => Ok w
  | Some s =>
      foreach_safe (length (arp_states s)) ifp (arp_free_but1_body astate)
        (head (arp_states s)) w
  end.

Definition arp_free_but (p : ptr) (w : world) : res world :=
  st ← deref p w;
  arp_free_but1 (iface st) (Some p) w.

Definition arp_drop (ifp : ifindex) (w : world) : res world :=
  w1 ← arp_free_but1 ifp None w;
  arp_close ifp w1.

(** ** The event loop, driving the timers *)

Definition run_handler (t : timeout) (w : world) : res world :=
  match t_handler t with
  | H_arp_probe1 => arp_probe1 (t_arg t) w
  | H_arp_probed => arp_probed (t_arg t) w
  | H_arp_announce1 => arp_announce1 (t_arg t) w
  | H_arp_announced => arp_announced (t_arg t) w
  end.

(** Modelled from the spec: section 5, a timer fires at its fire time and
    its callback runs to completion before the next event. *)
Definition eloop_step (w : world) : res (option world) :=
  match pop_earliest (timers w) with
  | None => Ok None
  | Some (t, rest) =>
      w1 ← run_handler t (set_now (t_when t) (set_timers rest w));
      Ok (Some w1)
  end.

Fixpoint eloop_run (fuel : nat) (w : world) : res world :=
  match fuel with
  | O => Err OutOfFuel
  | S fuel' =>
      r ← eloop_step w;
      match r with
      | None => Ok w
      | Some w1 => eloop_run fuel' w1
      end
  end.

(** ** Vocabulary of the properties *)

(* The sessions whose conflicted_cb a trace shows called, in call order. *)
Definition conflicted_calls (tr : list (Z * event)) : list ptr :=
  omap (λ te, match te.2 with
              | EvConflicted p _ => Some p
              | _ => None
              end) tr.

(* The test of the dispatch loop on one session. *)
Definition matches (arm : arp_msg) (st : arp_state) : Prop :=
  sip arm = addr st ∨ tip arm = addr st.

(* Every queue holds each of its sessions once, holds live sessions of its
   own interface only, and every live session is on the queue of its
   interface: what arp_new and arp_free keep true. *)
Definition wf (w : world) : Prop :=
  Forall (λ ifp, NoDup (sessions ifp w)
                 ∧ Forall (λ p, iface <$> heap w !! p = Some ifp)
                     (sessions ifp w))
    (seq 0 (length (ifaces w)))
  ∧ map_Forall (λ p st, p ∈ sessions (iface st) w) (heap w).

(* The sessions whose free_cb a trace shows called, in call order. *)
Definition freed_calls (tr : list (Z * event)) : list ptr :=
  omap (λ te, match te.2 with
              | EvFreed p => Some p
              | _ => None
              end) tr.

(* The descriptors a trace shows handed to bpf_close, in call order. *)
Definition closed_calls (tr : list (Z * event)) : list Z :=
  omap (λ te, match te.2 with
              | EvBpfClose d => Some d
              | _ => None
              end) tr.

(* Whether the session at p has a free callback. *)
Definition has_free_cb (h : gmap ptr arp_state) (p : ptr) : bool :=
  match h !! p with
  | Some st => free_cb st
  | None => false
  end.

(* An answer of bpf_read that arp_read steps over: a frame, not the last of
   the buffer, that arp_packet drops or matches with no session, so that the
   world is after it as it was before. *)
Definition passes (ifp : ifindex) (w : world)
    (a : bpf_read_result * arp_msg) : Prop :=
  match a with
  | (ReadFrame data false, arm0) => arp_packet ifp arm0 data w = Ok w
  | _ => False
  end.

#[global] Instance wf_dec (w : world) : Decision (wf w).
Proof. unfold wf. apply _. Defined.

(* What conflict_body does on session p, read off the heap the dispatch
   starts from: whether conflicted_cb is called, and the sessions that call
   hands to arp_free. *)
Definition called (h : gmap ptr arp_state) (arm : arp_msg) (p : ptr) : bool :=
  match h !! p with
  | Some st =>
      bool_decide (matches arm st) && bool_decide (is_Some (conflicted_cb st))
  | None => false
  end.

Definition frees (h : gmap ptr arp_state) (arm : arp_msg) (p : ptr)
    : list ptr :=
  match h !! p with
  | Some st =>
      if decide (matches arm st) then
        match conflicted_cb st with
        | Some cb => cb arm
        | None => []
        end
      else []
  | None => []
  end.

(* The calls expected along the queue [l] once the sessions of [freed] are
   gone: a session freed before its turn is not reached. *)
Fixpoint dispatched (h : gmap ptr arp_state) (arm : arp_msg)
    (l freed : list ptr) : list ptr :=
  match l with
  | [] => []
  | p :: rest =>
      if decide (p ∈ freed) then dispatched h arm rest freed
      else (if called h arm p then [p] else [])
             ++ dispatched h arm rest (frees h arm p ++ freed)
  end.

(* What the loop can take from the callbacks: each frees live sessions,
   none twice, and none frees the session that follows, in the queue as it
   is when the callback runs, the session it is called for. *)
Fixpoint tolerated (h : gmap ptr arp_state) (arm : arp_msg)
    (l freed : list ptr) : Prop :=
  match l with
  | [] => True
  | p :: rest =>
      if decide (p ∈ freed) then tolerated h arm rest freed
      else
        NoDup (frees h arm p)
        ∧ Forall (λ q, (q ∉ freed) ∧ is_Some (h !! q)) (frees h arm p)
        ∧ (match head (filter (λ q, q ∉ freed) rest) with
           | Some n => n ∉ frees h arm p
           | None => True
           end)
        ∧ tolerated h arm rest (frees h arm p ++ freed)
  end.

(* Session q stands in the queue somewhere before session p: the loop
   reaches q, and runs its callback, before the turn of p. *)
Definition queued_before (q p : ptr) (l : list ptr) : Prop :=
  ∃ l1 l2, l = l1 ++ q :: l2 ∧ p ∈ l2.

(* The frame arp_request builds when it fits: an ARP request for IPv4. *)
Definition request_frame (i : interface) (sip tip : Z) : list byte :=
  arphdr_bytes {| ar_hrd := family i; ar_pro := ETHERTYPE_IP;
                  ar_hln := hwlen i; ar_pln := sizeof_in_addr;
                  ar_op := ARPOP_REQUEST |}
    ++ hwaddr i ++ in_addr_bytes sip
    ++ replicate (hwlen i) x00 ++ in_addr_bytes tip.

(* What arp_open adds to the trace, and the descriptor it leaves. *)
Definition opened_fd (s : iarp_state) (w : world) : Z :=
  if decide (fd s = -1) then o_bpf_open (env w) (tick w) else fd s.

Definition opening (ifp : ifindex) (s : iarp_state) (w : world)
    : list (Z * event) :=
  if decide (fd s = -1) then
    [(now w, EvBpfOpen ifp (opened_fd s w)); (now w, EvEventAdd (opened_fd s w))]
  else [].

(** ** Worlds to run the code on *)

Definition quiet : oracle :=
  {| o_malloc := λ _, true; o_bpf_open := λ _, 3; o_bpf_send := λ _, 42;
     o_random := λ _, 2500000321 |}.

Definition eth0_hwaddr : list byte := [x02; x00; x5e; x10; x00; x01].

Definition eth0 (ctx : option iarp_state) : interface :=
  {| family := 1; hwaddr := eth0_hwaddr; if_data_arp := ctx |}.

(* One Ethernet interface whose context has descriptor [d] and queue [l]. *)
Definition one_iface (d : Z) (l : list ptr) (h : gmap ptr arp_state)
    (o : oracle) : world :=
  {| ifaces := [eth0 (Some {| fd := d; arp_states := l |})];
     heap := h; timers := []; now := 0; trace := []; env := o; tick := 0 |}.

(* A session on interface 0 as its owner has set it up. *)
Definition owned (a : Z) (cb : option (arp_msg → list ptr)) : arp_state :=
  {| iface := 0%nat; addr := a; probes := 0; claims := 0;
     probed_cb := true; announced_cb := true; conflicted_cb := cb;
     free_cb := true |}.

Definition addr_A : Z := 3232235777.   (* 192.168.1.1 *)
Definition addr_B : Z := 3232235778.   (* 192.168.1.2 *)
Definition addr_C : Z := 3232235779.   (* 192.168.1.3 *)

Definition msg (s t : Z) : arp_msg :=
  {| op := 1; sha := [x02; x00; x5e; x10; x00; x99]; sip := s;
     tha := [x00; x00; x00; x00; x00; x00]; tip := t |}.

(* Three sessions for the same address; the callback of the first frees
   the second, which is the one queued after it. *)
Definition world_frees_next : world :=
  one_iface 3 [1; 2; 3]%nat
    (<[1%nat := owned addr_A (Some (λ _, [2%nat]))]>
       (<[2%nat := owned addr_A (Some (λ _, []))]>
          (<[3%nat := owned addr_A (Some (λ _, []))]> ∅)))
    quiet.

(* Four sessions for the same address; the callback of the first frees
   itself and the third, the callback of the fourth frees the second. *)
Definition world_frees_others : world :=
  one_iface 3 [1; 2; 3; 4]%nat
    (<[1%nat := owned addr_A (Some (λ _, [1; 3]%nat))]>
       (<[2%nat := owned addr_A (Some (λ _, []))]>
          (<[3%nat := owned addr_A (Some (λ _, []))]>
             (<[4%nat := owned addr_A (Some (λ _, [2%nat]))]> ∅))))
    quiet.

(* Sessions for the distinct addresses A and B. *)
Definition world_A_B : world :=
  one_iface 3 [1; 2]%nat
    (<[1%nat := owned addr_A (Some (λ _, []))]>
       (<[2%nat := owned addr_B (Some (λ _, [2%nat]))]> ∅))
    quiet.

(* An interface that has no ARP context yet. *)
Definition world_bare (o : oracle) : world :=
  {| ifaces := [eth0 None];
     heap := ∅; timers := []; now := 0; trace := []; env := o; tick := 0 |}.

(* The allocator answers the first request and refuses the second. *)
Definition second_malloc_fails : oracle :=
  {| o_malloc := λ n, bool_decide (n = 0%nat); o_bpf_open := λ _, 3;
     o_bpf_send := λ _, 42; o_random := λ _, 0 |}.

(* A header alone, claiming hardware addresses of 255 bytes. *)
Definition forged_frame : list byte :=
  [x00; x01; x08; x00; xff; x04; x00; x01].

(* A reply that carries the hardware address of the interface above as
   its sender. *)
Definition own_frame : list byte :=
  [x00; x01; x08; x00; x06; x04; x00; x02]
    ++ eth0_hwaddr ++ [xc0; xa8; x01; x01]
    ++ [x02; x00; x5e; x10; x00; x99] ++ [xc0; xa8; x01; x02].

(* One session, with all four callbacks, on an interface whose descriptor
   is still closed. *)
Definition world_closed : world :=
  one_iface (-1) [1%nat] (<[1%nat := owned addr_A (Some (λ _, []))]> ∅) quiet.

(* Another host on the link, and the announcements it sends for A and C. *)
Definition peer : interface :=
  {| family := 1; hwaddr := [x02; x00; x5e; x10; x00; x99];
     if_data_arp := None |}.

Definition frame_claiming_A : list byte := request_frame peer addr_A addr_A.
Definition frame_claiming_C : list byte := request_frame peer addr_C addr_C.

(* The automatic variable arm of arp_packet, its arrays 20 bytes long. *)
Definition fresh_arm : arp_msg :=
  {| op := 0; sha := replicate 20 x00; sip := 0;
     tha := replicate 20 x00; tip := 0 |}.

(* What arp_packet makes of frame_claiming_A in fresh_arm. *)
Definition arm_claiming_A : arp_msg :=
  {| op := 0; sha := hwaddr peer ++ replicate 14 x00; sip := addr_A;
     tha := replicate 20 x00; tip := addr_A |}.

(* bpf_open fails. *)
Definition no_bpf : oracle :=
  {| o_malloc := λ _, true; o_bpf_open := λ _, -1; o_bpf_send := λ _, 42;
     o_random := λ _, 0 |}.

Definition world_no_bpf : world :=
  one_iface (-1) [1%nat] (<[1%nat := owned addr_A (Some (λ _, []))]> ∅) no_bpf.

(* One session as arp_new leaves it, no callback set. *)
Definition world_no_callbacks : world :=
  one_iface (-1) [1%nat] (<[1%nat := new_state 0 (Some addr_A)]> ∅) quiet.

(* One session, whose owner frees it when it conflicts. *)
Definition world_frees_self : world :=
  one_iface 3 [1%nat] (<[1%nat := owned addr_A (Some (λ _, [1%nat]))]> ∅) quiet.

(* Two interfaces: three sessions on the first, the second of them without
   free callback, and one session on the other. *)
Definition wlan0 (ctx : option iarp_state) : interface :=
  {| family := 1; hwaddr := [x02; x00; x5e; x10; x00; x02];
     if_data_arp := ctx |}.

Definition world_two_ifaces : world :=
  {| ifaces := [eth0 (Some {| fd := 3; arp_states := [1; 2; 3]%nat |});
                wlan0 (Some {| fd := 4; arp_states := [4%nat] |})];
     heap := <[1%nat := owned addr_A None]>
               (<[2%nat := new_state 0 (Some addr_B)]>
                  (<[3%nat := owned addr_C None]>
                     (<[4%nat := new_state 1 (Some addr_A)]> ∅)));
     timers := []; now := 0; trace := []; env := quiet; tick := 0 |}.

(** * Properties *)

(** ** Reading the buffer *)

Ltac sizes := unfold sizeof_arphdr, sizeof_in_addr in *; lia.

Lemma peek_in_bounds (data : list byte) (off n : nat) :
  (off + n ≤ length data)%nat →
  peek data off n = Ok (take n (drop off data)).
Proof. intros H. unfold peek. by rewrite decide_True. Qed.

Lemma read_arphdr_full (data : list byte) :
  (sizeof_arphdr ≤ length data)%nat → ∃ ar, read_arphdr data = Ok ar.
Proof.
  unfold sizeof_arphdr. intros H.
  do 8 (destruct data as [|? data]; [simpl in H; lia|]).
  unfold read_arphdr, sizeof_arphdr.
  rewrite peek_in_bounds by (simpl; lia).
  simpl. eauto.
Qed.

Lemma read_arphdr_lengths (data : list byte) (ar : arphdr) :
  read_arphdr data = Ok ar →
  ∃ hl pl, data !! 4%nat = Some hl ∧ data !! 5%nat = Some pl
           ∧ ar_hln ar = byte_val hl ∧ ar_pln ar = byte_val pl.
Proof.
  unfold read_arphdr, peek. case_decide as Hlen; [|done].
  unfold sizeof_arphdr in Hlen. simpl in Hlen.
  do 8 (destruct data as [|? data]; [simpl in Hlen; lia|]).
  simpl. intros [= <-]. simpl. by eexists _, _.
Qed.

Lemma from_self_in_bounds (ifs : list interface) (data : list byte)
    (ar : arphdr) (hw_s : nat) :
  (hw_s + ar_hln ar ≤ length data)%nat →
  ∃ b, from_self ifs data ar hw_s = Ok b.
Proof.
  intros Hlen. induction ifs as [|ifn rest IH]; simpl; [eauto|].
  case_decide as Hh; [|done].
  rewrite peek_in_bounds by lia. simpl.
  case_decide; eauto.
Qed.

Lemma from_self_found (ifs : list interface) (data : list byte)
    (ar : arphdr) (hw_s : nat) (ifn : interface) :
  ifn ∈ ifs →
  ar_hln ar = hwlen ifn →
  peek data hw_s (ar_hln ar) = Ok (hwaddr ifn) →
  from_self ifs data ar hw_s = Ok true.
Proof.
  intros Hin Hh Hpk. induction ifs as [|i rest IH]; [by inversion Hin|].
  simpl. case_decide as Hi.
  - rewrite <- Hi, Hpk. simpl. case_decide; [done|].
    apply IH. inversion Hin; subst; [congruence|done].
  - apply IH. inversion Hin; subst; [congruence|done].
Qed.

Lemma memcpy_field_in_bounds (dst src : list byte) :
  memcpy_field dst src ≠ Err OutOfBounds.
Proof. unfold memcpy_field. by case_decide. Qed.

(** The reads of arp_decode all lie inside the buffer. *)
Lemma arp_decode_in_bounds (ifs : list interface) (arm0 : arp_msg)
    (data : list byte) :
  arp_decode ifs arm0 data ≠ Err OutOfBounds.
Proof.
  unfold arp_decode. case_decide as Hshort; [done|].
  destruct (read_arphdr_full data) as [ar Har]; [sizes|].
  rewrite Har. simpl. case_decide as Htrunc; [done|].
  destruct (from_self_in_bounds ifs data ar sizeof_arphdr) as [b Hb]; [sizes|].
  rewrite Hb. simpl. destruct b; [done|].
  rewrite !peek_in_bounds by sizes. simpl.
  repeat (match goal with
          | |- context [memcpy_field ?d ?s] =>
              let E := fresh "E" in
              destruct (memcpy_field d s) as [?|[]] eqn:E; simpl;
              try done; try (by apply memcpy_field_in_bounds in E)
          end).
Qed.

Lemma arp_decode_short (ifs : list interface) (arm0 : arp_msg)
    (data : list byte) :
  (length data < sizeof_arphdr)%nat → arp_decode ifs arm0 data = Ok Short.
Proof. intros H. unfold arp_decode. by rewrite decide_True. Qed.

Lemma arp_decode_truncated (ifs : list interface) (arm0 : arp_msg)
    (data : list byte) (ar : arphdr) :
  read_arphdr data = Ok ar →
  (length data < sizeof_arphdr + 2 * (ar_hln ar + ar_pln ar))%nat →
  arp_decode ifs arm0 data = Ok Truncated.
Proof.
  intros Har Hlen. unfold arp_decode.
  case_decide as Hshort.
  - unfold read_arphdr, peek in Har.
    rewrite decide_False in Har by (simpl; lia). done.
  - rewrite Har. simpl. rewrite decide_True by sizes. done.
Qed.

(** C1: arp_packet never reads outside the buffer it is given; a buffer
    shorter than the 8-byte header is rejected; once the header is read, a
    buffer shorter than 8 + 2 * (ar_hln + ar_pln) is rejected before any of
    the four field copies, the world being left as it was; an 8-byte
    buffer whose header claims a hardware length of 255 is such a buffer. *)
Theorem arp_packet_rejects_before_reading_past (ifp : ifindex)
    (arm0 : arp_msg) (data : list byte) (w : world) :
  arp_decode (ifaces w) arm0 data ≠ Err OutOfBounds
  ∧ ((length data < 8)%nat →
     arp_decode (ifaces w) arm0 data = Ok Short
     ∧ arp_packet ifp arm0 data w = Ok w)
  ∧ (∀ ar, read_arphdr data = Ok ar →
     (length data < 8 + 2 * (ar_hln ar + ar_pln ar))%nat →
     arp_decode (ifaces w) arm0 data = Ok Truncated
     ∧ arp_packet ifp arm0 data w = Ok w)
  ∧ (length data = 8%nat → data !! 4%nat = Some xff →
     arp_decode (ifaces w) arm0 data = Ok Truncated
     ∧ arp_packet ifp arm0 data w = Ok w).
Proof.
  split; [apply arp_decode_in_bounds|].
  split; [|split].
  - intros H. unfold arp_packet. by rewrite arp_decode_short.
  - intros ar Har H. unfold arp_packet.
    by rewrite (arp_decode_truncated _ _ _ ar).
  - intros Hlen H4.
    destruct (read_arphdr_full data) as [ar Har]; [unfold sizeof_arphdr; lia|].
    destruct (read_arphdr_lengths data ar Har) as (hl & pl & Hhl & _ & Hh & _).
    assert (hl = xff) as -> by congruence.
    unfold arp_packet. rewrite (arp_decode_truncated _ _ _ ar); [done|done|].
    rewrite Hh, Hlen. change (byte_val xff) with 255%nat. sizes.
Qed.

(** ** Frames from ourself *)

(** C9: when the sender hardware address in the frame, of the length the
    header gives, is the hardware address of an interface of ctx->ifaces
    with that hardware length, arp_packet leaves the world as it was: no
    message comes out of the decoder and no callback is called. *)
Theorem arp_packet_ignores_self (ifp : ifindex) (arm0 : arp_msg)
    (data : list byte) (w : world) (ar : arphdr) (ifn : interface) :
  read_arphdr data = Ok ar →
  ifn ∈ ifaces w →
  ar_hln ar = hwlen ifn →
  peek data sizeof_arphdr (ar_hln ar) = Ok (hwaddr ifn) →
  arp_packet ifp arm0 data w = Ok w
  ∧ ∀ arm, arp_decode (ifaces w) arm0 data ≠ Ok (Message arm).
Proof.
  intros Har Hin Hh Hpk.
  assert (arp_decode (ifaces w) arm0 data = Ok Truncated
          ∨ arp_decode (ifaces w) arm0 data = Ok FromSelf) as Hd.
  { unfold arp_decode. case_decide as Hshort.
    - unfold read_arphdr, peek in Har.
      rewrite decide_False in Har by (simpl; lia). done.
    - rewrite Har. simpl. case_decide; [by left|].
      rewrite (from_self_found _ _ _ _ ifn) by done. by right. }
  assert (arp_packet ifp arm0 data w = Ok w) as Hp.
  { unfold arp_packet. by destruct Hd as [-> | ->]. }
  split; [done|].
  intros arm. by destruct Hd as [-> | ->].
Qed.

(** ** arp_free of a null pointer *)

(** C10: arp_free(NULL) returns at once and the world, with every interface
    context, every queue of sessions and every descriptor, is unchanged. *)
Theorem arp_free_null (w : world) : arp_free None w = Ok w.
Proof. reflexivity. Qed.

(** ** Reading and writing the world *)

Ltac wsimpl :=
  cbn [ifaces heap timers now trace env tick set_ifaces set_heap set_timers
       set_now log bump set_ARP_STATE eloop_timeout_delete
       eloop_timeout_add_tv eloop_timeout_add_sec with_arp if_data_arp
       family hwaddr fd arp_states] in *.

Lemma get_iface_Some (ifp : ifindex) (w : world) (i : interface) :
  ifaces w !! ifp = Some i → get_iface ifp w = Ok i.
Proof. intros H. unfold get_iface. by rewrite H. Qed.

Lemma ARP_STATE_Some (ifp : ifindex) (w : world) (i : interface) :
  ifaces w !! ifp = Some i → ARP_STATE ifp w = Ok (if_data_arp i).
Proof. intros H. unfold ARP_STATE. by rewrite (get_iface_Some _ _ i). Qed.

Lemma deref_Some (p : ptr) (w : world) (st : arp_state) :
  heap w !! p = Some st → deref p w = Ok st.
Proof. intros H. unfold deref. by rewrite H. Qed.

(** ** arp_free *)

Lemma arp_free_queued (p : ptr) (st : arp_state) (i : interface)
    (s : iarp_state) (w : world) :
  heap w !! p = Some st →
  ifaces w !! iface st = Some i →
  if_data_arp i = Some s →
  p ∈ arp_states s →
  ∃ w',
    arp_free (Some p) w = Ok w'
    ∧ timers w' = filter (λ t, t_arg t ≠ p) (timers w)
    ∧ heap w' = delete p (heap w)
    ∧ sessions (iface st) w' = filter (λ q, q ≠ p) (arp_states s)
    ∧ (∀ j, j ≠ iface st → ifaces w' !! j = ifaces w !! j)
    ∧ let freed := if free_cb st then [(now w, EvFreed p)] else [] in
      if decide (filter (λ q, q ≠ p) (arp_states s) = []) then
        ARP_STATE (iface st) w' = Ok None
        ∧ trace w' =
            trace w ++ freed
              ++ (if decide (fd s = -1) then []
                  else [(now w, EvEventDelete (fd s));
                        (now w, EvBpfClose (fd s))])
      else
        ARP_STATE (iface st) w' =
          Ok (Some {| fd := fd s;
                      arp_states := filter (λ q, q ≠ p) (arp_states s) |})
        ∧ trace w' =
            trace w ++ freed ++ [(now w, EvBpfFilter (iface st) (fd s))].
Proof.
  intros Hp Hi Hs Hin. unfold arp_free.
  rewrite (deref_Some _ _ st) by done. simpl.
  rewrite (get_iface_Some _ _ i) by done. simpl.
  rewrite (ARP_STATE_Some _ _ i) by done. rewrite Hs. simpl.
  rewrite decide_True by done.
  destruct (filter (λ q, q ≠ p) (arp_states s)) as [|q rest] eqn:Hl.
  - unfold arp_close.
    destruct (free_cb st);
      (rewrite (ARP_STATE_Some _ _ (with_arp (Some {| fd := fd s; arp_states := [] |}) i))
         by (wsimpl; by rewrite list_lookup_alter_eq, Hi));
      wsimpl; simpl; case_decide as Hfd;
      (eexists; split; [reflexivity|]);
      unfold sessions, ARP_STATE, get_iface; wsimpl;
      rewrite ?list_lookup_alter_eq, Hi; simpl;
      rewrite ?decide_True by done; rewrite ?app_nil_r, <- ?app_assoc;
      repeat split; try done;
      intros j Hj; by rewrite ?list_lookup_alter_ne by done.
  - destruct (free_cb st);
      (eexists; split; [reflexivity|]);
      unfold sessions, ARP_STATE, get_iface; wsimpl;
      rewrite ?list_lookup_alter_eq, Hi; simpl;
      rewrite ?decide_False by done; rewrite ?app_nil_r, <- ?app_assoc;
      repeat split; try done;
      intros j Hj; by rewrite ?list_lookup_alter_ne by done.
Qed.

(** C7: arp_free of a session that is queued on its interface deletes the
    timers that carry it, unlinks it, calls free_cb when there is one and
    releases it.  When the queue is empty afterwards the descriptor, if it
    is open, is taken from the event loop and closed, and the context is
    released; otherwise the context keeps its descriptor as it is and the
    only call into the transport is bpf_arp, which refreshes the filter. *)
Theorem arp_free_releases (p : ptr) (st : arp_state) (i : interface)
    (s : iarp_state) (w : world) :
  heap w !! p = Some st →
  ifaces w !! iface st = Some i →
  if_data_arp i = Some s →
  p ∈ arp_states s →
  ∃ w',
    arp_free (Some p) w = Ok w'
    ∧ timers w' = filter (λ t, t_arg t ≠ p) (timers w)
    ∧ heap w' = delete p (heap w)
    ∧ sessions (iface st) w' = filter (λ q, q ≠ p) (arp_states s)
    ∧ let freed := if free_cb st then [(now w, EvFreed p)] else [] in
      if decide (filter (λ q, q ≠ p) (arp_states s) = []) then
        ARP_STATE (iface st) w' = Ok None
        ∧ trace w' =
            trace w ++ freed
              ++ (if decide (fd s = -1) then []
                  else [(now w, EvEventDelete (fd s));
                        (now w, EvBpfClose (fd s))])
      else
        ARP_STATE (iface st) w' =
          Ok (Some {| fd := fd s;
                      arp_states := filter (λ q, q ≠ p) (arp_states s) |})
        ∧ trace w' =
            trace w ++ freed ++ [(now w, EvBpfFilter (iface st) (fd s))].
Proof.
  intros Hp Hi Hs Hin.
  destruct (arp_free_queued p st i s w Hp Hi Hs Hin)
    as (w' & H1 & H2 & H3 & H4 & _ & H5).
  by exists w'.
Qed.

(** ** arp_new *)

Lemma arp_new_session_inv (ifp : ifindex) (a : option Z) (w w1 : world)
    (p : ptr) :
  arp_new_session ifp a w = Ok (Some p, w1) →
  ∃ i s,
    ifaces w !! ifp = Some i ∧ if_data_arp i = Some s
    ∧ p = fresh (dom (heap w))
    ∧ heap w1 = <[p := new_state ifp a]> (heap w)
    ∧ ifaces w1 =
        alter (with_arp (Some {| fd := fd s;
                                 arp_states := arp_states s ++ [p] |}))
          ifp (ifaces w).
Proof.
  unfold arp_new_session. destruct (o_malloc _ _); [|done].
  unfold ARP_STATE, get_iface. wsimpl.
  destruct (ifaces w !! ifp) as [i|] eqn:Hi; [|done]. simpl.
  destruct (if_data_arp i) as [s|] eqn:Hs; [|done].
  intros [= <- <-]. exists i, s. by wsimpl.
Qed.

Lemma arp_find_in_snoc (l : list ptr) (ifp : ifindex) (a : Z)
    (w w1 : world) (p : ptr) (st : arp_state) :
  arp_find_in l ifp a w = Ok None →
  heap w !! p = None →
  heap w1 = <[p := st]> (heap w) →
  addr st = a → iface st = ifp →
  arp_find_in (l ++ [p]) ifp a w1 = Ok (Some p).
Proof.
  intros Hf Hp Hh Ha Hi. induction l as [|q rest IH]; simpl in *.
  - unfold deref. rewrite Hh, lookup_insert_eq. simpl.
    by rewrite decide_True.
  - unfold deref in *. destruct (heap w !! q) as [stq|] eqn:Hq; [|done].
    simpl in Hf. rewrite Hh, lookup_insert_ne by congruence.
    rewrite Hq. simpl. case_decide; [done|]. by apply IH.
Qed.

Lemma arp_find_in_found (l : list ptr) (ifp : ifindex) (a : Z) (w : world)
    (p : ptr) :
  arp_find_in l ifp a w = Ok (Some p) → p ∈ l.
Proof.
  induction l as [|q rest IH]; simpl; [done|].
  destruct (deref q w); [|done]. simpl.
  case_decide.
  - intros [= <-]. apply list_elem_of_here.
  - intros H'. apply list_elem_of_further. by apply IH.
Qed.

Lemma arp_new_found (ifp : ifindex) (a : Z) (w : world) (i : interface)
    (s : iarp_state) (q : ptr) :
  ifaces w !! ifp = Some i →
  if_data_arp i = Some s →
  arp_find_in (arp_states s) ifp a w = Ok (Some q) →
  arp_new ifp (Some a) w = Ok (Some q, w).
Proof.
  intros Hi Hs Hf. unfold arp_new, arp_find.
  rewrite !(ARP_STATE_Some _ _ i) by done. simpl. rewrite Hs. simpl.
  by rewrite Hf.
Qed.

(** C8: when arp_new(ifp, addr) has returned a session, a second
    arp_new(ifp, addr) returns that same session and changes nothing: no
    allocation is asked for, and the queue keeps its length, which is 1 if
    the interface had no session before the first call. *)
Theorem arp_new_idempotent (ifp : ifindex) (a : Z) (w w1 : world) (p : ptr) :
  arp_new ifp (Some a) w = Ok (Some p, w1) →
  arp_new ifp (Some a) w1 = Ok (Some p, w1)
  ∧ p ∈ sessions ifp w1
  ∧ (sessions ifp w = [] → sessions ifp w1 = [p]).
Proof.
  unfold arp_new at 1. unfold arp_find, ARP_STATE, get_iface.
  destruct (ifaces w !! ifp) as [i|] eqn:Hi; [|done]. simpl.
  destruct (if_data_arp i) as [s|] eqn:Hs.
  - destruct (arp_find_in (arp_states s) ifp a w) as [[q|]|] eqn:Hf;
      simpl; [|intros Hn|done].
    + intros [= <- <-]. split; [by apply (arp_new_found _ _ _ i s)|].
      unfold sessions. rewrite Hi, Hs.
      apply arp_find_in_found in Hf. split; [done|].
      intros E. rewrite E in Hf. by inversion Hf.
    + destruct (arp_new_session_inv _ _ _ _ _ Hn)
        as (i' & s' & Hi' & Hs' & Hp & Hh & Hifs).
      assert (i' = i) as -> by congruence.
      assert (s' = s) as -> by congruence.
      assert (heap w !! p = None) as Hfresh.
      { apply not_elem_of_dom. rewrite Hp. apply is_fresh. }
      split; [|split].
      * eapply arp_new_found.
        -- by rewrite Hifs, list_lookup_alter_eq, Hi.
        -- done.
        -- by apply (arp_find_in_snoc _ _ _ w _ _ (new_state ifp (Some a))).
      * unfold sessions. rewrite Hifs, list_lookup_alter_eq, Hi. simpl.
        set_solver.
      * unfold sessions. rewrite Hi, Hs. intros E.
        rewrite Hifs, list_lookup_alter_eq, Hi. simpl. by rewrite E.
  - destruct (o_malloc (env w) (tick w)); [|done]. intros Hn.
    destruct (arp_new_session_inv _ _ _ _ _ Hn)
      as (i' & s' & Hi' & Hs' & Hp & Hh & Hifs).
    wsimpl. rewrite list_lookup_alter_eq, Hi in Hi'. simpl in Hi'.
    injection Hi' as <-. simpl in Hs'. injection Hs' as <-.
    assert (ifaces w1 !! ifp
            = Some (with_arp (Some {| fd := -1; arp_states := [p] |}) i))
      as Hi1.
    { rewrite Hifs, !list_lookup_alter_eq, Hi. done. }
    split; [|split].
    + eapply arp_new_found; [exact Hi1|done|]. simpl.
      unfold deref. rewrite Hh, lookup_insert_eq. simpl.
      by rewrite decide_True.
    + unfold sessions. rewrite Hi1. simpl. set_solver.
    + unfold sessions. by rewrite Hi1.
Qed.

(** ** Well-formed worlds *)

Lemma sessions_out_of_range (ifp : ifindex) (w : world) :
  (length (ifaces w) ≤ ifp)%nat → sessions ifp w = [].
Proof.
  intros H. unfold sessions. by rewrite (lookup_ge_None_2 _ _ H).
Qed.

Lemma wf_nodup (w : world) (ifp : ifindex) : wf w → NoDup (sessions ifp w).
Proof.
  intros [Hq _]. destruct (decide (ifp < length (ifaces w))%nat) as [Hl|Hl].
  - rewrite Forall_forall in Hq. apply (Hq ifp). apply elem_of_seq. lia.
  - rewrite sessions_out_of_range by lia. constructor.
Qed.

Lemma wf_live (w : world) (ifp : ifindex) (p : ptr) :
  wf w → p ∈ sessions ifp w →
  ∃ st, heap w !! p = Some st ∧ iface st = ifp.
Proof.
  intros [Hq _] Hin.
  destruct (decide (ifp < length (ifaces w))%nat) as [Hl|Hl].
  - rewrite Forall_forall in Hq. destruct (Hq ifp) as [_ H2].
    { apply elem_of_seq. lia. }
    rewrite Forall_forall in H2. specialize (H2 p Hin).
    destruct (heap w !! p) as [st|]; [|done].
    exists st. split; [done|]. simpl in H2. congruence.
  - rewrite sessions_out_of_range in Hin by lia. by inversion Hin.
Qed.

Lemma wf_queued (w : world) (p : ptr) (st : arp_state) :
  wf w → heap w !! p = Some st → p ∈ sessions (iface st) w.
Proof. intros [_ H] Hp. by apply (map_Forall_lookup_1 _ _ _ _ H Hp). Qed.

Lemma wf_intro (w : world) :
  (∀ ifp, NoDup (sessions ifp w)) →
  (∀ ifp p, p ∈ sessions ifp w →
            ∃ st, heap w !! p = Some st ∧ iface st = ifp) →
  (∀ p st, heap w !! p = Some st → p ∈ sessions (iface st) w) →
  wf w.
Proof.
  intros H1 H2 H3. split.
  - apply Forall_forall. intros ifp _. split; [done|].
    apply Forall_forall. intros p Hp.
    destruct (H2 ifp p Hp) as (st & -> & <-). done.
  - apply map_Forall_lookup_2. exact H3.
Qed.

Lemma filter_all {A} (P : A → Prop) `{!∀ x, Decision (P x)} (l : list A) :
  (∀ x, x ∈ l → P x) → filter P l = l.
Proof.
  induction l as [|x l IH]; intros Hall; [done|].
  rewrite filter_cons_True by (apply Hall; left).
  f_equal. apply IH. intros y Hy. apply Hall. by right.
Qed.

Lemma conflicted_calls_app (t1 t2 : list (Z * event)) :
  conflicted_calls (t1 ++ t2) = conflicted_calls t1 ++ conflicted_calls t2.
Proof. apply omap_app. Qed.

(** arp_free of a live session of a well-formed world succeeds, and takes
    that session, and nothing else, off the heap and off the queues. *)
Lemma arp_free_wf (p : ptr) (w : world) :
  wf w → is_Some (heap w !! p) →
  ∃ w',
    arp_free (Some p) w = Ok w'
    ∧ wf w'
    ∧ heap w' = delete p (heap w)
    ∧ (∀ j, sessions j w' = filter (λ q, q ≠ p) (sessions j w))
    ∧ conflicted_calls (trace w') = conflicted_calls (trace w).
Proof.
  intros Hwf [st Hp].
  pose proof (wf_queued _ _ _ Hwf Hp) as Hq.
  unfold sessions in Hq.
  destruct (ifaces w !! iface st) as [i|] eqn:Hi; [|by inversion Hq].
  destruct (if_data_arp i) as [s|] eqn:Hs; [|by inversion Hq].
  destruct (arp_free_queued p st i s w Hp Hi Hs Hq)
    as (w' & Hfree & _ & Hheap & Hsess & Hother & Htrace).
  assert (∀ j, sessions j w' = filter (λ q, q ≠ p) (sessions j w)) as Hall.
  { intros j. destruct (decide (j = iface st)) as [->|Hj].
    - rewrite Hsess. unfold sessions. by rewrite Hi, Hs.
    - unfold sessions at 1. rewrite (Hother j Hj). fold (sessions j w).
      symmetry. apply filter_all. intros q Hqj ->.
      destruct (wf_live _ _ _ Hwf Hqj) as (st' & Hst' & Hif). congruence. }
  exists w'. split; [done|]. split; [|split; [done|split; [done|]]].
  - apply wf_intro.
    + intros j. rewrite Hall. apply NoDup_filter. by apply wf_nodup.
    + intros j q. rewrite Hall, list_elem_of_filter. intros [Hne Hqj].
      destruct (wf_live _ _ _ Hwf Hqj) as (st' & Hst' & Hif).
      exists st'. split; [|done]. rewrite Hheap.
      by rewrite lookup_delete_ne.
    + intros q st'. rewrite Hheap, lookup_delete_Some. intros [Hne Hst'].
      rewrite Hall, list_elem_of_filter. split; [done|].
      by apply wf_queued.
  - simpl in Htrace. destruct (decide (filter _ _ = [])).
    + destruct Htrace as [_ ->]. rewrite !conflicted_calls_app.
      destruct (free_cb st), (decide (fd s = -1)); simpl;
        by rewrite ?app_nil_r.
    + destruct Htrace as [_ ->]. rewrite !conflicted_calls_app.
      destruct (free_cb st); simpl; by rewrite ?app_nil_r.
Qed.

Lemma sessions_set_ARP_STATE (ifp j : ifindex) (c : option iarp_state)
    (w : world) :
  sessions j (set_ARP_STATE ifp c w)
  = if decide (j = ifp ∧ is_Some (ifaces w !! ifp))
    then match c with Some s => arp_states s | None => [] end
    else sessions j w.
Proof.
  unfold sessions. wsimpl. case_decide as Hj.
  - destruct Hj as [-> [i Hi]]. by rewrite list_lookup_alter_eq, Hi.
  - destruct (decide (j = ifp)) as [->|Hne].
    + rewrite list_lookup_alter_eq.
      destruct (ifaces w !! ifp) eqn:Hi; [|done].
      exfalso. apply Hj. eauto.
    + by rewrite list_lookup_alter_ne.
Qed.

(** arp_new_session on a well-formed world gives a well-formed world. *)
Lemma arp_new_session_wf (ifp : ifindex) (a : option Z) (w w' : world)
    (r : option ptr) :
  wf w → arp_new_session ifp a w = Ok (r, w') → wf w'.
Proof.
  intros Hwf. unfold arp_new_session.
  destruct (o_malloc (env w) (tick w)); [|by intros [= _ <-]].
  unfold ARP_STATE, get_iface. wsimpl.
  destruct (ifaces w !! ifp) as [i|] eqn:Hi; [|done]. simpl.
  destruct (if_data_arp i) as [s|] eqn:Hs; [|done].
  intros [= _ <-].
  set (p := fresh (dom (heap w))).
  assert (heap w !! p = None) as Hfresh.
  { apply not_elem_of_dom. apply is_fresh. }
  assert (sessions ifp w = arp_states s) as Hsess.
  { unfold sessions. by rewrite Hi, Hs. }
  assert (p ∉ sessions ifp w) as Hnew.
  { intros Hin. destruct (wf_live _ _ _ Hwf Hin) as (st & Hst & _).
    congruence. }
  assert (∀ j, sessions j
                 (log (EvBpfFilter ifp (fd s))
                    (set_ARP_STATE ifp
                       (Some {| fd := fd s;
                                arp_states := arp_states s ++ [p] |})
                       (set_heap (<[p := new_state ifp a]> (heap w))
                          (bump w))))
               = if decide (j = ifp) then sessions ifp w ++ [p]
                 else sessions j w) as Hall.
  { intros j.
    change (sessions j (log ?e ?x)) with (sessions j x).
    rewrite sessions_set_ARP_STATE. wsimpl.
    destruct (decide (j = ifp)) as [->|Hne].
    - rewrite decide_True by eauto. by rewrite Hsess.
    - by rewrite decide_False by tauto. }
  apply wf_intro.
  - intros j. rewrite Hall. case_decide; [|by apply wf_nodup].
    apply NoDup_app. split; [by apply wf_nodup|].
    split; [|apply NoDup_singleton].
    intros q Hq ->%list_elem_of_singleton. done.
  - intros j q. rewrite Hall. wsimpl. case_decide as Hj.
    + subst j. intros [Hq| ->%list_elem_of_singleton]%elem_of_app.
      * destruct (wf_live _ _ _ Hwf Hq) as (st & Hst & Hif).
        exists st. split; [|done]. rewrite lookup_insert_ne; [done|].
        intros <-. congruence.
      * exists (new_state ifp a). by rewrite lookup_insert_eq.
    + intros Hq. destruct (wf_live _ _ _ Hwf Hq) as (st & Hst & Hif).
      exists st. split; [|done]. rewrite lookup_insert_ne; [done|].
      intros <-. congruence.
  - intros q st. wsimpl. rewrite Hall.
    destruct (decide (q = p)) as [->|Hne].
    + rewrite lookup_insert_eq. intros [= <-]. simpl.
      rewrite decide_True by done. apply elem_of_app. right. by left.
    + rewrite lookup_insert_ne by done. intros Hst.
      pose proof (wf_queued _ _ _ Hwf Hst) as Hq.
      case_decide as Hj; [|done]. rewrite Hj in Hq.
      apply elem_of_app. by left.
Qed.

(** arp_new keeps worlds well-formed, whatever it returns. *)
Lemma arp_new_wf (ifp : ifindex) (a : option Z) (w w' : world)
    (r : option ptr) :
  wf w → arp_new ifp a w = Ok (r, w') → wf w'.
Proof.
  intros Hwf. unfold arp_new, ARP_STATE, get_iface.
  destruct (ifaces w !! ifp) as [i|] eqn:Hi; [|done]. simpl.
  destruct (if_data_arp i) as [s|] eqn:Hs.
  - assert (∀ x, (match x with
                  | Some p => Ok (Some p, w)
                  | None => arp_new_session ifp a w
                  end = Ok (r, w')) → wf w') as Hcase.
    { intros [p|]; [by intros [= _ <-]|by apply arp_new_session_wf]. }
    destruct a as [a'|]; [|by apply arp_new_session_wf].
    destruct (arp_find ifp a' w) as [x|]; [|done]. apply Hcase.
  - destruct (o_malloc (env w) (tick w)); [|by intros [= _ <-]].
    apply arp_new_session_wf.
    assert (∀ j, sessions j
                   (set_ARP_STATE ifp (Some {| fd := -1; arp_states := [] |})
                      (bump w)) = sessions j w) as Hall.
    { intros j. rewrite sessions_set_ARP_STATE. wsimpl.
      case_decide as Hj; [|done]. destruct Hj as [-> _].
      unfold sessions. by rewrite Hi, Hs. }
    apply wf_intro.
    + intros j. rewrite Hall. by apply wf_nodup.
    + intros j q Hq. rewrite Hall in Hq. exact (wf_live w j q Hwf Hq).
    + intros q st Hst. rewrite Hall. exact (wf_queued w q st Hwf Hst).
Qed.

(** ** The calls a conflicted callback makes back into arp_free *)

Lemma owner_frees_cons (q : ptr) (rest : list ptr) (w : world) :
  owner_frees (q :: rest) w = arp_free (Some q) w ≫= owner_frees rest.
Proof. reflexivity. Qed.

Lemma owner_frees_wf (l : list ptr) (w : world) :
  wf w → NoDup l → Forall (λ q, is_Some (heap w !! q)) l →
  ∃ w',
    owner_frees l w = Ok w'
    ∧ wf w'
    ∧ (∀ q, heap w' !! q = if decide (q ∈ l) then None else heap w !! q)
    ∧ (∀ j, sessions j w' = filter (λ q, q ∉ l) (sessions j w))
    ∧ conflicted_calls (trace w') = conflicted_calls (trace w).
Proof.
  revert w. induction l as [|x l IH]; intros w Hwf Hnd Hlive.
  - exists w. split; [done|]. split; [done|]. split; [|split; [|done]].
    + intros q. rewrite decide_False; [done|]. by intros H%elem_of_nil.
    + intros j. symmetry. apply filter_all. intros q _ H%elem_of_nil. done.
  - apply NoDup_cons in Hnd as [Hx Hnd].
    apply Forall_cons in Hlive as [Hlx Hlive].
    destruct (arp_free_wf x w Hwf Hlx)
      as (w1 & Hfree & Hwf1 & Hheap1 & Hsess1 & Htr1).
    destruct (IH w1) as (w' & Hrun & Hwf' & Hheap' & Hsess' & Htr');
      [done|done| |].
    { rewrite Forall_forall in Hlive |- *. intros q Hq.
      rewrite Hheap1, lookup_delete_ne; [by apply Hlive|].
      intros ->. done. }
    exists w'. rewrite owner_frees_cons, Hfree.
    split; [done|]. split; [done|]. split; [|split; [|congruence]].
    + intros q. rewrite Hheap', Hheap1.
      destruct (decide (q = x)) as [->|Hne].
      * rewrite lookup_delete_eq. rewrite (decide_True (P := x ∈ x :: l)).
        -- by case_decide.
        -- by left.
      * rewrite lookup_delete_ne by done.
        destruct (decide (q ∈ l)) as [Hq|Hq].
        -- rewrite decide_True; [done|]. by right.
        -- rewrite decide_False; [done|].
           intros [?|?]%elem_of_cons; done.
    + intros j. rewrite Hsess', Hsess1, list_filter_filter.
      apply list_filter_iff. intros q. rewrite elem_of_cons. tauto.
Qed.

(** ** The dispatch loop of arp_packet *)

Lemma frees_ext (h h' : gmap ptr arp_state) (arm : arp_msg) (p : ptr) :
  h !! p = h' !! p → frees h arm p = frees h' arm p.
Proof. intros H. unfold frees. by rewrite H. Qed.

Lemma called_ext (h h' : gmap ptr arp_state) (arm : arp_msg) (p : ptr) :
  h !! p = h' !! p → called h arm p = called h' arm p.
Proof. intros H. unfold called. by rewrite H. Qed.

(** One turn of the loop body on a live session. *)
Lemma conflict_body_spec (arm : arp_msg) (p : ptr) (w : world) :
  wf w → is_Some (heap w !! p) →
  NoDup (frees (heap w) arm p) →
  Forall (λ q, is_Some (heap w !! q)) (frees (heap w) arm p) →
  ∃ w1,
    conflict_body arm p w = Ok w1
    ∧ wf w1
    ∧ (∀ q, heap w1 !! q = if decide (q ∈ frees (heap w) arm p) then None
                           else heap w !! q)
    ∧ (∀ j, sessions j w1
            = filter (λ q, q ∉ frees (heap w) arm p) (sessions j w))
    ∧ conflicted_calls (trace w1)
      = conflicted_calls (trace w)
          ++ (if called (heap w) arm p then [p] else []).
Proof.
  intros Hwf [st Hp]. unfold frees, called, conflict_body, deref.
  rewrite Hp. simpl. unfold matches.
  assert (∀ w0 : world, ∀ q, heap w0 !! q
            = if decide (q ∈ @nil ptr) then None else heap w0 !! q) as Hnil.
  { intros w0 q. rewrite decide_False; [done|]. by intros ?%elem_of_nil. }
  assert (∀ w0 : world, ∀ j, sessions j w0
            = filter (λ q, q ∉ @nil ptr) (sessions j w0)) as Hfnil.
  { intros w0 j. symmetry. apply filter_all. by intros q _ ?%elem_of_nil. }
  destruct (decide (sip arm ≠ addr st ∧ tip arm ≠ addr st)) as [Hno|Hyes].
  - rewrite decide_False by tauto.
    rewrite ?bool_decide_eq_false_2 by tauto. simpl.
    intros _ _. exists w. rewrite app_nil_r. eauto.
  - assert (sip arm = addr st ∨ tip arm = addr st) as Hm.
    { destruct (decide (sip arm = addr st)); [by left|].
      destruct (decide (tip arm = addr st)); [by right|tauto]. }
    rewrite decide_True by done. rewrite bool_decide_eq_true_2 by done.
    destruct (conflicted_cb st) as [cb|]; simpl.
    + intros Hnd Hlive.
      destruct (owner_frees_wf (cb arm) (log (EvConflicted p arm) w))
        as (w1 & Hrun & Hwf1 & Hheap & Hsess & Htr); [done..|].
      exists w1.
      split; [done|]. split; [done|]. split; [done|]. split; [done|].
      rewrite Htr. simpl. by rewrite conflicted_calls_app.
    + intros _ _. exists w. rewrite app_nil_r. eauto.
Qed.

Lemma tailq_next_filter (P : ptr → Prop) `{!∀ x, Decision (P x)}
    (pre rest : list ptr) (p : ptr) :
  NoDup (pre ++ p :: rest) → P p →
  tailq_next p (filter P (pre ++ p :: rest)) = head (filter P rest).
Proof.
  intros Hnd Hp. induction pre as [|x pre IH]; simpl in *.
  - rewrite filter_cons_True by done. simpl. by rewrite decide_True.
  - apply NoDup_cons in Hnd as [Hx Hnd].
    assert (x ≠ p) as Hne.
    { intros ->. apply Hx. apply elem_of_app. right. by left. }
    rewrite filter_cons. case_decide; simpl.
    + rewrite decide_False by done. by apply IH.
    + by apply IH.
Qed.

Lemma head_filter_shrink (P Q : ptr → Prop) `{!∀ x, Decision (P x)}
    `{!∀ x, Decision (Q x)} (l : list ptr) :
  match head (filter P l) with Some n => Q n | None => True end →
  head (filter (λ x, Q x ∧ P x) l) = head (filter P l).
Proof.
  induction l as [|x l IH]; [done|].
  rewrite !filter_cons.
  destruct (decide (P x)) as [HP|HP]; simpl.
  - intros HQ. by rewrite decide_True.
  - intros HQ. rewrite decide_False by tauto. by apply IH.
Qed.

Lemma foreach_safe_done (fuel : nat) (ifp : ifindex)
    (body : ptr → world → res world) (w : world) :
  foreach_safe fuel ifp body None w = Ok w.
Proof. by destruct fuel. Qed.

Lemma foreach_safe_step (fuel : nat) (ifp : ifindex)
    (body : ptr → world → res world) (p : ptr) (w : world) :
  foreach_safe (S fuel) ifp body (Some p) w =
    deref p w ≫= λ _, body p w
      ≫= foreach_safe fuel ifp body (tailq_next p (sessions ifp w)).
Proof. reflexivity. Qed.

(** The loop, started on the part [suffix] of the queue that is still to be
    walked, with the sessions of [freed] already gone. *)
Lemma foreach_safe_conflicts (ifp : ifindex) (arm : arp_msg)
    (h0 : gmap ptr arp_state) (suffix : list ptr) :
  ∀ (pre freed : list ptr) (w : world) (fuel : nat),
  wf w →
  NoDup (pre ++ suffix) →
  sessions ifp w = filter (λ q, q ∉ freed) (pre ++ suffix) →
  (∀ q, heap w !! q = if decide (q ∈ freed) then None else h0 !! q) →
  tolerated h0 arm suffix freed →
  (length (filter (λ q, q ∉ freed) suffix) ≤ fuel)%nat →
  ∃ w',
    foreach_safe fuel ifp (conflict_body arm)
      (head (filter (λ q, q ∉ freed) suffix)) w = Ok w'
    ∧ conflicted_calls (trace w')
      = conflicted_calls (trace w) ++ dispatched h0 arm suffix freed.
Proof.
  induction suffix as [|p rest IH];
    intros pre freed w fuel Hwf Hnd Hsess Hheap Htol Hfuel.
  - exists w. rewrite foreach_safe_done. by rewrite app_nil_r.
  - simpl in Htol |- *. rewrite filter_cons in Hfuel |- *.
    destruct (decide (p ∈ freed)) as [Hin|Hnin].
    + rewrite decide_False in Hfuel |- * by tauto.
      apply (IH (pre ++ [p])); rewrite <- ?app_assoc; done.
    + rewrite decide_True in Hfuel |- * by done.
      destruct Htol as (Hnd' & Hlive' & Hnext & Htol).
      destruct fuel as [|fuel]; [simpl in Hfuel; lia|].
      assert (heap w !! p = h0 !! p) as Hp.
      { rewrite Hheap. by rewrite decide_False. }
      assert (is_Some (heap w !! p)) as Hsome.
      { destruct (wf_live w ifp p Hwf) as (st & -> & _); [|done].
        rewrite Hsess. apply list_elem_of_filter. split; [done|].
        apply elem_of_app. right. by left. }
      rewrite <- (frees_ext _ _ _ _ Hp) in *.
      rewrite <- (called_ext _ _ _ _ Hp).
      destruct (conflict_body_spec arm p w Hwf Hsome Hnd')
        as (w1 & Hbody & Hwf1 & Hheap1 & Hsess1 & Htr1).
      { rewrite Forall_forall in Hlive' |- *. intros q Hq.
        destruct (Hlive' q Hq) as [Hqf Hq0].
        rewrite Hheap. by rewrite decide_False. }
      rewrite head_cons, foreach_safe_step. unfold deref at 1.
      destruct Hsome as [st Hst]. rewrite Hst. simpl.
      rewrite Hbody. simpl.
      rewrite Hsess, (tailq_next_filter _ pre rest p Hnd Hnin).
      rewrite <- (head_filter_shrink (λ q, q ∉ freed)
                    (λ q, q ∉ frees (heap w) arm p)) by done.
      assert (∀ l : list ptr,
                filter (λ x, (x ∉ frees (heap w) arm p) ∧ x ∉ freed) l
                = filter (λ q, q ∉ frees (heap w) arm p ++ freed) l) as Hf.
      { intros l. apply list_filter_iff. intros q. rewrite elem_of_app.
        tauto. }
      rewrite Hf.
      destruct (IH (pre ++ [p]) (frees (heap w) arm p ++ freed) w1 fuel)
        as (w' & Hrun & Htr); rewrite <- ?app_assoc; try done.
      * rewrite Hsess1, Hsess, list_filter_filter. apply Hf.
      * intros q. rewrite Hheap1, Hheap.
        destruct (decide (q ∈ frees (heap w) arm p)) as [Hq|Hq].
        -- rewrite decide_True; [done|]. apply elem_of_app. by left.
        -- destruct (decide (q ∈ freed)) as [Hq'|Hq'].
           ++ rewrite decide_True; [done|]. apply elem_of_app. by right.
           ++ rewrite decide_False; [done|]. rewrite elem_of_app. tauto.
      * rewrite <- Hf, <- list_filter_filter.
        etrans; [apply length_filter|]. simpl in Hfuel. lia.
      * exists w'. split; [done|]. rewrite Htr, Htr1.
        by rewrite <- app_assoc.
Qed.

Lemma arp_conflicts_run (ifp : ifindex) (arm : arp_msg) (w : world)
    (i : interface) (s : iarp_state) :
  wf w →
  ifaces w !! ifp = Some i →
  if_data_arp i = Some s →
  tolerated (heap w) arm (arp_states s) [] →
  ∃ w',
    arp_conflicts ifp arm w = Ok w'
    ∧ conflicted_calls (trace w')
      = conflicted_calls (trace w)
          ++ dispatched (heap w) arm (arp_states s) [].
Proof.
  intros Hwf Hi Hs Htol. unfold arp_conflicts.
  rewrite (ARP_STATE_Some _ _ i) by done. simpl. rewrite Hs.
  assert (∀ l : list ptr, filter (λ q, q ∉ @nil ptr) l = l) as Hnil.
  { intros l. apply filter_all. by intros q _ ?%elem_of_nil. }
  assert (sessions ifp w = arp_states s) as Hsess.
  { unfold sessions. by rewrite Hi, Hs. }
  destruct (foreach_safe_conflicts ifp arm (heap w) (arp_states s) [] [] w
              (length (arp_states s))) as (w' & Hrun & Htr);
    simpl; rewrite ?Hnil; try done.
  { rewrite <- Hsess. by apply wf_nodup. }
  rewrite Hnil in Hrun. by exists w'.
Qed.

Lemma frees_called (h : gmap ptr arp_state) (arm : arp_msg) (p q : ptr) :
  q ∈ frees h arm p → called h arm p = true.
Proof.
  unfold frees, called. destruct (h !! p) as [st|]; [|by intros ?%elem_of_nil].
  case_decide; [|by intros ?%elem_of_nil].
  destruct (conflicted_cb st); [|by intros ?%elem_of_nil].
  intros _. rewrite bool_decide_eq_true_2 by done.
  by rewrite bool_decide_eq_true_2 by eauto.
Qed.

Lemma dispatched_sublist (h : gmap ptr arp_state) (arm : arp_msg)
    (l freed : list ptr) :
  dispatched h arm l freed `sublist_of` l.
Proof.
  revert freed. induction l as [|p rest IH]; intros freed; simpl; [done|].
  case_decide.
  - by apply sublist_cons.
  - destruct (called h arm p); simpl.
    + by apply sublist_skip.
    + by apply sublist_cons.
Qed.

Lemma dispatched_called (h : gmap ptr arp_state) (arm : arp_msg)
    (l freed : list ptr) (p : ptr) :
  p ∈ dispatched h arm l freed → p ∈ l ∧ called h arm p = true.
Proof.
  revert freed. induction l as [|x rest IH]; intros freed; simpl.
  { by intros ?%elem_of_nil. }
  case_decide.
  - intros [? ?]%IH. split; [by right|done].
  - destruct (called h arm x) eqn:Hc; simpl.
    + intros [->|[? ?]%IH]%elem_of_cons; [split; [by left|done]|].
      split; [by right|done].
    + intros [? ?]%IH. split; [by right|done].
Qed.

Lemma queued_before_cons (q p x : ptr) (rest : list ptr) :
  queued_before q p (x :: rest)
  ↔ (q = x ∧ p ∈ rest) ∨ queued_before q p rest.
Proof.
  split.
  - intros ([|y l1] & l2 & Heq & Hin); simplify_eq/=.
    + by left.
    + right. by exists l1, l2.
  - intros [[-> Hin]|(l1 & l2 & -> & Hin)].
    + by exists [], rest.
    + by exists (x :: l1), l2.
Qed.

Lemma queued_before_elem_of (q p : ptr) (l : list ptr) :
  queued_before q p l → q ∈ l ∧ p ∈ l.
Proof.
  intros (l1 & l2 & -> & Hin). rewrite !elem_of_app, !elem_of_cons. tauto.
Qed.

(** A session that is called was not freed by any callback called before
    its turn. *)
Lemma dispatched_turn_called (h : gmap ptr arp_state) (arm : arp_msg)
    (l : list ptr) :
  ∀ (freed : list ptr) (p : ptr),
  NoDup l →
  p ∈ dispatched h arm l freed →
  (p ∉ freed)
  ∧ ∀ q, q ∈ dispatched h arm l freed → queued_before q p l →
         p ∉ frees h arm q.
Proof.
  induction l as [|x rest IH]; intros freed p Hnd; simpl.
  { by intros ?%elem_of_nil. }
  apply NoDup_cons in Hnd as [Hx Hnd].
  destruct (decide (x ∈ freed)) as [Hxf|Hxf].
  - intros Hp. destruct (IH freed p Hnd Hp) as [Hpf Hq].
    split; [done|]. intros q Hqd [[-> _]|Hb]%queued_before_cons.
    + apply dispatched_called in Hqd as [? _]. done.
    + by apply Hq.
  - intros [Hp|Hp]%elem_of_app.
    + assert (p = x) as ->.
      { destruct (called h arm x); [|by apply elem_of_nil in Hp].
        by apply list_elem_of_singleton in Hp. }
      split; [done|]. intros q _ [[_ Hin]|Hb]%queued_before_cons; [done|].
      by apply queued_before_elem_of in Hb as [_ ?].
    + destruct (IH _ p Hnd Hp) as [Hpf Hq].
      rewrite elem_of_app in Hpf.
      split; [tauto|].
      intros q Hqd [[-> _]|Hb]%queued_before_cons; [tauto|].
      apply Hq; [|done].
      apply elem_of_app in Hqd as [Hqx|?]; [|done].
      assert (q = x) as ->.
      { destruct (called h arm x); [|by apply elem_of_nil in Hqx].
        by apply list_elem_of_singleton in Hqx. }
      by apply queued_before_elem_of in Hb as [? _].
Qed.

(** A matching session that is not called was freed by a callback called
    before its turn. *)
Lemma dispatched_turn_skipped (h : gmap ptr arp_state) (arm : arp_msg)
    (l : list ptr) :
  ∀ (freed : list ptr) (p : ptr),
  p ∈ l → called h arm p = true →
  p ∉ dispatched h arm l freed →
  p ∈ freed
  ∨ ∃ q, q ∈ dispatched h arm l freed
         ∧ queued_before q p l
         ∧ p ∈ frees h arm q.
Proof.
  induction l as [|x rest IH]; intros freed p Hin Hc; simpl.
  { by apply elem_of_nil in Hin. }
  apply elem_of_cons in Hin as [->|Hin].
  - destruct (decide (x ∈ freed)) as [Hxf|Hxf]; [by left|].
    rewrite Hc. intros Hn. exfalso. apply Hn. by left.
  - destruct (decide (x ∈ freed)) as [Hxf|Hxf].
    + intros Hn. destruct (IH freed p Hin Hc Hn) as [?|(q & Hq & Hb & Hf)].
      * by left.
      * right. exists q. split; [done|]. split; [|done].
        apply queued_before_cons. by right.
    + intros Hn. rewrite elem_of_app in Hn.
      destruct (IH (frees h arm x ++ freed) p Hin Hc) as [Hf|(q & Hq & Hb & Hf)].
      * tauto.
      * apply elem_of_app in Hf as [Hf|Hf]; [|by left].
        right. exists x. split; [|split; [|done]].
        -- rewrite (frees_called _ _ _ _ Hf). by left.
        -- apply queued_before_cons. by left.
      * right. exists q. split; [|split; [|done]].
        -- apply elem_of_app. by right.
        -- apply queued_before_cons. by right.
Qed.

Lemma own_frees_tolerated (h : gmap ptr arp_state) (arm : arp_msg)
    (l freed : list ptr) :
  NoDup l →
  (∀ p, p ∈ l → is_Some (h !! p)) →
  (∀ p, p ∈ l → frees h arm p = [] ∨ frees h arm p = [p]) →
  (∀ q, q ∈ freed → q ∉ l) →
  tolerated h arm l freed
  ∧ dispatched h arm l freed = filter (λ p, called h arm p) l.
Proof.
  revert freed. induction l as [|p rest IH]; intros freed Hnd Hlive Hown Hfr.
  { done. }
  apply NoDup_cons in Hnd as [Hp Hnd]. simpl.
  assert (p ∉ freed) as Hpf.
  { intros Hin. apply (Hfr p Hin). by left. }
  rewrite !decide_False by done.
  destruct (IH (frees h arm p ++ freed)) as [Htol Hdis]; [done|..].
  { intros q Hq. apply Hlive. by right. }
  { intros q Hq. apply Hown. by right. }
  { intros q [Hq|Hq]%elem_of_app.
    - destruct (Hown p) as [E|E]; [by left|..]; rewrite E in Hq.
      + by apply elem_of_nil in Hq.
      + apply list_elem_of_singleton in Hq as ->. done.
    - intros Hr. apply (Hfr q Hq). by right. }
  split.
  - split; [|split; [|split; [|done]]].
    + destruct (Hown p) as [->| ->]; [by left|constructor|].
      apply NoDup_singleton.
    + destruct (Hown p) as [->| ->]; [by left|constructor|].
      constructor; [|constructor]. split; [done|]. apply Hlive. by left.
    + destruct (head (filter (λ q, q ∉ freed) rest)) as [n|] eqn:Hn; [|done].
      apply head_Some_elem_of, list_elem_of_filter in Hn as [_ Hn].
      destruct (Hown p) as [->| ->]; [by left|by intros ?%elem_of_nil|].
      intros ->%list_elem_of_singleton. done.
  - rewrite Hdis, filter_cons.
    by destruct (called h arm p).
Qed.

Lemma arp_packet_message (ifp : ifindex) (arm0 arm : arp_msg)
    (data : list byte) (w : world) :
  arp_decode (ifaces w) arm0 data = Ok (Message arm) →
  arp_packet ifp arm0 data w = arp_conflicts ifp arm w.
Proof. intros H. unfold arp_packet. by rewrite H. Qed.

Lemma called_spec (h : gmap ptr arp_state) (arm : arp_msg) (p : ptr) :
  called h arm p = true
  ↔ ∃ st, h !! p = Some st
          ∧ (sip arm = addr st ∨ tip arm = addr st)
          ∧ is_Some (conflicted_cb st).
Proof.
  unfold called, matches. destruct (h !! p) as [st|]; simpl.
  - rewrite andb_true_iff, !bool_decide_eq_true. split.
    + intros [? ?]. by exists st.
    + intros (st' & [= <-] & ? & ?). done.
  - split; [done|]. by intros (st' & ? & _).
Qed.

(** C6: on a well-formed world whose conflicted callbacks free at most the
    session they are called for, running the conflicts of a message on an
    interface calls conflicted_cb once for each session of that interface's
    queue that has a callback and whose address is the sender IP or the
    target IP of the message, in queue order, and for no other session;
    the opcode of the message plays no part. *)
Theorem arp_conflicts_calls_matching (ifp : ifindex) (arm : arp_msg)
    (w : world) (i : interface) (s : iarp_state) :
  wf w →
  ifaces w !! ifp = Some i →
  if_data_arp i = Some s →
  (∀ p, p ∈ arp_states s →
        frees (heap w) arm p = [] ∨ frees (heap w) arm p = [p]) →
  ∃ w' calls,
    arp_conflicts ifp arm w = Ok w'
    ∧ conflicted_calls (trace w') = conflicted_calls (trace w) ++ calls
    ∧ calls = filter (λ p, called (heap w) arm p) (arp_states s)
    ∧ NoDup calls
    ∧ ∀ p, p ∈ calls
           ↔ p ∈ arp_states s
             ∧ ∃ st, heap w !! p = Some st
                     ∧ (sip arm = addr st ∨ tip arm = addr st)
                     ∧ is_Some (conflicted_cb st).
Proof.
  intros Hwf Hi Hs Hown.
  assert (sessions ifp w = arp_states s) as Hsess.
  { unfold sessions. by rewrite Hi, Hs. }
  assert (NoDup (arp_states s)) as Hnd.
  { rewrite <- Hsess. by apply wf_nodup. }
  destruct (own_frees_tolerated (heap w) arm (arp_states s) [])
    as [Htol Hdis]; try done.
  { intros p Hp. rewrite <- Hsess in Hp.
    destruct (wf_live _ _ _ Hwf Hp) as (st & -> & _). done. }
  { by intros q ?%elem_of_nil. }
  destruct (arp_conflicts_run ifp arm w i s) as (w' & Hrun & Htr); try done.
  exists w', (filter (λ p, called (heap w) arm p) (arp_states s)).
  split; [done|]. split; [by rewrite Htr, Hdis|]. split; [done|].
  split; [by apply NoDup_filter|].
  intros p. rewrite list_elem_of_filter, <- called_spec.
  rewrite Is_true_true. tauto.
Qed.

(** C4, as the code has it: on a well-formed world, when every conflicted
    callback frees live sessions only, none twice, and never the session
    queued next after the one it is called for (its own session and any
    other it may free), the dispatch completes without touching a freed
    session; the calls are made in queue order and no session is called
    twice; only queued sessions that match and have a callback are called;
    and each of those is called exactly when no callback called before its
    turn has freed it: a session freed only by a callback that runs after
    its turn is called all the same, and a session that is skipped was
    freed by a callback called for a session queued before it. *)
Theorem arp_conflicts_survives_frees (ifp : ifindex) (arm : arp_msg)
    (w : world) (i : interface) (s : iarp_state) :
  wf w →
  ifaces w !! ifp = Some i →
  if_data_arp i = Some s →
  tolerated (heap w) arm (arp_states s) [] →
  ∃ w' calls,
    arp_conflicts ifp arm w = Ok w'
    ∧ conflicted_calls (trace w') = conflicted_calls (trace w) ++ calls
    ∧ NoDup calls
    ∧ calls `sublist_of` arp_states s
    ∧ (∀ p, p ∈ calls → p ∈ arp_states s ∧ called (heap w) arm p = true)
    ∧ (∀ p, p ∈ arp_states s → called (heap w) arm p = true →
            (p ∈ calls
             ∧ ∀ q, q ∈ calls → queued_before q p (arp_states s) →
                    p ∉ frees (heap w) arm q)
            ∨ ((p ∉ calls)
               ∧ ∃ q, q ∈ calls
                      ∧ queued_before q p (arp_states s)
                      ∧ p ∈ frees (heap w) arm q)).
Proof.
  intros Hwf Hi Hs Htol.
  destruct (arp_conflicts_run ifp arm w i s) as (w' & Hrun & Htr); try done.
  assert (NoDup (arp_states s)) as Hnd.
  { replace (arp_states s) with (sessions ifp w).
    - by apply wf_nodup.
    - unfold sessions. by rewrite Hi, Hs. }
  exists w', (dispatched (heap w) arm (arp_states s) []).
  split; [done|]. split; [done|]. split; [|split; [|split]].
  - apply (sublist_NoDup _ (arp_states s)); [done|apply dispatched_sublist].
  - apply dispatched_sublist.
  - intros p. apply dispatched_called.
  - intros p Hp Hc.
    destruct (decide (p ∈ dispatched (heap w) arm (arp_states s) []))
      as [Hin|Hout].
    + left. split; [done|].
      by destruct (dispatched_turn_called (heap w) arm (arp_states s) [] p
                     Hnd Hin).
    + right. split; [done|].
      destruct (dispatched_turn_skipped (heap w) arm (arp_states s) [] p
                  Hp Hc Hout) as [?%elem_of_nil|?]; done.
Qed.

(** ** arp_request *)

Lemma arp_frame_fits (i : interface) (sip tip : Z) :
  (hwlen i ≤ HWADDR_LEN)%nat →
  arp_frame i sip tip = Some (request_frame i sip tip).
Proof.
  intros H. unfold arp_frame, request_frame, CHECK, ARP_LEN.
  unfold sizeof_arphdr, sizeof_in_addr, hwlen in *.
  repeat (rewrite decide_False;
          [|rewrite ?length_app, ?length_replicate; simpl; lia]).
  simpl. by rewrite <- !app_assoc.
Qed.

Lemma arp_request_sends (ifp : ifindex) (sip tip : Z) (w : world)
    (i : interface) (s : iarp_state) :
  ifaces w !! ifp = Some i →
  if_data_arp i = Some s →
  (hwlen i ≤ HWADDR_LEN)%nat →
  arp_request ifp sip tip w =
    Ok (o_bpf_send (env w) (tick w),
        log (EvBpfSend ifp (fd s) ETHERTYPE_ARP (request_frame i sip tip))
          (bump w)).
Proof.
  intros Hi Hs Hlen. unfold arp_request.
  rewrite (get_iface_Some _ _ i) by done. simpl.
  by rewrite arp_frame_fits, Hs.
Qed.

Lemma byte_val_of_Z (z : Z) : Z.of_nat (byte_val (byte_of_Z z)) = z mod 256.
Proof.
  unfold byte_val, byte_of_Z.
  pose proof (Z.mod_pos_bound z 256 ltac:(lia)) as Hb.
  destruct (Byte.of_N (Z.to_N (z mod 256))) as [b|] eqn:E.
  - apply Byte.to_of_N in E. rewrite E. lia.
  - apply Byte.of_N_None_iff in E. lia.
Qed.

Lemma be_val_be16 (v : Z) : be_val (be16 v) = v mod 65536.
Proof.
  unfold be_val, be16. simpl. rewrite !byte_val_of_Z.
  rewrite (Z.mod_eq v 256), (Z.mod_eq (v / 256) 256) by lia.
  rewrite (Z.mod_eq v 65536) by lia.
  rewrite Z.div_div by lia. change (256 * 256) with 65536. lia.
Qed.

Lemma peek_app_middle (a b c : list byte) (n m : nat) :
  n = length a → m = length b → peek (a ++ b ++ c) n m = Ok b.
Proof.
  intros -> ->. unfold peek.
  rewrite decide_True by (rewrite !length_app; lia).
  by rewrite drop_app_length, take_app_length.
Qed.

(** The frame of arp_request as arp_packet reads it back: an IPv4 ARP
    request whose header carries the hardware length of the interface,
    followed by the hardware address of the interface, the sender IP, a
    zero target hardware address and the target IP. *)
Lemma request_frame_layout (i : interface) (sip tip : Z) :
  (hwlen i < 256)%nat →
  let f := request_frame i sip tip in
  read_arphdr f
  = Ok {| ar_hrd := family i mod 65536; ar_pro := ETHERTYPE_IP;
          ar_hln := hwlen i; ar_pln := sizeof_in_addr;
          ar_op := ARPOP_REQUEST |}
  ∧ peek f sizeof_arphdr (hwlen i) = Ok (hwaddr i)
  ∧ peek f (sizeof_arphdr + hwlen i) sizeof_in_addr = Ok (in_addr_bytes sip)
  ∧ peek f (sizeof_arphdr + hwlen i + sizeof_in_addr) (hwlen i)
    = Ok (replicate (hwlen i) x00)
  ∧ peek f (sizeof_arphdr + hwlen i + sizeof_in_addr + hwlen i)
      sizeof_in_addr = Ok (in_addr_bytes tip).
Proof.
  intros Hlen f. subst f. unfold request_frame, sizeof_arphdr, sizeof_in_addr.
  set (hl := hwlen i) in *.
  assert (length (hwaddr i) = hl) as Hhw by done.
  split.
  { unfold read_arphdr, peek, arphdr_bytes, sizeof_arphdr. simpl.
    change [byte_of_Z (family i `div` 256); byte_of_Z (family i)]
      with (be16 (family i)).
    rewrite be_val_be16.
    assert (byte_val (byte_of_Z (Z.of_nat hl)) = hl) as ->.
    { apply Nat2Z.inj. rewrite byte_val_of_Z. rewrite Z.mod_small; lia. }
    reflexivity. }
  set (hdr := arphdr_bytes _).
  assert (length hdr = 8%nat) as Hhdr by done.
  clearbody hdr.
  split; [by apply peek_app_middle|].
  split.
  { rewrite (app_assoc hdr). apply peek_app_middle; [|done].
    rewrite length_app. lia. }
  split.
  { rewrite (app_assoc hdr), (app_assoc (hdr ++ _)).
    apply peek_app_middle; [|by rewrite length_replicate].
    rewrite !length_app. simpl. lia. }
  rewrite (app_assoc hdr), (app_assoc (hdr ++ _)), (app_assoc ((hdr ++ _) ++ _)).
  rewrite <- (app_nil_r (in_addr_bytes tip)) at 1.
  apply peek_app_middle; [|done].
  rewrite !length_app, length_replicate. simpl. lia.
Qed.

(** ** Probing and announcing, one call at a time *)

Lemma arp_open_opens (ifp : ifindex) (w : world) (i : interface)
    (s : iarp_state) :
  ifaces w !! ifp = Some i →
  if_data_arp i = Some s →
  opened_fd s w ≠ -1 →
  ∃ w1,
    arp_open ifp w = Ok (opened_fd s w, w1)
    ∧ ifaces w1 !! ifp
      = Some (with_arp (Some {| fd := opened_fd s w;
                                arp_states := arp_states s |}) i)
    ∧ heap w1 = heap w ∧ timers w1 = timers w ∧ now w1 = now w
    ∧ trace w1 = trace w ++ opening ifp s w.
Proof.
  intros Hi Hs Hfd. unfold arp_open, opening, opened_fd in *.
  rewrite (ARP_STATE_Some _ _ i) by done. simpl. rewrite Hs.
  case_decide as Hc.
  - rewrite decide_False by done. eexists. split; [reflexivity|].
    wsimpl. rewrite list_lookup_alter_eq, Hi. simpl.
    by rewrite <- app_assoc.
  - eexists. split; [reflexivity|]. rewrite app_nil_r.
    destruct i as [fam hw ctx], s as [d l]. simpl in *. by subst.
Qed.

Lemma arp_probe1_spec (p : ptr) (w : world) (st : arp_state)
    (i : interface) (s : iarp_state) :
  heap w !! p = Some st →
  ifaces w !! iface st = Some i →
  if_data_arp i = Some s →
  (hwlen i ≤ HWADDR_LEN)%nat →
  ∃ w' d,
    arp_probe1 p w = Ok w'
    ∧ heap w' = <[p := with_probes (probes st + 1) st]> (heap w)
    ∧ ifaces w' = ifaces w
    ∧ now w' = now w
    ∧ trace w' = trace w
        ++ [(now w, EvBpfSend (iface st) (fd s) ETHERTYPE_ARP
                      (request_frame i INADDR_ANY (addr st)))]
    ∧ timers w' = timers w
        ++ [{| t_when := now w + d;
               t_handler := if decide (probes st + 1 < PROBE_NUM)
                            then H_arp_probe1 else H_arp_probed;
               t_arg := p |}]
    ∧ if decide (probes st + 1 < PROBE_NUM)
      then PROBE_MIN * NSEC_PER_SEC ≤ d < PROBE_MAX * NSEC_PER_SEC
      else d = ANNOUNCE_WAIT * NSEC_PER_SEC.
Proof.
  intros Hp Hi Hs Hlen. unfold arp_probe1.
  rewrite (deref_Some _ _ st) by done. simpl.
  rewrite (get_iface_Some _ _ i) by done. simpl.
  case_decide as Hn.
  - rewrite (arp_request_sends _ _ _ _ i s) by done. simpl.
    eexists _, _. split; [reflexivity|]. wsimpl.
    do 4 (split; [done|]).
    split; [rewrite <- Z.add_assoc; reflexivity|].
    unfold timespecnorm, arc4random_uniform, PROBE_MIN, PROBE_MAX,
      NSEC_PER_SEC. simpl fst. simpl snd. wsimpl.
    pose proof (Z.mod_pos_bound (o_random (env w) (tick w)) 1000000000).
    change ((2 - 1) * 1000000000) with 1000000000.
    rewrite Zmod_mod. rewrite (Z.div_small (_ mod _)) by lia. lia.
  - rewrite (arp_request_sends _ _ _ _ i s) by done. simpl.
    eexists _, _. split; [reflexivity|]. wsimpl.
    do 4 (split; [done|]).
    split; [rewrite <- Z.add_assoc; reflexivity|].
    simpl. lia.
Qed.

Lemma arp_announce1_spec (p : ptr) (w : world) (st : arp_state)
    (i : interface) (s : iarp_state) :
  heap w !! p = Some st →
  ifaces w !! iface st = Some i →
  if_data_arp i = Some s →
  (hwlen i ≤ HWADDR_LEN)%nat →
  ∃ w',
    arp_announce1 p w = Ok w'
    ∧ heap w' = <[p := with_claims (claims st + 1) st]> (heap w)
    ∧ ifaces w' = ifaces w
    ∧ now w' = now w
    ∧ trace w' = trace w
        ++ [(now w, EvBpfSend (iface st) (fd s) ETHERTYPE_ARP
                      (request_frame i (addr st) (addr st)))]
    ∧ timers w' = timers w
        ++ [{| t_when := now w + ANNOUNCE_WAIT * NSEC_PER_SEC;
               t_handler := if decide (claims st + 1 < ANNOUNCE_NUM)
                            then H_arp_announce1 else H_arp_announced;
               t_arg := p |}].
Proof.
  intros Hp Hi Hs Hlen. unfold arp_announce1.
  rewrite (deref_Some _ _ st) by done. simpl.
  rewrite (arp_request_sends _ _ _ _ i s) by done. simpl.
  eexists. split; [reflexivity|]. wsimpl.
  repeat split; try done. simpl. by rewrite Z.add_0_r.
Qed.

Lemma eloop_step_single (t : timeout) (w : world) :
  timers w = [t] →
  eloop_step w
  = run_handler t (set_now (t_when t) (set_timers [] w)) ≫= λ w1, Ok (Some w1).
Proof. intros H. unfold eloop_step. by rewrite H. Qed.

Lemma eloop_step_idle (w : world) : timers w = [] → eloop_step w = Ok None.
Proof. intros H. unfold eloop_step. by rewrite H. Qed.

Lemma eloop_run_step (fuel : nat) (w : world) :
  eloop_run (S fuel) w
  = eloop_step w ≫= λ r, match r with
                         | None => Ok w
                         | Some w1 => eloop_run fuel w1
                         end.
Proof. reflexivity. Qed.

(** A due arp_probe1 timer, alone in the queue, fires. *)
Lemma fire_arp_probe1 (w : world) (t : Z) (p : ptr) (st : arp_state)
    (i : interface) (s : iarp_state) :
  timers w = [{| t_when := t; t_handler := H_arp_probe1; t_arg := p |}] →
  heap w !! p = Some st →
  ifaces w !! iface st = Some i →
  if_data_arp i = Some s →
  (hwlen i ≤ HWADDR_LEN)%nat →
  ∃ w' d,
    eloop_step w = Ok (Some w')
    ∧ heap w' = <[p := with_probes (probes st + 1) st]> (heap w)
    ∧ ifaces w' = ifaces w
    ∧ now w' = t
    ∧ trace w' = trace w
        ++ [(t, EvBpfSend (iface st) (fd s) ETHERTYPE_ARP
                  (request_frame i INADDR_ANY (addr st)))]
    ∧ timers w'
      = [{| t_when := t + d;
            t_handler := if decide (probes st + 1 < PROBE_NUM)
                         then H_arp_probe1 else H_arp_probed;
            t_arg := p |}]
    ∧ if decide (probes st + 1 < PROBE_NUM)
      then PROBE_MIN * NSEC_PER_SEC ≤ d < PROBE_MAX * NSEC_PER_SEC
      else d = ANNOUNCE_WAIT * NSEC_PER_SEC.
Proof.
  intros Ht Hp Hi Hs Hlen.
  rewrite (eloop_step_single _ _ Ht). unfold run_handler. simpl.
  destruct (arp_probe1_spec p (set_now t (set_timers [] w)) st i s)
    as (w' & d & Hrun & H1 & H2 & H3 & H4 & H5 & H6); try done.
  exists w', d. rewrite Hrun. by wsimpl.
Qed.

(** Probing for a session whose owner has set a probed callback, on an
    interface whose frame fits the buffer and whose transport opens, with
    no other timer pending: arp_probe sends the first probe at once; the event loop then
    delivers two more probes, each [PROBE_MIN, PROBE_MAX) seconds after the
    one before, which makes PROBE_NUM = 3 sends; every probe is an ARP
    request with sender IP 0.0.0.0 and the address of the session as
    target IP; probed_cb is called once, ANNOUNCE_WAIT seconds after the
    third send, and no timer is left.  The probe counter, whatever it was,
    ends at PROBE_NUM. *)
Theorem arp_probe_three_probes_then_probed (p : ptr) (w : world)
    (st : arp_state) (i : interface) (s : iarp_state) :
  heap w !! p = Some st →
  ifaces w !! iface st = Some i →
  if_data_arp i = Some s →
  (hwlen i ≤ HWADDR_LEN)%nat →
  opened_fd s w ≠ -1 →
  probed_cb st = true →
  timers w = [] →
  ∃ w0 w' d1 d2,
    arp_probe p w = Ok w0
    ∧ eloop_run 4 w0 = Ok w'
    ∧ PROBE_MIN * NSEC_PER_SEC ≤ d1 < PROBE_MAX * NSEC_PER_SEC
    ∧ PROBE_MIN * NSEC_PER_SEC ≤ d2 < PROBE_MAX * NSEC_PER_SEC
    ∧ (let probe := EvBpfSend (iface st) (opened_fd s w) ETHERTYPE_ARP
                      (request_frame i INADDR_ANY (addr st)) in
       trace w0 = trace w ++ opening (iface st) s w
                    ++ [(now w, EvBpfFilter (iface st) (opened_fd s w));
                        (now w, probe)]
       ∧ trace w' = trace w0
                      ++ [(now w + d1, probe);
                          (now w + d1 + d2, probe);
                          (now w + d1 + d2 + ANNOUNCE_WAIT * NSEC_PER_SEC,
                           EvProbed p)])
    ∧ timers w' = []
    ∧ probes <$> heap w' !! p = Some PROBE_NUM.
Proof.
  intros Hp Hi Hs Hlen Hfd Hcb Ht.
  destruct (arp_open_opens (iface st) w i s Hi Hs Hfd)
    as (w1 & Hopen & Hi1 & Hh1 & Ht1 & Hn1 & Htr1).
  set (s1 := {| fd := opened_fd s w; arp_states := arp_states s |}) in *.
  set (i1 := with_arp (Some s1) i) in *.
  set (w2 := log (EvBpfFilter (iface st) (fd s1)) w1).
  assert (∀ a b, request_frame i1 a b = request_frame i a b) as Hfr by done.
  destruct (arp_probe1_spec p
              (set_heap (<[p := with_probes 0 st]> (heap w2)) w2)
              (with_probes 0 st) i1 s1)
    as (w0 & d0 & Hrun0 & Hh0 & Hi0 & Hn0 & Htr0 & Ht0 & Hd0); try done.
  { wsimpl. by rewrite lookup_insert_eq. }
  simpl in Hh0, Hi0, Hn0, Htr0, Ht0, Hd0.
  rewrite Ht1, Ht, Hn1 in Ht0. simpl in Ht0.
  rewrite Hn1, Htr1, Hfr, <- !app_assoc in Htr0. simpl in Htr0.
  (* second probe *)
  destruct (fire_arp_probe1 w0 (now w + d0) p (with_probes (0 + 1) st) i1 s1)
    as (wa & d1 & Hrun1 & Hha & Hia & Hna & Htra & Hta & Hd1); try done.
  { by rewrite Hh0, lookup_insert_eq. }
  { by rewrite Hi0. }
  simpl in Hha, Htra, Hta, Hd1. rewrite Hfr in Htra.
  (* third probe *)
  destruct (fire_arp_probe1 wa (now w + d0 + d1) p
              (with_probes (0 + 1 + 1) st) i1 s1)
    as (wb & d2 & Hrun2 & Hhb & Hib & Hnb & Htrb & Htb & Hd2); try done.
  { by rewrite Hha, lookup_insert_eq. }
  { by rewrite Hia, Hi0. }
  simpl in Hhb, Htrb, Htb, Hd2. rewrite Hfr in Htrb.
  exists w0, (log (EvProbed p) (set_now (now w + d0 + d1 + d2)
                                  (set_timers [] wb))), d0, d1.
  split.
  { unfold arp_probe. rewrite (deref_Some _ _ st) by done. simpl.
    rewrite Hopen. simpl. rewrite decide_False by done.
    rewrite (ARP_STATE_Some _ _ i1) by done. simpl. exact Hrun0. }
  split.
  { rewrite eloop_run_step, Hrun1. cbn [mbind res_bind].
    rewrite eloop_run_step, Hrun2. cbn [mbind res_bind].
    rewrite eloop_run_step, (eloop_step_single _ _ Htb).
    unfold run_handler, arp_probed. cbn [t_handler t_arg t_when].
    rewrite (deref_Some _ _ (with_probes (0 + 1 + 1 + 1) st))
      by (wsimpl; by rewrite Hhb, lookup_insert_eq).
    cbn [mbind res_bind probed_cb with_probes]. rewrite Hcb.
    cbn [mbind res_bind].
    by rewrite eloop_run_step, eloop_step_idle. }
  split; [done|]. split; [done|].
  wsimpl. rewrite Hhb, lookup_insert_eq, Htrb, Htra, <- !app_assoc.
  subst d2. by simpl.
Qed.


(** A due arp_announce1 timer, alone in the queue, fires. *)
Lemma fire_arp_announce1 (w : world) (t : Z) (p : ptr) (st : arp_state)
    (i : interface) (s : iarp_state) :
  timers w = [{| t_when := t; t_handler := H_arp_announce1; t_arg := p |}] →
  heap w !! p = Some st →
  ifaces w !! iface st = Some i →
  if_data_arp i = Some s →
  (hwlen i ≤ HWADDR_LEN)%nat →
  ∃ w',
    eloop_step w = Ok (Some w')
    ∧ heap w' = <[p := with_claims (claims st + 1) st]> (heap w)
    ∧ ifaces w' = ifaces w
    ∧ now w' = t
    ∧ trace w' = trace w
        ++ [(t, EvBpfSend (iface st) (fd s) ETHERTYPE_ARP
                  (request_frame i (addr st) (addr st)))]
    ∧ timers w'
      = [{| t_when := t + ANNOUNCE_WAIT * NSEC_PER_SEC;
            t_handler := if decide (claims st + 1 < ANNOUNCE_NUM)
                         then H_arp_announce1 else H_arp_announced;
            t_arg := p |}].
Proof.
  intros Ht Hp Hi Hs Hlen.
  rewrite (eloop_step_single _ _ Ht). unfold run_handler. simpl.
  destruct (arp_announce1_spec p (set_now t (set_timers [] w)) st i s)
    as (w' & Hrun & H1 & H2 & H3 & H4 & H5); try done.
  exists w'. rewrite Hrun. by wsimpl.
Qed.

(** C3: for a queued session on an interface whose frame fits the buffer
    and whose transport opens, with no other timer pending: arp_announce
    sends the first announcement at once and the event loop delivers the
    second ANNOUNCE_WAIT seconds later, which makes ANNOUNCE_NUM = 2 sends;
    each is an ARP request whose sender IP and target IP are the address
    of the session; announced_cb, when there is one, is called once, after
    the second send; afterwards no timer is left, the queue of the
    interface is as it was, with the session on it, and the session is
    live with its address and callbacks, its counter at ANNOUNCE_NUM. *)
Theorem arp_announce_two_announcements (p : ptr) (w : world)
    (st : arp_state) (i : interface) (s : iarp_state) :
  heap w !! p = Some st →
  ifaces w !! iface st = Some i →
  if_data_arp i = Some s →
  p ∈ arp_states s →
  (hwlen i ≤ HWADDR_LEN)%nat →
  opened_fd s w ≠ -1 →
  timers w = [] →
  ∃ w0 w',
    arp_announce p w = Ok w0
    ∧ eloop_run 3 w0 = Ok w'
    ∧ (let ann := EvBpfSend (iface st) (opened_fd s w) ETHERTYPE_ARP
                    (request_frame i (addr st) (addr st)) in
       let wait := ANNOUNCE_WAIT * NSEC_PER_SEC in
       trace w0 = trace w ++ opening (iface st) s w ++ [(now w, ann)]
       ∧ trace w' = trace w0 ++ [(now w + wait, ann)]
                      ++ (if announced_cb st
                          then [(now w + wait + wait, EvAnnounced p)]
                          else []))
    ∧ timers w' = []
    ∧ sessions (iface st) w' = arp_states s
    ∧ p ∈ sessions (iface st) w'
    ∧ heap w' !! p = Some (with_claims ANNOUNCE_NUM st).
Proof.
  intros Hp Hi Hs Hin Hlen Hfd Ht.
  destruct (arp_open_opens (iface st) w i s Hi Hs Hfd)
    as (w1 & Hopen & Hi1 & Hh1 & Ht1 & Hn1 & Htr1).
  set (s1 := {| fd := opened_fd s w; arp_states := arp_states s |}) in *.
  set (i1 := with_arp (Some s1) i) in *.
  assert (∀ a b, request_frame i1 a b = request_frame i a b) as Hfr by done.
  destruct (arp_announce1_spec p
              (set_heap (<[p := with_claims 0 st]> (heap w1)) w1)
              (with_claims 0 st) i1 s1)
    as (w0 & Hrun0 & Hh0 & Hi0 & Hn0 & Htr0 & Ht0); try done.
  { wsimpl. by rewrite lookup_insert_eq. }
  simpl in Hh0, Hi0, Hn0, Htr0, Ht0.
  rewrite Ht1, Ht, Hn1 in Ht0. simpl in Ht0.
  rewrite Hn1, Htr1, Hfr, <- !app_assoc in Htr0.
  (* second announcement *)
  destruct (fire_arp_announce1 w0 (now w + ANNOUNCE_WAIT * NSEC_PER_SEC) p
              (with_claims (0 + 1) st) i1 s1)
    as (wa & Hrun1 & Hha & Hia & Hna & Htra & Hta); try done.
  { by rewrite Hh0, lookup_insert_eq. }
  { by rewrite Hi0. }
  simpl in Hha, Htra, Hta. rewrite Hfr in Htra.
  set (t2 := now w + ANNOUNCE_WAIT * NSEC_PER_SEC
             + ANNOUNCE_WAIT * NSEC_PER_SEC) in *.
  set (wq := set_now t2 (set_timers [] wa)).
  exists w0, (if announced_cb st then log (EvAnnounced p) wq else wq).
  assert (heap wa !! p = Some (with_claims ANNOUNCE_NUM st)) as Hlive.
  { by rewrite Hha, lookup_insert_eq. }
  split.
  { unfold arp_announce. rewrite (deref_Some _ _ st) by done. simpl.
    rewrite Hopen. simpl. rewrite decide_False by done. exact Hrun0. }
  split.
  { rewrite eloop_run_step, Hrun1. cbn [mbind res_bind].
    rewrite eloop_run_step, (eloop_step_single _ _ Hta).
    unfold run_handler, arp_announced. cbn [t_handler t_arg t_when].
    rewrite (deref_Some _ _ (with_claims ANNOUNCE_NUM st)) by done.
    cbn [mbind res_bind announced_cb with_claims].
    destruct (announced_cb st); cbn [mbind res_bind];
      by rewrite eloop_run_step, eloop_step_idle. }
  split.
  { split; [done|].
    destruct (announced_cb st); subst wq; wsimpl; rewrite Htra;
      by rewrite <- ?app_assoc, ?app_nil_r. }
  assert (sessions (iface st) wa = arp_states s) as Hsess.
  { unfold sessions. by rewrite Hia, Hi0, Hi1. }
  assert (p ∈ sessions (iface st) wa) as Hin' by by rewrite Hsess.
  by destruct (announced_cb st).
Qed.

(** ** arp_new when the allocator refuses *)

Lemma arp_new_context_refused (ifp : ifindex) (a : option Z) (w : world)
    (i : interface) :
  ifaces w !! ifp = Some i →
  if_data_arp i = None →
  o_malloc (env w) (tick w) = false →
  arp_new ifp a w = Ok (None, bump w).
Proof.
  intros Hi Hs Hm. unfold arp_new.
  rewrite (ARP_STATE_Some _ _ i) by done. simpl. by rewrite Hs, Hm.
Qed.

Lemma arp_new_session_refused (ifp : ifindex) (a : option Z) (w : world) :
  o_malloc (env w) (tick w) = false →
  arp_new_session ifp a w = Ok (None, bump w).
Proof. intros Hm. unfold arp_new_session. by rewrite Hm. Qed.

(** When the context is new and the session is refused, arp_new returns
    NULL with the new, empty context still attached to the interface. *)
Lemma arp_new_leaves_empty_context (ifp : ifindex) (a : option Z)
    (w : world) (i : interface) :
  ifaces w !! ifp = Some i →
  if_data_arp i = None →
  o_malloc (env w) (tick w) = true →
  o_malloc (env w) (S (tick w)) = false →
  ∃ w',
    arp_new ifp a w = Ok (None, w')
    ∧ ARP_STATE ifp w' = Ok (Some {| fd := -1; arp_states := [] |}).
Proof.
  intros Hi Hs Hm1 Hm2. unfold arp_new.
  rewrite (ARP_STATE_Some _ _ i) by done. simpl. rewrite Hs, Hm1.
  rewrite arp_new_session_refused by done.
  eexists. split; [reflexivity|].
  unfold ARP_STATE, get_iface. wsimpl.
  by rewrite list_lookup_alter_eq, Hi.
Qed.

(** C5, where the code departs from it: on an interface without a context,
    with an allocator that grants the context and refuses the session,
    arp_new returns NULL and the interface, which had no context before
    the call, has an empty one after it. *)
Theorem arp_new_refused_session_keeps_context :
  ARP_STATE 0 (world_bare second_malloc_fails) = Ok None
  ∧ ∃ w',
      arp_new 0 (Some addr_A) (world_bare second_malloc_fails) = Ok (None, w')
      ∧ ARP_STATE 0 w' = Ok (Some {| fd := -1; arp_states := [] |})
      ∧ heap w' = ∅.
Proof.
  split; [reflexivity|]. eexists. split; [reflexivity|]. by split.
Qed.

(** * Further properties of arp.c *)

(** ** The codec: arp_request against the first half of arp_packet *)

Lemma be_val_in_addr (a : Z) : be_val (in_addr_bytes a) = a mod 4294967296.
Proof.
  unfold be_val, in_addr_bytes. simpl. rewrite !byte_val_of_Z.
  rewrite !Z.mod_eq by lia.
  replace (a / 16777216 / 256) with (a / 4294967296)
    by (rewrite Z.div_div by lia; done).
  replace (a / 65536 / 256) with (a / 16777216)
    by (rewrite Z.div_div by lia; done).
  replace (a / 256 / 256) with (a / 65536)
    by (rewrite Z.div_div by lia; done).
  lia.
Qed.

Lemma peek_length (data b : list byte) (off n : nat) :
  peek data off n = Ok b → length b = n.
Proof.
  unfold peek. case_decide; [|done]. intros [= <-].
  rewrite length_take, length_drop. lia.
Qed.

Lemma from_self_none (ifs : list interface) (data b : list byte)
    (ar : arphdr) (hw_s : nat) :
  peek data hw_s (ar_hln ar) = Ok b →
  (∀ ifn, ifn ∈ ifs → hwaddr ifn ≠ b) →
  from_self ifs data ar hw_s = Ok false.
Proof.
  intros Hpk Hne. induction ifs as [|ifn rest IH]; [done|]. simpl.
  case_decide as Hh.
  - rewrite <- Hh, Hpk. simpl. rewrite decide_False.
    + apply IH. intros i Hi. apply Hne. by right.
    + intros ->. by apply (Hne ifn); [left|].
  - apply IH. intros i Hi. apply Hne. by right.
Qed.

Lemma from_self_false_inv (ifs : list interface) (data b : list byte)
    (ar : arphdr) (hw_s : nat) :
  from_self ifs data ar hw_s = Ok false →
  peek data hw_s (ar_hln ar) = Ok b →
  ∀ ifn, ifn ∈ ifs → hwaddr ifn ≠ b.
Proof.
  intros Hfs Hpk. induction ifs as [|i rest IH]; [by intros ? ?%elem_of_nil|].
  simpl in Hfs. intros ifn [->|Hin]%elem_of_cons.
  - intros Hb. case_decide as Hh.
    + rewrite <- Hh, Hpk in Hfs. simpl in Hfs.
      by rewrite decide_True in Hfs.
    + apply Hh. unfold hwlen. rewrite Hb. symmetry.
      exact (peek_length _ _ _ _ Hpk).
  - apply IH; [|done]. case_decide as Hh; [|done].
    rewrite <- Hh, Hpk in Hfs. simpl in Hfs. by case_decide.
Qed.

Lemma arp_frame_Some_inv (i : interface) (sip tip : Z) (f : list byte) :
  arp_frame i sip tip = Some f →
  f = request_frame i sip tip ∧ (hwlen i ≤ HWADDR_LEN)%nat.
Proof.
  intros Hf. destruct (decide (hwlen i ≤ HWADDR_LEN)%nat) as [Hl|Hl].
  - rewrite arp_frame_fits in Hf by done. by injection Hf as <-.
  - exfalso. revert Hf. unfold arp_frame, CHECK, ARP_LEN.
    unfold sizeof_arphdr, sizeof_in_addr, hwlen in *.
    repeat (case_decide; [done|]).
    repeat match goal with
           | H : ¬ (_ < _)%nat |- _ =>
               rewrite ?length_app, ?length_replicate in H; simpl in H
           end.
    lia.
Qed.

(** X1: a frame that arp_request builds for an interface, read by
    arp_packet on a host none of whose interfaces has that hardware
    address, comes out as a message: the sender hardware address is that
    of the sending interface, the sender and target IP are the two
    addresses given to arp_request (as 32-bit numbers), and the target
    hardware address is zero. *)
Theorem arp_request_frame_decodes (i : interface) (sip tip : Z)
    (f : list byte) (ifs : list interface) (arm0 : arp_msg) :
  arp_frame i sip tip = Some f →
  (hwlen i < 256)%nat →
  (∀ ifn, ifn ∈ ifs → hwaddr ifn ≠ hwaddr i) →
  (hwlen i ≤ length (sha arm0))%nat →
  (hwlen i ≤ length (tha arm0))%nat →
  arp_decode ifs arm0 f
  = Ok (Message {| op := op arm0;
                   sha := hwaddr i ++ drop (hwlen i) (sha arm0);
                   sip := sip mod 4294967296;
                   tha := replicate (hwlen i) x00
                            ++ drop (hwlen i) (tha arm0);
                   tip := tip mod 4294967296 |}).
Proof.
  intros Hf H256 Hother Hsha Htha.
  apply arp_frame_Some_inv in Hf as [-> Hfit].
  destruct (request_frame_layout i sip tip H256)
    as (Hhdr & Hhw & Hsip & Hzero & Htip).
  assert (length (request_frame i sip tip)
          = (16 + 2 * hwlen i)%nat) as Hlen.
  { unfold request_frame. rewrite !length_app, length_replicate.
    unfold hwlen. simpl. lia. }
  unfold arp_decode. cbv zeta. rewrite Hlen.
  rewrite decide_False by sizes. rewrite Hhdr.
  cbn [mbind res_bind ar_hln ar_pln].
  rewrite decide_False by sizes.
  rewrite (from_self_none _ _ (hwaddr i)) by done.
  cbn [mbind res_bind]. rewrite Hhw, Hsip, Hzero, Htip.
  cbn [mbind res_bind]. unfold memcpy_field.
  rewrite !decide_True by (rewrite ?length_replicate; done).
  cbn [mbind res_bind]. unfold in_addr_of_bytes.
  change (length (in_addr_bytes sip)) with 4%nat.
  change (length (in_addr_bytes tip)) with 4%nat.
  change (drop 4 (in_addr_bytes ?x)) with (@nil byte).
  by rewrite !app_nil_r, !be_val_in_addr, length_replicate.
Qed.

(** X2: arp_request never builds more than arp_buffer holds.  When the
    hardware address is longer than HWADDR_LEN it returns -1 and does
    nothing else; otherwise it hands bpf_send one frame of
    16 + 2 * hwlen bytes, which is at most ARP_LEN. *)
Theorem arp_request_fits_or_refuses (ifp : ifindex) (sip tip : Z)
    (w : world) (i : interface) (s : iarp_state) :
  ifaces w !! ifp = Some i →
  if_data_arp i = Some s →
  if decide (hwlen i ≤ HWADDR_LEN)%nat then
    ∃ f, arp_request ifp sip tip w
         = Ok (o_bpf_send (env w) (tick w),
               log (EvBpfSend ifp (fd s) ETHERTYPE_ARP f) (bump w))
         ∧ length f = (16 + 2 * hwlen i)%nat
         ∧ (length f ≤ ARP_LEN)%nat
  else arp_request ifp sip tip w = Ok (-1, w).
Proof.
  intros Hi Hs. case_decide as Hl.
  - exists (request_frame i sip tip).
    split; [by apply arp_request_sends|].
    assert (length (request_frame i sip tip) = (16 + 2 * hwlen i)%nat) as ->.
    { unfold request_frame. rewrite !length_app, length_replicate.
      unfold hwlen. simpl. lia. }
    split; [done|]. unfold ARP_LEN. sizes.
  - unfold arp_request. rewrite (get_iface_Some _ _ i) by done.
    cbn [mbind res_bind].
    destruct (arp_frame i sip tip) as [f|] eqn:Hf; [|done].
    apply arp_frame_Some_inv in Hf as [_ Hfit]. lia.
Qed.

(** X3: a frame no longer than ARP_LEN, the size of the buffer arp_read
    fills, whose protocol length is 4, as the BPF filter lets through, is
    taken apart without fault when sha and tha are HWADDR_LEN bytes long:
    no copy runs past the member it fills. *)
Theorem arp_decode_within_arp_len (ifs : list interface) (arm0 : arp_msg)
    (data : list byte) :
  (length data ≤ ARP_LEN)%nat →
  length (sha arm0) = HWADDR_LEN →
  length (tha arm0) = HWADDR_LEN →
  (∀ ar, read_arphdr data = Ok ar → ar_pln ar = sizeof_in_addr) →
  ∃ d, arp_decode ifs arm0 data = Ok d.
Proof.
  intros Hlen Hsha Htha Hpln. unfold arp_decode. cbv zeta.
  case_decide as Hshort; [eauto|].
  destruct (read_arphdr_full data) as [ar Har]; [sizes|].
  rewrite Har. cbn [mbind res_bind]. specialize (Hpln ar Har).
  case_decide as Htrunc; [eauto|].
  destruct (from_self_in_bounds ifs data ar sizeof_arphdr) as [b Hb]; [sizes|].
  rewrite Hb. cbn [mbind res_bind]. destruct b; [eauto|].
  assert (ar_hln ar ≤ HWADDR_LEN)%nat as Hh.
  { unfold ARP_LEN in Hlen. sizes. }
  rewrite !peek_in_bounds by sizes. cbn [mbind res_bind].
  unfold memcpy_field.
  rewrite !decide_True;
    try (rewrite ?length_take, ?length_drop; simpl; sizes).
  cbn [mbind res_bind]. eauto.
Qed.

(** X4: when arp_packet gets a message out of a buffer, the buffer holds
    the header and both address pairs in full; no interface has the
    sender hardware address of the frame as its own; the first ar_hln
    bytes of sha and tha are those of the frame; with a protocol length
    of 4 the sender and target IP are the numbers the frame carries; and
    op is what arm held before: the opcode of the frame is never copied. *)
Theorem arp_decode_message (ifs : list interface) (arm0 arm : arp_msg)
    (data : list byte) :
  arp_decode ifs arm0 data = Ok (Message arm) →
  ∃ ar,
    read_arphdr data = Ok ar
    ∧ (sizeof_arphdr + 2 * (ar_hln ar + ar_pln ar) ≤ length data)%nat
    ∧ (∀ ifn, ifn ∈ ifs →
              hwaddr ifn ≠ take (ar_hln ar) (drop sizeof_arphdr data))
    ∧ take (ar_hln ar) (sha arm)
      = take (ar_hln ar) (drop sizeof_arphdr data)
    ∧ take (ar_hln ar) (tha arm)
      = take (ar_hln ar)
          (drop (sizeof_arphdr + ar_hln ar + ar_pln ar) data)
    ∧ (ar_pln ar = sizeof_in_addr →
       sip arm = be_val (take 4 (drop (sizeof_arphdr + ar_hln ar) data))
       ∧ tip arm
         = be_val (take 4 (drop (sizeof_arphdr + ar_hln ar + ar_pln ar
                                 + ar_hln ar) data)))
    ∧ op arm = op arm0.
Proof.
  unfold arp_decode. cbv zeta. case_decide as Hshort; [done|].
  destruct (read_arphdr_full data) as [ar Har]; [sizes|].
  rewrite Har. cbn [mbind res_bind].
  case_decide as Htrunc; [done|].
  destruct (from_self ifs data ar sizeof_arphdr) as [[|]|] eqn:Hfs;
    cbn [mbind res_bind]; [done| |done].
  rewrite !peek_in_bounds by sizes. cbn [mbind res_bind].
  unfold memcpy_field.
  repeat match goal with
         | |- context [decide ?P] =>
             destruct (decide P); cbn [mbind res_bind];
             [|intros ?; discriminate]
         end.
  intros [= <-]. exists ar. cbn [op sha sip tha tip].
  assert (∀ off, (off + ar_hln ar ≤ length data)%nat →
            length (take (ar_hln ar) (drop off data)) = ar_hln ar) as Hlh.
  { intros off Hoff. rewrite length_take, length_drop. lia. }
  split; [done|]. split; [sizes|]. split.
  { apply (from_self_false_inv _ _ _ _ _ Hfs). apply peek_in_bounds. sizes. }
  split.
  { rewrite take_app_length'; [done|]. rewrite Hlh; [done|sizes]. }
  split.
  { rewrite take_app_length'; [done|]. rewrite Hlh; [done|sizes]. }
  split; [|done].
  intros Hpln. rewrite Hpln in *. unfold sizeof_in_addr in *.
  assert (∀ off x, (off + 4 ≤ length data)%nat →
            drop (length (take 4 (drop off data))) (in_addr_bytes x) = [])
    as Hd4.
  { intros off x Hoff.
    assert (length (take 4 (drop off data)) = 4%nat) as ->; [|done].
    rewrite length_take, length_drop. lia. }
  unfold in_addr_of_bytes. rewrite !Hd4 by sizes.
  by rewrite !app_nil_r.
Qed.

(** ** The descriptor: arp_open and arp_close *)

Lemma with_arp_same (i : interface) (s : iarp_state) :
  if_data_arp i = Some s → with_arp (Some s) i = i.
Proof. destruct i. simpl. by intros ->. Qed.

Lemma alter_with_arp_same (ifp : ifindex) (l : list interface)
    (i : interface) (c : option iarp_state) :
  l !! ifp = Some i → if_data_arp i = c → alter (with_arp c) ifp l = l.
Proof.
  intros Hi Hc. apply list_eq. intros j.
  destruct (decide (ifp = j)) as [<-|Hne].
  - rewrite list_lookup_alter_eq, Hi. simpl. f_equal.
    destruct i. simpl in *. by subst.
  - by rewrite list_lookup_alter_ne.
Qed.

(** X5: arp_open is idempotent: once it has returned a descriptor, a
    second arp_open returns the same descriptor and does nothing, neither
    a bpf_open nor a registration with the event loop. *)
Theorem arp_open_idempotent (ifp : ifindex) (w w1 : world) (r : Z) :
  arp_open ifp w = Ok (r, w1) →
  r ≠ -1 →
  arp_open ifp w1 = Ok (r, w1).
Proof.
  unfold arp_open, ARP_STATE, get_iface.
  destruct (ifaces w !! ifp) as [i|] eqn:Hi; [|done]. cbn [mbind res_bind].
  destruct (if_data_arp i) as [s|] eqn:Hs; [|done].
  destruct (decide (fd s = -1)) as [Hc|Ho].
  - destruct (decide (o_bpf_open (env w) (tick w) = -1)) as [Hf|Hf].
    + intros [= <- <-]. done.
    + intros [= <- <-] _. wsimpl.
      rewrite list_lookup_alter_eq, Hi. simpl.
      by rewrite decide_False.
  - intros [= <- <-] _. rewrite Hi. cbn [mbind res_bind]. rewrite Hs.
    by rewrite decide_False.
Qed.

(** X6: when the descriptor of the context is closed and bpf_open fails,
    arp_open returns -1; the context keeps its descriptor at -1 and its
    queue, sessions and timers are untouched, and nothing is registered
    with the event loop: the trace shows the failed bpf_open and nothing
    else. *)
Theorem arp_open_failure (ifp : ifindex) (w : world) (s : iarp_state) :
  ARP_STATE ifp w = Ok (Some s) →
  fd s = -1 →
  o_bpf_open (env w) (tick w) = -1 →
  ∃ w1,
    arp_open ifp w = Ok (-1, w1)
    ∧ ARP_STATE ifp w1 = Ok (Some s)
    ∧ ifaces w1 = ifaces w
    ∧ heap w1 = heap w
    ∧ timers w1 = timers w
    ∧ trace w1 = trace w ++ [(now w, EvBpfOpen ifp (-1))].
Proof.
  intros Hctx Hfd Hopen.
  eexists. split.
  { unfold arp_open. rewrite Hctx. cbn [mbind res_bind].
    rewrite decide_True by done. cbv zeta.
    rewrite Hopen, decide_True by done. reflexivity. }
  unfold ARP_STATE, get_iface in Hctx |- *.
  destruct (ifaces w !! ifp) as [i|] eqn:Hi; [|done].
  cbn [mbind res_bind] in Hctx. injection Hctx as Hs.
  assert ({| fd := -1; arp_states := arp_states s |} = s) as ->.
  { destruct s. simpl in *. by subst. }
  wsimpl. rewrite (alter_with_arp_same _ _ i) by done.
  rewrite Hi. cbn [mbind res_bind]. by rewrite Hs.
Qed.

(** X7: arp_close on an open descriptor takes it from the event loop,
    closes it and leaves -1 in the context, queue untouched; a second
    arp_close does nothing.  On a context that is closed already, or on an
    interface without context, arp_close does nothing. *)
Theorem arp_close_closes_once (ifp : ifindex) (w : world) (i : interface) :
  ifaces w !! ifp = Some i →
  ∃ w1,
    arp_close ifp w = Ok w1
    ∧ arp_close ifp w1 = Ok w1
    ∧ sessions ifp w1 = sessions ifp w
    ∧ heap w1 = heap w
    ∧ timers w1 = timers w
    ∧ match if_data_arp i with
      | Some s =>
          ARP_STATE ifp w1
          = Ok (Some {| fd := -1; arp_states := arp_states s |})
          ∧ trace w1
            = trace w
                ++ (if decide (fd s = -1) then []
                    else [(now w, EvEventDelete (fd s));
                          (now w, EvBpfClose (fd s))])
      | None => w1 = w
      end.
Proof.
  intros Hi. unfold arp_close at 1. rewrite (ARP_STATE_Some _ _ i) by done.
  cbn [mbind res_bind].
  destruct (if_data_arp i) as [s|] eqn:Hs.
  - destruct (decide (fd s = -1)) as [Hc|Ho].
    + exists w. split; [done|]. unfold arp_close.
      rewrite (ARP_STATE_Some _ _ i) by done. cbn [mbind res_bind].
      rewrite Hs, decide_True by done. rewrite app_nil_r.
      repeat split; try done. f_equal. f_equal.
      destruct s. simpl in *. by subst.
    + eexists. split; [reflexivity|]. unfold arp_close, sessions.
      unfold ARP_STATE, get_iface. wsimpl.
      rewrite !list_lookup_alter_eq, Hi. simpl. rewrite Hs.
      by rewrite <- app_assoc.
  - exists w. split; [done|]. unfold arp_close.
    rewrite (ARP_STATE_Some _ _ i) by done. cbn [mbind res_bind].
    by rewrite Hs.
Qed.

(** ** Probing and announcing off the main path *)

(** X8: when the transport does not open, arp_probe and arp_announce give
    up at once: no frame is sent, no timer is set, no filter is installed
    and the counters of the session are not touched. *)
Theorem arp_probe_announce_without_transport (p : ptr) (w : world)
    (st : arp_state) (i : interface) (s : iarp_state) :
  heap w !! p = Some st →
  ifaces w !! iface st = Some i →
  if_data_arp i = Some s →
  fd s = -1 →
  o_bpf_open (env w) (tick w) = -1 →
  ∃ w1,
    arp_probe p w = Ok w1
    ∧ arp_announce p w = Ok w1
    ∧ heap w1 = heap w
    ∧ timers w1 = timers w
    ∧ ifaces w1 = ifaces w
    ∧ trace w1 = trace w ++ [(now w, EvBpfOpen (iface st) (-1))].
Proof.
  intros Hp Hi Hs Hfd Hopen.
  set (w1 := set_ARP_STATE (iface st)
               (Some {| fd := -1; arp_states := arp_states s |})
               (log (EvBpfOpen (iface st) (-1)) (bump w))).
  assert (arp_open (iface st) w = Ok (-1, w1)) as Ho.
  { unfold arp_open. rewrite (ARP_STATE_Some _ _ i) by done.
    cbn [mbind res_bind]. rewrite Hs, decide_True by done.
    rewrite Hopen, decide_True by done. done. }
  exists w1. unfold arp_probe, arp_announce.
  rewrite (deref_Some _ _ st) by done. cbn [mbind res_bind].
  rewrite Ho. cbn [mbind res_bind]. rewrite decide_True by done.
  do 4 (split; [done|]). split; [|done].
  subst w1. wsimpl. apply (alter_with_arp_same _ _ i); [done|].
  rewrite Hs. f_equal. destruct s. simpl in *. by subst.
Qed.

(** X9: arp_probed calls probed_cb without looking at it.  For a session
    without probed callback, arp_probe still sends its three probes, and
    the call that follows ANNOUNCE_WAIT seconds after the third goes
    through the null pointer. *)
Theorem arp_probe_without_probed_cb (p : ptr) (w : world)
    (st : arp_state) (i : interface) (s : iarp_state) :
  heap w !! p = Some st →
  ifaces w !! iface st = Some i →
  if_data_arp i = Some s →
  (hwlen i ≤ HWADDR_LEN)%nat →
  opened_fd s w ≠ -1 →
  probed_cb st = false →
  timers w = [] →
  ∃ w0 w1 w2 d1 d2,
    arp_probe p w = Ok w0
    ∧ eloop_step w0 = Ok (Some w1)
    ∧ eloop_step w1 = Ok (Some w2)
    ∧ (let probe := EvBpfSend (iface st) (opened_fd s w) ETHERTYPE_ARP
                      (request_frame i INADDR_ANY (addr st)) in
       trace w2 = trace w ++ opening (iface st) s w
                    ++ [(now w, EvBpfFilter (iface st) (opened_fd s w));
                        (now w, probe);
                        (now w + d1, probe);
                        (now w + d1 + d2, probe)])
    ∧ eloop_step w2 = Err NullDeref
    ∧ ∀ k, eloop_run (3 + k) w0 = Err NullDeref.
Proof.
  intros Hp Hi Hs Hlen Hfd Hcb Ht.
  destruct (arp_open_opens (iface st) w i s Hi Hs Hfd)
    as (w1 & Hopen & Hi1 & Hh1 & Ht1 & Hn1 & Htr1).
  set (s1 := {| fd := opened_fd s w; arp_states := arp_states s |}) in *.
  set (i1 := with_arp (Some s1) i) in *.
  set (wf0 := log (EvBpfFilter (iface st) (fd s1)) w1).
  assert (∀ a b, request_frame i1 a b = request_frame i a b) as Hfr by done.
  destruct (arp_probe1_spec p
              (set_heap (<[p := with_probes 0 st]> (heap wf0)) wf0)
              (with_probes 0 st) i1 s1)
    as (w0 & d0 & Hrun0 & Hh0 & Hi0 & Hn0 & Htr0 & Ht0 & Hd0); try done.
  { wsimpl. by rewrite lookup_insert_eq. }
  simpl in Hh0, Hi0, Hn0, Htr0, Ht0, Hd0.
  rewrite Ht1, Ht, Hn1 in Ht0. simpl in Ht0.
  rewrite Hn1, Htr1, Hfr, <- !app_assoc in Htr0. simpl in Htr0.
  destruct (fire_arp_probe1 w0 (now w + d0) p (with_probes (0 + 1) st) i1 s1)
    as (wa & d1 & Hrun1 & Hha & Hia & Hna & Htra & Hta & Hd1); try done.
  { by rewrite Hh0, lookup_insert_eq. }
  { by rewrite Hi0. }
  simpl in Hha, Htra, Hta, Hd1. rewrite Hfr in Htra.
  destruct (fire_arp_probe1 wa (now w + d0 + d1) p
              (with_probes (0 + 1 + 1) st) i1 s1)
    as (wb & d2 & Hrun2 & Hhb & Hib & Hnb & Htrb & Htb & Hd2); try done.
  { by rewrite Hha, lookup_insert_eq. }
  { by rewrite Hia, Hi0. }
  simpl in Hhb, Htrb, Htb, Hd2. rewrite Hfr in Htrb.
  assert (eloop_step wb = Err NullDeref) as Hfault.
  { rewrite (eloop_step_single _ _ Htb).
    unfold run_handler, arp_probed. cbn [t_handler t_arg t_when].
    rewrite (deref_Some _ _ (with_probes (0 + 1 + 1 + 1) st))
      by (wsimpl; by rewrite Hhb, lookup_insert_eq).
    cbn [mbind res_bind probed_cb with_probes]. by rewrite Hcb. }
  exists w0, wa, wb, d0, d1.
  split.
  { unfold arp_probe. rewrite (deref_Some _ _ st) by done.
    cbn [mbind res_bind]. rewrite Hopen. cbn [mbind res_bind].
    rewrite decide_False by done.
    rewrite (ARP_STATE_Some _ _ i1) by done. exact Hrun0. }
  split; [done|]. split; [done|].
  split.
  { cbv zeta. rewrite Htrb, Htra, Htr0, <- !app_assoc. done. }
  split; [done|].
  intros k. change (3 + k)%nat with (S (S (S k))).
  rewrite eloop_run_step, Hrun1. cbn [mbind res_bind].
  rewrite eloop_run_step, Hrun2. cbn [mbind res_bind].
  by rewrite eloop_run_step, Hfault.
Qed.

(** X10: arp_cancel after arp_probe stops the probing: the first probe has
    gone out, no timer is left, the event loop has nothing to do, so no
    further probe is sent and probed_cb is never called; the session stays
    live and queued. *)
Theorem arp_cancel_stops_probing (p : ptr) (w : world)
    (st : arp_state) (i : interface) (s : iarp_state) (k : nat) :
  heap w !! p = Some st →
  ifaces w !! iface st = Some i →
  if_data_arp i = Some s →
  (hwlen i ≤ HWADDR_LEN)%nat →
  opened_fd s w ≠ -1 →
  timers w = [] →
  ∃ w0 w1,
    arp_probe p w = Ok w0
    ∧ arp_cancel p w0 = Ok w1
    ∧ timers w0 ≠ []
    ∧ timers w1 = []
    ∧ eloop_run (S k) w1 = Ok w1
    ∧ trace w1 = trace w0
    ∧ heap w1 !! p = Some (with_probes 1 st)
    ∧ sessions (iface st) w1 = arp_states s.
Proof.
  intros Hp Hi Hs Hlen Hfd Ht.
  destruct (arp_open_opens (iface st) w i s Hi Hs Hfd)
    as (w1 & Hopen & Hi1 & Hh1 & Ht1 & Hn1 & Htr1).
  set (s1 := {| fd := opened_fd s w; arp_states := arp_states s |}) in *.
  set (i1 := with_arp (Some s1) i) in *.
  set (wf0 := log (EvBpfFilter (iface st) (fd s1)) w1).
  destruct (arp_probe1_spec p
              (set_heap (<[p := with_probes 0 st]> (heap wf0)) wf0)
              (with_probes 0 st) i1 s1)
    as (w0 & d0 & Hrun0 & Hh0 & Hi0 & Hn0 & Htr0 & Ht0 & Hd0); try done.
  { wsimpl. by rewrite lookup_insert_eq. }
  simpl in Hh0, Hi0, Hn0, Htr0, Ht0, Hd0.
  rewrite Ht1, Ht in Ht0. simpl in Ht0.
  exists w0, (eloop_timeout_delete p w0).
  split.
  { unfold arp_probe. rewrite (deref_Some _ _ st) by done.
    cbn [mbind res_bind]. rewrite Hopen. cbn [mbind res_bind].
    rewrite decide_False by done.
    rewrite (ARP_STATE_Some _ _ i1) by done. exact Hrun0. }
  split.
  { unfold arp_cancel.
    rewrite (deref_Some _ _ (with_probes (0 + 1) st))
      by (by rewrite Hh0, lookup_insert_eq).
    cbn [mbind res_bind iface with_probes].
    rewrite (get_iface_Some _ _ i1) by (by rewrite Hi0). done. }
  split; [by rewrite Ht0|].
  assert (timers (eloop_timeout_delete p w0) = []) as Hnone.
  { wsimpl. rewrite Ht0. rewrite filter_cons_False; [done|].
    simpl. by intros ?. }
  split; [done|].
  split; [by rewrite eloop_run_step, eloop_step_idle|].
  split; [done|].
  split; [wsimpl; by rewrite Hh0, lookup_insert_eq|].
  unfold sessions. wsimpl. by rewrite Hi0, Hi1.
Qed.

(** ** Looking sessions up *)

Lemma arp_find_sessions (ifp : ifindex) (a : Z) (w : world) :
  arp_find ifp a w
  = get_iface ifp w ≫= λ _, arp_find_in (sessions ifp w) ifp a w.
Proof.
  unfold arp_find, ARP_STATE, get_iface, sessions.
  destruct (ifaces w !! ifp) as [i|]; [|done]. cbn [mbind res_bind].
  by destruct (if_data_arp i).
Qed.

Lemma arp_find_in_sound (l : list ptr) (ifp : ifindex) (a : Z) (w : world)
    (p : ptr) :
  arp_find_in l ifp a w = Ok (Some p) →
  p ∈ l ∧ ∃ st, heap w !! p = Some st ∧ addr st = a ∧ iface st = ifp.
Proof.
  induction l as [|q rest IH]; simpl; [done|]. unfold deref.
  destruct (heap w !! q) as [st|] eqn:Hq; [|done]. cbn [mbind res_bind].
  case_decide as Hm.
  - intros [= <-]. split; [by left|]. exists st. tauto.
  - intros [Hin Hst]%IH. split; [by right|done].
Qed.

Lemma arp_find_in_total (l : list ptr) (ifp : ifindex) (a : Z) (w : world) :
  (∀ p, p ∈ l → is_Some (heap w !! p)) →
  ∃ r, arp_find_in l ifp a w = Ok r
       ∧ (r = None →
          ∀ p st, p ∈ l → heap w !! p = Some st →
                  ¬ (addr st = a ∧ iface st = ifp)).
Proof.
  induction l as [|q rest IH]; intros Hlive; simpl.
  { exists None. split; [done|]. by intros _ p st ?%elem_of_nil. }
  unfold deref. destruct (Hlive q) as [st Hq]; [by left|].
  rewrite Hq. cbn [mbind res_bind]. case_decide as Hm.
  - exists (Some q). by split.
  - destruct IH as (r & Hr & Hnone).
    { intros p Hp. apply Hlive. by right. }
    exists r. split; [done|]. intros -> p st' [->|Hp]%elem_of_cons Hst'.
    + congruence.
    + by apply (Hnone eq_refl p).
Qed.

(** X11: on a well-formed world arp_find does not fault; the session it
    returns is queued on the interface asked for and has the address asked
    for; it returns NULL only when no session queued on that interface has
    that address. *)
Theorem arp_find_finds (ifp : ifindex) (a : Z) (w : world) (i : interface) :
  wf w →
  ifaces w !! ifp = Some i →
  ∃ r,
    arp_find ifp a w = Ok r
    ∧ match r with
      | Some p => p ∈ sessions ifp w ∧ addr <$> heap w !! p = Some a
      | None =>
          ∀ p st, p ∈ sessions ifp w → heap w !! p = Some st → addr st ≠ a
      end.
Proof.
  intros Hwf Hi. rewrite arp_find_sessions, (get_iface_Some _ _ i) by done.
  cbn [mbind res_bind].
  destruct (arp_find_in_total (sessions ifp w) ifp a w) as (r & Hr & Hnone).
  { intros p Hp. destruct (wf_live _ _ _ Hwf Hp) as (st & -> & _). done. }
  exists r. split; [done|]. destruct r as [p|].
  - apply arp_find_in_sound in Hr as (Hin & st & Hst & Ha & _).
    split; [done|]. by rewrite Hst, <- Ha.
  - intros p st Hp Hst Ha.
    destruct (wf_live _ _ _ Hwf Hp) as (st' & Hst' & Hif).
    apply (Hnone eq_refl p st Hp Hst). split; [done|]. congruence.
Qed.

(** ** Creating and freeing *)

Lemma sessions_ifaces (j : ifindex) (w w' : world) :
  ifaces w = ifaces w' → sessions j w = sessions j w'.
Proof. intros H. unfold sessions. by rewrite H. Qed.

Lemma arp_new_session_fresh (ifp : ifindex) (a : option Z) (w w1 : world)
    (p : ptr) :
  arp_new_session ifp a w = Ok (Some p, w1) →
  heap w !! p = None
  ∧ heap w1 = <[p := new_state ifp a]> (heap w)
  ∧ timers w1 = timers w
  ∧ ∀ j, sessions j w1
         = if decide (j = ifp) then sessions ifp w ++ [p] else sessions j w.
Proof.
  unfold arp_new_session. destruct (o_malloc _ _); [|done].
  unfold ARP_STATE, get_iface. wsimpl.
  destruct (ifaces w !! ifp) as [i|] eqn:Hi; [|done]. cbn [mbind res_bind].
  destruct (if_data_arp i) as [s|] eqn:Hs; [|done].
  intros [= <- <-]. split.
  { apply not_elem_of_dom. apply is_fresh. }
  split; [done|]. split; [done|].
  intros j.
  change (sessions j (log ?e ?x)) with (sessions j x).
  rewrite sessions_set_ARP_STATE. wsimpl.
  destruct (decide (j = ifp)) as [->|Hne].
  - rewrite decide_True by eauto. unfold sessions. by rewrite Hi, Hs.
  - by rewrite decide_False by tauto.
Qed.

(** A session that arp_new returns and that was not live before the call
    is a new one, put at the tail of the queue of its interface. *)
Lemma arp_new_fresh_inv (ifp : ifindex) (a : option Z) (w w1 : world)
    (p : ptr) :
  arp_new ifp a w = Ok (Some p, w1) →
  heap w !! p = None →
  heap w1 = <[p := new_state ifp a]> (heap w)
  ∧ timers w1 = timers w
  ∧ ∀ j, sessions j w1
         = if decide (j = ifp) then sessions ifp w ++ [p] else sessions j w.
Proof.
  unfold arp_new, ARP_STATE, get_iface.
  destruct (ifaces w !! ifp) as [i|] eqn:Hi; [|done]. cbn [mbind res_bind].
  destruct (if_data_arp i) as [s|] eqn:Hs.
  - assert (arp_new_session ifp a w = Ok (Some p, w1) →
            heap w1 = <[p := new_state ifp a]> (heap w)
            ∧ timers w1 = timers w
            ∧ ∀ j, sessions j w1
                   = if decide (j = ifp) then sessions ifp w ++ [p]
                     else sessions j w) as Hnew.
    { intros (_ & H1 & H2 & H3)%arp_new_session_fresh. done. }
    destruct a as [a'|]; [|by intros H _; apply Hnew].
    destruct (arp_find ifp a' w) as [[q|]|] eqn:Hf; cbn [mbind res_bind];
      [|by intros H _; apply Hnew|done].
    intros [= <- <-] Hnone. exfalso.
    rewrite arp_find_sessions, (get_iface_Some _ _ i) in Hf by done.
    apply arp_find_in_sound in Hf as (_ & st & Hst & _). congruence.
  - destruct (o_malloc (env w) (tick w)); [|done].
    intros (_ & H1 & H2 & H3)%arp_new_session_fresh _.
    split; [done|]. split; [done|]. intros j. rewrite H3.
    rewrite !sessions_set_ARP_STATE. wsimpl.
    assert (sessions ifp w = []) as Hnil.
    { unfold sessions. by rewrite Hi, Hs. }
    destruct (decide (j = ifp)) as [->|Hne].
    + rewrite decide_True by eauto. by rewrite Hnil.
    + by rewrite decide_False by tauto.
Qed.

(** X12: with a null address arp_new never hands back a session that
    exists: each call that succeeds allocates a session with address
    0.0.0.0 and puts it at the tail of the queue, so two calls give two
    different sessions, queued in call order. *)
Theorem arp_new_null_addr_allocates (ifp : ifindex) (w w1 w2 : world)
    (p q : ptr) :
  arp_new ifp None w = Ok (Some p, w1) →
  arp_new ifp None w1 = Ok (Some q, w2) →
  p ≠ q
  ∧ heap w !! p = None
  ∧ sessions ifp w2 = sessions ifp w ++ [p; q]
  ∧ heap w2 !! p = Some (new_state ifp None)
  ∧ heap w2 !! q = Some (new_state ifp None).
Proof.
  assert (∀ x y r, arp_new ifp None x = Ok (Some r, y) → heap x !! r = None)
    as Hfresh.
  { intros x y r. unfold arp_new, ARP_STATE, get_iface.
    destruct (ifaces x !! ifp) as [i|]; [|done]. cbn [mbind res_bind].
    destruct (if_data_arp i).
    - by intros (H & _)%arp_new_session_fresh.
    - destruct (o_malloc _ _); [|done].
      by intros (H & _)%arp_new_session_fresh. }
  intros H1 H2.
  pose proof (Hfresh _ _ _ H1) as Hp. pose proof (Hfresh _ _ _ H2) as Hq.
  destruct (arp_new_fresh_inv _ _ _ _ _ H1 Hp) as (Hh1 & _ & Hs1).
  destruct (arp_new_fresh_inv _ _ _ _ _ H2 Hq) as (Hh2 & _ & Hs2).
  assert (p ≠ q) as Hne.
  { intros <-. rewrite Hh1, lookup_insert_eq in Hq. done. }
  split; [done|]. split; [done|]. split.
  { rewrite Hs2, decide_True by done. rewrite Hs1, decide_True by done.
    by rewrite <- app_assoc. }
  rewrite Hh2, Hh1. split.
  - by rewrite lookup_insert_ne, lookup_insert_eq.
  - by rewrite lookup_insert_eq.
Qed.

(** X13: arp_new keeps the world well-formed, whether it returns an old
    session, a new one or NULL: every queue still holds each of its
    sessions once, only live sessions of its own interface, and every live
    session is queued on its interface. *)
Theorem arp_new_keeps_wf (ifp : ifindex) (a : option Z) (w w' : world)
    (r : option ptr) :
  wf w → arp_new ifp a w = Ok (r, w') → wf w'.
Proof. apply arp_new_wf. Qed.

(** X14: on a well-formed world arp_free of any live session succeeds and
    keeps the world well-formed; it takes that one session off the heap
    and off the queues and leaves every other session live and queued
    where it was. *)
Theorem arp_free_keeps_wf (p : ptr) (w : world) :
  wf w → is_Some (heap w !! p) →
  ∃ w',
    arp_free (Some p) w = Ok w'
    ∧ wf w'
    ∧ heap w' = delete p (heap w)
    ∧ ∀ j, sessions j w' = filter (λ q, q ≠ p) (sessions j w).
Proof.
  intros Hwf Hp.
  destruct (arp_free_wf p w Hwf Hp) as (w' & H1 & H2 & H3 & H4 & _).
  by exists w'.
Qed.

(** X15: arp_new of a session that did not exist, then arp_free of it,
    gives back the heap and every queue as they were before the two
    calls, in a well-formed world again. *)
Theorem arp_new_then_arp_free (ifp : ifindex) (a : option Z) (w w1 : world)
    (p : ptr) :
  wf w →
  arp_new ifp a w = Ok (Some p, w1) →
  heap w !! p = None →
  ∃ w2,
    arp_free (Some p) w1 = Ok w2
    ∧ wf w2
    ∧ heap w2 = heap w
    ∧ ∀ j, sessions j w2 = sessions j w.
Proof.
  intros Hwf Hnew Hp.
  pose proof (arp_new_wf _ _ _ _ _ Hwf Hnew) as Hwf1.
  destruct (arp_new_fresh_inv _ _ _ _ _ Hnew Hp) as (Hh1 & _ & Hs1).
  destruct (arp_free_wf p w1 Hwf1) as (w2 & Hfree & Hwf2 & Hh2 & Hs2 & _).
  { rewrite Hh1, lookup_insert_eq. done. }
  exists w2. split; [done|]. split; [done|]. split.
  - rewrite Hh2, Hh1. by apply delete_insert_id.
  - intros j. rewrite Hs2, Hs1.
    assert (filter (λ q, q ≠ p) (sessions j w) = sessions j w) as Hsame.
    { apply filter_all. intros q Hq ->.
      destruct (wf_live _ _ _ Hwf Hq) as (st & Hst & _). congruence. }
    case_decide as Hj; [|done]. subst j.
    rewrite filter_app, Hsame, filter_cons_False by (by intros ?).
    by rewrite app_nil_r.
Qed.

Lemma arp_find_in_after_free (l : list ptr) (ifp : ifindex) (a : Z)
    (w w' : world) (p q : ptr) :
  heap w' = delete p (heap w) →
  arp_find_in l ifp a w = Ok (Some q) →
  q ≠ p →
  arp_find_in (filter (λ x, x ≠ p) l) ifp a w' = Ok (Some q).
Proof.
  intros Hh Hf Hne. induction l as [|x rest IH]; [done|].
  simpl in Hf. unfold deref in Hf.
  destruct (heap w !! x) as [st|] eqn:Hx; [|done]. cbn [mbind res_bind] in Hf.
  rewrite filter_cons. destruct (decide (x ≠ p)) as [Hxp|Hxp].
  - simpl. unfold deref. rewrite Hh, lookup_delete_ne by done.
    rewrite Hx. cbn [mbind res_bind]. case_decide; [done|]. by apply IH.
  - apply IH. case_decide; [|done]. injection Hf as <-.
    destruct (decide (x = p)); [done|tauto].
Qed.

(** X16: after arp_free of a session no arp_find returns it, and every
    other session that arp_find returned before is still returned for the
    same interface and address. *)
Theorem arp_find_after_arp_free (p : ptr) (w : world) :
  wf w → is_Some (heap w !! p) →
  ∃ w',
    arp_free (Some p) w = Ok w'
    ∧ (∀ ifp a, arp_find ifp a w' ≠ Ok (Some p))
    ∧ (∀ ifp a q, arp_find ifp a w = Ok (Some q) → q ≠ p →
                  arp_find ifp a w' = Ok (Some q)).
Proof.
  intros Hwf [st Hp].
  pose proof (wf_queued _ _ _ Hwf Hp) as Hq.
  unfold sessions in Hq.
  destruct (ifaces w !! iface st) as [i|] eqn:Hi; [|by inversion Hq].
  destruct (if_data_arp i) as [s|] eqn:Hs; [|by inversion Hq].
  destruct (arp_free_queued p st i s w Hp Hi Hs Hq)
    as (w1 & Hfree1 & _ & _ & _ & Hother & Hctx).
  destruct (arp_free_wf p w Hwf) as (w' & Hfree & Hwf' & Hh & Hsess & _);
    [done|].
  assert (w1 = w') as -> by congruence.
  assert (∀ j, is_Some (ifaces w !! j) → is_Some (ifaces w' !! j)) as Hval.
  { intros j Hj. destruct (decide (j = iface st)) as [->|Hne].
    - cbv zeta in Hctx. unfold ARP_STATE, get_iface in Hctx.
      destruct (ifaces w' !! iface st); [done|].
      by destruct (decide (filter _ _ = [])); destruct Hctx.
    - by rewrite Hother. }
  exists w'. split; [done|]. split.
  - intros ifp a Hf. rewrite arp_find_sessions in Hf.
    destruct (get_iface ifp w'); [|done]. cbn [mbind res_bind] in Hf.
    apply arp_find_in_sound in Hf as [Hin _].
    rewrite Hsess in Hin. apply list_elem_of_filter in Hin as [Hne _]. done.
  - intros ifp a q Hf Hne. rewrite arp_find_sessions in Hf |- *.
    unfold get_iface in *.
    destruct (ifaces w !! ifp) as [i0|] eqn:Hi0; [|done].
    destruct (Hval ifp) as [i1 ->]; [by rewrite Hi0|].
    cbn [mbind res_bind] in Hf |- *. rewrite Hsess.
    by apply (arp_find_in_after_free _ _ _ w).
Qed.

(** ** Freeing all but one: arp_free_but1, arp_free_but, arp_drop *)

Lemma freed_calls_app (t1 t2 : list (Z * event)) :
  freed_calls (t1 ++ t2) = freed_calls t1 ++ freed_calls t2.
Proof. apply omap_app. Qed.

Lemma closed_calls_app (t1 t2 : list (Z * event)) :
  closed_calls (t1 ++ t2) = closed_calls t1 ++ closed_calls t2.
Proof. apply omap_app. Qed.

(** All that arp_free of a live session does to a well-formed world. *)
Lemma arp_free_effect (p : ptr) (w : world) (st : arp_state) (d : Z)
    (l : list ptr) :
  wf w →
  heap w !! p = Some st →
  ARP_STATE (iface st) w = Ok (Some {| fd := d; arp_states := l |}) →
  ∃ w',
    arp_free (Some p) w = Ok w'
    ∧ wf w'
    ∧ heap w' = delete p (heap w)
    ∧ (∀ j, sessions j w' = filter (λ q, q ≠ p) (sessions j w))
    ∧ freed_calls (trace w')
      = freed_calls (trace w) ++ (if free_cb st then [p] else [])
    ∧ if decide (filter (λ q, q ≠ p) l = []) then
        ARP_STATE (iface st) w' = Ok None
        ∧ closed_calls (trace w')
          = closed_calls (trace w) ++ (if decide (d = -1) then [] else [d])
      else
        ARP_STATE (iface st) w'
        = Ok (Some {| fd := d; arp_states := filter (λ q, q ≠ p) l |})
        ∧ closed_calls (trace w') = closed_calls (trace w).
Proof.
  intros Hwf Hp Hctx.
  unfold ARP_STATE, get_iface in Hctx.
  destruct (ifaces w !! iface st) as [i|] eqn:Hi; [|done].
  cbn [mbind res_bind] in Hctx. injection Hctx as Hs.
  pose proof (wf_queued _ _ _ Hwf Hp) as Hq.
  unfold sessions in Hq. rewrite Hi, Hs in Hq. simpl in Hq.
  destruct (arp_free_queued p st i _ w Hp Hi Hs Hq)
    as (w1 & Hfree1 & _ & _ & _ & _ & Htr).
  destruct (arp_free_wf p w Hwf) as (w' & Hfree & Hwf' & Hh & Hsess & _);
    [done|].
  assert (w1 = w') as -> by congruence.
  exists w'. do 4 (split; [done|]).
  cbv zeta in Htr. simpl in Htr.
  destruct (decide (filter (λ q, q ≠ p) l = [])) as [He|He];
    destruct Htr as [Hc ->]; rewrite !freed_calls_app, !closed_calls_app.
  - destruct (free_cb st), (decide (d = -1)); simpl;
      rewrite ?app_nil_r; done.
  - destruct (free_cb st); simpl; rewrite ?app_nil_r; done.
Qed.

Lemma tailq_next_app (pre rest : list ptr) (p : ptr) :
  NoDup (pre ++ p :: rest) → tailq_next p (pre ++ p :: rest) = head rest.
Proof.
  intros Hnd.
  rewrite <- (filter_all (λ _, True) (pre ++ p :: rest)) by done.
  rewrite (tailq_next_filter (λ _, True)) by done.
  by rewrite filter_all.
Qed.

Lemma filter_ext_in {A} (P Q : A → Prop) `{!∀ x, Decision (P x)}
    `{!∀ x, Decision (Q x)} (l : list A) :
  (∀ x, x ∈ l → P x ↔ Q x) → filter P l = filter Q l.
Proof.
  induction l as [|x l IH]; intros Hpq; [done|].
  rewrite !filter_cons.
  assert (filter P l = filter Q l) as ->.
  { apply IH. intros y Hy. apply Hpq. by right. }
  destruct (decide (P x)) as [HP|HP].
  - rewrite decide_True; [done|]. apply Hpq; [by left|done].
  - rewrite decide_False; [done|]. intros HQ. apply HP, Hpq; [by left|done].
Qed.

Lemma filter_remove_middle (kept rest : list ptr) (p : ptr) :
  NoDup (kept ++ p :: rest) →
  filter (λ q, q ≠ p) (kept ++ p :: rest) = kept ++ rest.
Proof.
  intros Hnd. apply NoDup_app in Hnd as (_ & Hdis & Hnd2).
  apply NoDup_cons in Hnd2 as [Hp _].
  rewrite filter_app, filter_cons_False by (by intros ?).
  rewrite !filter_all; [done| |].
  - intros q Hq ->. done.
  - intros q Hq ->. apply (Hdis p Hq). by left.
Qed.

Lemma sessions_of_ARP_STATE (ifp : ifindex) (w : world) (s : iarp_state) :
  ARP_STATE ifp w = Ok (Some s) → sessions ifp w = arp_states s.
Proof.
  unfold ARP_STATE, get_iface, sessions.
  destruct (ifaces w !! ifp) as [i|]; [|done]. cbn [mbind res_bind].
  by intros [= ->].
Qed.

(** The loop of arp_free_but1 from the part [suffix] of the queue on, the
    sessions of [kept] having been passed over. *)
Lemma arp_free_but1_loop (ifp : ifindex) (keep : option ptr)
    (suffix : list ptr) :
  ∀ (kept : list ptr) (w : world) (fuel : nat) (d : Z),
  wf w →
  NoDup (kept ++ suffix) →
  ARP_STATE ifp w = Ok (Some {| fd := d; arp_states := kept ++ suffix |}) →
  (∀ q, q ∈ kept → Some q = keep) →
  (length suffix ≤ fuel)%nat →
  ∃ w',
    foreach_safe fuel ifp (arp_free_but1_body keep) (head suffix) w = Ok w'
    ∧ wf w'
    ∧ sessions ifp w' = kept ++ filter (λ q, Some q = keep) suffix
    ∧ (∀ q, heap w' !! q
            = if decide (q ∈ filter (λ q, Some q ≠ keep) suffix) then None
              else heap w !! q)
    ∧ (∀ j, j ≠ ifp → sessions j w' = sessions j w)
    ∧ freed_calls (trace w')
      = freed_calls (trace w)
          ++ filter (λ q, has_free_cb (heap w) q)
               (filter (λ q, Some q ≠ keep) suffix)
    ∧ if decide (filter (λ q, Some q ≠ keep) suffix = []) then w' = w
      else if decide (kept ++ filter (λ q, Some q = keep) suffix = []) then
        ARP_STATE ifp w' = Ok None
        ∧ closed_calls (trace w')
          = closed_calls (trace w) ++ (if decide (d = -1) then [] else [d])
      else
        ARP_STATE ifp w'
        = Ok (Some {| fd := d;
                      arp_states :=
                        kept ++ filter (λ q, Some q = keep) suffix |})
        ∧ closed_calls (trace w') = closed_calls (trace w).
Proof.
  induction suffix as [|p rest IH]; intros kept w fuel d Hwf Hnd Hctx Hkept Hfuel.
  - exists w. rewrite foreach_safe_done. simpl.
    rewrite (sessions_of_ARP_STATE _ _ _ Hctx). simpl.
    rewrite !app_nil_r. do 6 (split; [done|]). done.
  - destruct fuel as [|fuel]; [simpl in Hfuel; lia|].
    pose proof (sessions_of_ARP_STATE _ _ _ Hctx) as Hsess. simpl in Hsess.
    destruct (wf_live w ifp p Hwf) as (st & Hst & Hif).
    { rewrite Hsess. apply elem_of_app. right. by left. }
    rewrite head_cons, foreach_safe_step.
    rewrite (deref_Some _ _ st) by done. cbn [mbind res_bind].
    rewrite Hsess, (tailq_next_app _ _ _ Hnd).
    rewrite !filter_cons.
    destruct (decide (Some p = keep)) as [Hk|Hk].
    + (* the session to keep *)
      assert (arp_free_but1_body keep p w = Ok w) as ->.
      { unfold arp_free_but1_body. by rewrite decide_True. }
      rewrite (decide_False (P := Some p ≠ keep)) by tauto.
      cbn [mbind res_bind].
      assert (NoDup ((kept ++ [p]) ++ rest)) as Hnd'
        by by rewrite <- app_assoc.
      assert (ARP_STATE ifp w
              = Ok (Some {| fd := d; arp_states := (kept ++ [p]) ++ rest |}))
        as Hctx' by by rewrite <- app_assoc.
      assert (∀ q, q ∈ kept ++ [p] → Some q = keep) as Hkept'.
      { intros q [Hq| ->%list_elem_of_singleton]%elem_of_app; auto. }
      assert (length rest ≤ fuel)%nat as Hfuel' by (simpl in Hfuel; lia).
      destruct (IH (kept ++ [p]) w fuel d Hwf Hnd' Hctx' Hkept' Hfuel')
        as (w' & Hrun & Hrest).
      exists w'. split; [done|].
      rewrite <- !app_assoc in Hrest. exact Hrest.
    + (* a session to free *)
      assert (arp_free_but1_body keep p w = arp_free (Some p) w) as ->.
      { unfold arp_free_but1_body. by rewrite decide_False. }
      rewrite (decide_True (P := Some p ≠ keep)) by done.
      subst ifp.
      destruct (arp_free_effect p w st d (kept ++ p :: rest) Hwf Hst Hctx)
        as (w1 & Hfree & Hwf1 & Hh1 & Hs1 & Hfr1 & Hc1).
      rewrite Hfree. cbn [mbind res_bind].
      rewrite (filter_remove_middle _ _ _ Hnd) in Hc1.
      assert (NoDup (kept ++ rest)) as Hnd1.
      { apply NoDup_app in Hnd as (H1 & H2 & H3).
        apply NoDup_cons in H3 as [_ H3]. apply NoDup_app.
        split; [done|]. split; [|done].
        intros q Hq Hr. apply (H2 q Hq). by right. }
      assert (p ∉ rest) as Hprest.
      { apply NoDup_app in Hnd as (_ & _ & H3).
        by apply NoDup_cons in H3 as [H3 _]. }
      assert (sessions (iface st) w1 = kept ++ rest) as Hsess1.
      { by rewrite Hs1, Hsess, filter_remove_middle. }
      assert (∀ j, j ≠ iface st → sessions j w1 = sessions j w) as Hoth1.
      { intros j Hj. rewrite Hs1. apply filter_all. intros q Hq ->.
        destruct (wf_live _ _ _ Hwf Hq) as (st' & Hst' & Hif'). congruence. }
      assert (has_free_cb (heap w) p = free_cb st) as Hcb.
      { unfold has_free_cb. by rewrite Hst. }
      assert (∀ l : list nat, p ∉ l →
                filter (λ q, has_free_cb (heap w1) q) l
                = filter (λ q, has_free_cb (heap w) q) l) as Hsame.
      { intros l Hl. apply filter_ext_in. intros q Hq.
        unfold has_free_cb. rewrite Hh1, lookup_delete_ne; [done|].
        intros <-. done. }
      destruct (decide (kept ++ rest = [])) as [Hnil|Hnn].
      * (* the last session of the queue *)
        apply app_eq_nil in Hnil as [-> ->].
        exists w1. rewrite foreach_safe_done. simpl.
        split; [done|]. split; [done|]. split; [done|].
        split.
        { intros q. rewrite Hh1. destruct (decide (q = p)) as [->|Hne].
          - rewrite lookup_delete_eq. rewrite decide_True; [done|]. by left.
          - rewrite lookup_delete_ne by done.
            rewrite decide_False; [done|].
            by intros ->%list_elem_of_singleton. }
        split; [done|]. split.
        { rewrite Hfr1, filter_cons, Hcb. by destruct (free_cb st). }
        done.
      * destruct (IH kept w1 fuel d)
          as (w' & Hrun & Hwf' & Hs' & Hh' & Ho' & Hfr' & Hc'); try done.
        { by destruct Hc1. }
        { simpl in Hfuel. lia. }
        exists w'. split; [done|]. split; [done|]. split; [done|].
        split.
        { intros q. rewrite Hh', Hh1.
          destruct (decide (q = p)) as [->|Hne].
          - rewrite lookup_delete_eq.
            rewrite (decide_True (P := p ∈ p :: _)) by by left.
            by destruct (decide (p ∈ filter (λ q0, Some q0 ≠ keep) rest)).
          - rewrite lookup_delete_ne by done.
            destruct (decide (q ∈ filter (λ q0, Some q0 ≠ keep) rest)).
            + rewrite decide_True; [done|]. by right.
            + rewrite decide_False; [done|].
              intros [?|?]%elem_of_cons; done. }
        split.
        { intros j Hj. rewrite Ho' by done. by apply Hoth1. }
        split.
        { rewrite Hfr', Hfr1, <- app_assoc. f_equal.
          rewrite filter_cons, Hcb, Hsame.
          - by destruct (free_cb st).
          - intros [_ ?]%list_elem_of_filter. done. }
        rewrite decide_False by done.
        destruct Hc1 as [Hctx1 Hcl1].
        destruct (decide (filter (λ q, Some q ≠ keep) rest = [])) as [Hg|Hg].
        { subst w'.
          assert (filter (λ q, Some q = keep) rest = rest) as Hall.
          { apply filter_all. intros q Hq.
            destruct (decide (Some q = keep)) as [|Hn]; [done|].
            assert (q ∈ filter (λ q, Some q ≠ keep) rest) as Hin
              by by apply list_elem_of_filter.
            rewrite Hg in Hin. by apply elem_of_nil in Hin. }
          rewrite Hall. by rewrite decide_False. }
        destruct (decide (kept ++ filter (λ q, Some q = keep) rest = []));
          destruct Hc' as [Hx Hy]; (split; [done|]); by rewrite Hy, Hcl1.
Qed.

Lemma sessions_elem_ARP_STATE (ifp : ifindex) (w : world) (p : ptr) :
  p ∈ sessions ifp w →
  ∃ s, ARP_STATE ifp w = Ok (Some s) ∧ arp_states s = sessions ifp w.
Proof.
  unfold sessions, ARP_STATE, get_iface.
  destruct (ifaces w !! ifp) as [i|]; [|by intros ?%elem_of_nil].
  cbn [mbind res_bind].
  destruct (if_data_arp i) as [s|]; [|by intros ?%elem_of_nil].
  intros _. by exists s.
Qed.

Lemma filter_none {A} (P : A → Prop) `{!∀ x, Decision (P x)} (l : list A) :
  (∀ x, x ∈ l → ¬ P x) → filter P l = [].
Proof.
  induction l as [|x l IH]; intros Hall; [done|].
  rewrite filter_cons_False by (apply Hall; left).
  apply IH. intros y Hy. apply Hall. by right.
Qed.

Lemma filter_keep_one (l : list ptr) (p : ptr) :
  NoDup l → p ∈ l → filter (λ q, Some q = Some p) l = [p].
Proof.
  induction 1 as [|x l Hx Hnd IH]; [by intros ?%elem_of_nil|].
  rewrite filter_cons. intros [->|Hin]%elem_of_cons.
  - rewrite decide_True by done. f_equal.
    apply filter_none. intros q Hq [= ->]. done.
  - rewrite decide_False; [by apply IH|]. intros [= ->]. done.
Qed.

Lemma filter_keep_none (keep : option ptr) (l : list ptr) :
  keep = None →
  filter (λ q, Some q = keep) l = [] ∧ filter (λ q, Some q ≠ keep) l = l.
Proof.
  intros ->. split.
  - apply filter_none. by intros q _ ?.
  - by apply filter_all.
Qed.

(** X17: arp_free_but frees every other session of the interface of the
    session it is given, in queue order, each with its free callback when
    it has one, and spares that session: it is left alone on the queue, on
    a context that keeps its descriptor, which is not closed.  The queues
    of the other interfaces and all other sessions are untouched. *)
Theorem arp_free_but_keeps_one (p : ptr) (w : world) (st : arp_state) :
  wf w →
  heap w !! p = Some st →
  ∃ w' s,
    arp_free_but p w = Ok w'
    ∧ wf w'
    ∧ sessions (iface st) w' = [p]
    ∧ (∀ q, heap w' !! q
            = if decide (q ∈ filter (λ q, q ≠ p) (sessions (iface st) w))
              then None else heap w !! q)
    ∧ (∀ j, j ≠ iface st → sessions j w' = sessions j w)
    ∧ freed_calls (trace w')
      = freed_calls (trace w)
          ++ filter (λ q, has_free_cb (heap w) q)
               (filter (λ q, q ≠ p) (sessions (iface st) w))
    ∧ closed_calls (trace w') = closed_calls (trace w)
    ∧ ARP_STATE (iface st) w = Ok (Some s)
    ∧ ARP_STATE (iface st) w'
      = Ok (Some {| fd := fd s; arp_states := [p] |}).
Proof.
  intros Hwf Hp.
  pose proof (wf_queued _ _ _ Hwf Hp) as Hq.
  destruct (sessions_elem_ARP_STATE _ _ _ Hq) as (s & Hctx & Hl).
  pose proof (wf_nodup w (iface st) Hwf) as Hnd.
  assert (filter (λ q, Some q ≠ Some p) (sessions (iface st) w)
          = filter (λ q, q ≠ p) (sessions (iface st) w)) as Hne.
  { apply filter_ext_in. intros q _. split; [|congruence].
    intros Hn ->. done. }
  destruct (arp_free_but1_loop (iface st) (Some p) (sessions (iface st) w)
              [] w (length (sessions (iface st) w)) (fd s))
    as (w' & Hrun & Hwf' & Hs' & Hh' & Ho' & Hfr' & Hc'); try done.
  { simpl. rewrite Hctx. do 2 f_equal. destruct s. simpl in *. by subst. }
  { by intros q ?%elem_of_nil. }
  simpl in Hs', Hc'. rewrite filter_keep_one in Hs', Hc' by done.
  rewrite Hne in Hh', Hfr', Hc'.
  exists w', s. split.
  { unfold arp_free_but, arp_free_but1.
    rewrite (deref_Some _ _ st) by done. cbn [mbind res_bind].
    rewrite Hctx. cbn [mbind res_bind]. by rewrite Hl. }
  do 5 (split; [done|]).
  destruct (decide (filter (λ q, q ≠ p) (sessions (iface st) w) = []))
    as [He|He].
  - subst w'.
    split; [done|]. split; [done|].
    rewrite Hctx. do 2 f_equal. destruct s. simpl in *. congruence.
  - rewrite decide_False in Hc' by done. by destruct Hc'.
Qed.

Lemma arp_close_effect (ifp : ifindex) (w : world) (c : option iarp_state) :
  ARP_STATE ifp w = Ok c →
  ∃ w1,
    arp_close ifp w = Ok w1
    ∧ (∀ j, sessions j w1 = sessions j w)
    ∧ heap w1 = heap w
    ∧ freed_calls (trace w1) = freed_calls (trace w)
    ∧ closed_calls (trace w1)
      = closed_calls (trace w)
          ++ match c with
             | Some s => if decide (fd s = -1) then [] else [fd s]
             | None => []
             end
    ∧ ARP_STATE ifp w1
      = Ok (match c with
            | Some s => Some {| fd := -1; arp_states := arp_states s |}
            | None => None
            end).
Proof.
  intros Hctx. unfold arp_close. rewrite Hctx. cbn [mbind res_bind].
  destruct c as [s|].
  - destruct (decide (fd s = -1)) as [Hc|Ho].
    + exists w. rewrite app_nil_r. do 5 (split; [done|]).
      rewrite Hctx. do 2 f_equal. destruct s. simpl in *. by subst.
    + eexists. split; [reflexivity|].
      unfold ARP_STATE, get_iface in Hctx.
      destruct (ifaces w !! ifp) as [i|] eqn:Hi; [|done].
      cbn [mbind res_bind] in Hctx. injection Hctx as Hs.
      split.
      { intros j. rewrite sessions_set_ARP_STATE. case_decide as Hj.
        - destruct Hj as [-> _]. unfold sessions. simpl. by rewrite Hi, Hs.
        - done. }
      split; [done|].
      unfold ARP_STATE, get_iface. wsimpl.
      rewrite !freed_calls_app, !closed_calls_app. simpl.
      rewrite !app_nil_r. do 2 (split; [done|]).
      by rewrite list_lookup_alter_eq, Hi.
  - exists w. rewrite app_nil_r. done.
Qed.

Lemma wf_same_sessions (w w1 : world) :
  (∀ j, sessions j w1 = sessions j w) → heap w1 = heap w → wf w → wf w1.
Proof.
  intros Hs Hh Hwf. apply wf_intro.
  - intros j. rewrite Hs. by apply wf_nodup.
  - intros j q. rewrite Hs, Hh. by apply wf_live.
  - intros q st. rewrite Hs, Hh. by apply wf_queued.
Qed.

(** X18: arp_drop frees every session of the interface, in queue order,
    each with its free callback when it has one, and closes the descriptor
    of the interface exactly once when it is open.  Sessions and queues of
    the other interfaces are untouched.  The context is released with the
    last session; a context whose queue was empty already is not released
    but left behind closed.  A second arp_drop does nothing. *)
Theorem arp_drop_frees_all (ifp : ifindex) (w : world)
    (c : option iarp_state) :
  wf w →
  ARP_STATE ifp w = Ok c →
  ∃ w',
    arp_drop ifp w = Ok w'
    ∧ wf w'
    ∧ sessions ifp w' = []
    ∧ (∀ q, heap w' !! q
            = if decide (q ∈ sessions ifp w) then None else heap w !! q)
    ∧ (∀ j, j ≠ ifp → sessions j w' = sessions j w)
    ∧ freed_calls (trace w')
      = freed_calls (trace w)
          ++ filter (λ q, has_free_cb (heap w) q) (sessions ifp w)
    ∧ closed_calls (trace w')
      = closed_calls (trace w)
          ++ match c with
             | Some s => if decide (fd s = -1) then [] else [fd s]
             | None => []
             end
    ∧ ARP_STATE ifp w'
      = Ok (match c with
            | Some s =>
                if decide (arp_states s = []) then
                  Some {| fd := -1; arp_states := [] |}
                else None
            | None => None
            end)
    ∧ arp_drop ifp w' = Ok w'.
Proof.
  intros Hwf Hctx.
  assert (∀ w0, ARP_STATE ifp w0 = Ok None → arp_drop ifp w0 = Ok w0)
    as Hnone.
  { intros w0 H0. unfold arp_drop, arp_free_but1, arp_close.
    rewrite H0. cbn [mbind res_bind]. rewrite H0. done. }
  destruct c as [s|].
  2:{ exists w. split; [by apply Hnone|]. split; [done|].
      assert (sessions ifp w = []) as Hs.
      { unfold sessions. unfold ARP_STATE, get_iface in Hctx.
        destruct (ifaces w !! ifp) as [i|]; [|done].
        cbn [mbind res_bind] in Hctx. by injection Hctx as ->. }
      rewrite Hs, !app_nil_r. split; [done|].
      split. { intros q. rewrite decide_False; [done|]. apply not_elem_of_nil. }
      do 4 (split; [done|]). by apply Hnone. }
  pose proof (sessions_of_ARP_STATE _ _ _ Hctx) as Hl.
  pose proof (wf_nodup w ifp Hwf) as Hnd.
  destruct (filter_keep_none None (sessions ifp w) eq_refl) as [Hf0 Hf1].
  destruct (arp_free_but1_loop ifp None (sessions ifp w)
              [] w (length (sessions ifp w)) (fd s))
    as (w1 & Hrun & Hwf1 & Hs1 & Hh1 & Ho1 & Hfr1 & Hc1); try done.
  { simpl. rewrite Hctx. do 2 f_equal. destruct s. simpl in *. by subst. }
  { by intros q ?%elem_of_nil. }
  cbn [app] in Hs1, Hc1. rewrite Hf0 in Hs1, Hc1. rewrite Hf1 in Hh1, Hfr1, Hc1.
  assert (arp_free_but1 ifp None w = Ok w1) as Hbut.
  { unfold arp_free_but1. rewrite Hctx. cbn [mbind res_bind].
    by rewrite <- Hl. }
  rewrite <- Hl.
  destruct (decide (sessions ifp w = [])) as [He|He].
  - (* an empty queue: nothing to free, the context stays *)
    subst w1.
    destruct (arp_close_effect ifp w (Some s) Hctx)
      as (w2 & Hcl & Hs2 & Hh2 & Hfr2 & Hcc2 & Hctx2).
    exists w2. split.
    { unfold arp_drop. rewrite Hbut. done. }
    split; [by apply (wf_same_sessions w)|].
    split; [by rewrite Hs2|].
    split. { intros q. rewrite Hh2, He. rewrite decide_False; [done|].
             apply not_elem_of_nil. }
    split; [by intros j _|].
    split; [by rewrite Hfr2, He, app_nil_r|].
    split; [done|].
    assert (ARP_STATE ifp w2 = Ok (Some {| fd := -1; arp_states := [] |}))
      as Hctx2' by by rewrite Hctx2, <- Hl, He.
    split; [done|].
    unfold arp_drop, arp_free_but1. rewrite Hctx2'. cbn [mbind res_bind].
    simpl. unfold arp_close. rewrite Hctx2'. cbn [mbind res_bind].
    by rewrite decide_True.
  - (* the last arp_free releases the context and closes the descriptor *)
    rewrite decide_True in Hc1 by done. destruct Hc1 as [Hctx1 Hcc1].
    exists w1. split.
    { unfold arp_drop. rewrite Hbut. cbn [mbind res_bind].
      unfold arp_close. by rewrite Hctx1. }
    do 6 (split; [done|]). split; [done|]. by apply Hnone.
Qed.

(** ** Frames that concern no session *)

Lemma foreach_safe_idle (ifp : ifindex) (body : ptr → world → res world)
    (w : world) (suffix : list ptr) :
  ∀ (pre : list ptr) (fuel : nat),
  sessions ifp w = pre ++ suffix →
  NoDup (pre ++ suffix) →
  (∀ p, p ∈ suffix → is_Some (heap w !! p) ∧ body p w = Ok w) →
  (length suffix ≤ fuel)%nat →
  foreach_safe fuel ifp body (head suffix) w = Ok w.
Proof.
  induction suffix as [|p rest IH]; intros pre fuel Hs Hnd Hbody Hfuel.
  - apply foreach_safe_done.
  - destruct fuel as [|fuel]; [simpl in Hfuel; lia|].
    destruct (Hbody p) as [[st Hst] Hp]; [by left|].
    rewrite head_cons, foreach_safe_step, (deref_Some _ _ st) by done.
    cbn [mbind res_bind]. rewrite Hp. cbn [mbind res_bind].
    rewrite Hs, (tailq_next_app _ _ _ Hnd).
    apply (IH (pre ++ [p])).
    + by rewrite <- app_assoc.
    + by rewrite <- app_assoc.
    + intros q Hq. apply Hbody. by right.
    + simpl in Hfuel. lia.
Qed.

(** X22: a frame that decodes to a message has no effect at all when every
    session of the interface either has another address than the sender
    and target addresses of the message, or has no conflicted callback:
    nothing is called, freed or sent, and the world is as before. *)
Theorem arp_packet_without_match (ifp : ifindex) (arm0 arm : arp_msg)
    (data : list byte) (w : world) (s : iarp_state) :
  wf w →
  ARP_STATE ifp w = Ok (Some s) →
  arp_decode (ifaces w) arm0 data = Ok (Message arm) →
  (∀ p st, p ∈ arp_states s → heap w !! p = Some st →
           ¬ matches arm st ∨ conflicted_cb st = None) →
  arp_packet ifp arm0 data w = Ok w.
Proof.
  intros Hwf Hctx Hdec Hno.
  rewrite (arp_packet_message _ _ arm) by done.
  unfold arp_conflicts. rewrite Hctx. cbn [mbind res_bind].
  pose proof (sessions_of_ARP_STATE _ _ _ Hctx) as Hs.
  apply (foreach_safe_idle ifp _ w (arp_states s) []); try done.
  - simpl. rewrite <- Hs. by apply wf_nodup.
  - intros p Hp. rewrite <- Hs in Hp.
    destruct (wf_live w ifp p Hwf Hp) as (st & Hst & _).
    split; [by exists st|].
    unfold conflict_body. rewrite (deref_Some _ _ st) by done.
    cbn [mbind res_bind]. rewrite Hs in Hp.
    destruct (Hno p st Hp Hst) as [Hm| ->].
    + rewrite decide_True; [done|]. unfold matches in Hm.
      split; intros ?; apply Hm; auto.
    + by destruct (decide _).
Qed.

(** ** Reading the descriptor: arp_read *)

Lemma arp_read_loop_frame (data : list byte) (eof : bool) (arm0 : arp_msg)
    (rest : list (bpf_read_result * arp_msg)) (ifp : ifindex) (w : world) :
  arp_read_loop ((ReadFrame data eof, arm0) :: rest) ifp w
  = arp_packet ifp arm0 data w ≫= λ w1,
      ARP_STATE ifp w1 ≫= λ s,
        match s with
        | None => Ok w1
        | Some s =>
            if decide (fd s = -1) then Ok w1
            else if eof then Ok w1 else arp_read_loop rest ifp w1
        end.
Proof. reflexivity. Qed.

Lemma arp_read_loop_passes (ifp : ifindex) (w : world) (s : iarp_state)
    (pre rest : list (bpf_read_result * arp_msg)) :
  ARP_STATE ifp w = Ok (Some s) →
  fd s ≠ -1 →
  Forall (passes ifp w) pre →
  arp_read_loop (pre ++ rest) ifp w = arp_read_loop rest ifp w.
Proof.
  intros Hctx Hfd.
  induction 1 as [|[[|data [|]] arm0] pre Hp _ IH]; try done.
  rewrite <- app_comm_cons, arp_read_loop_frame.
  unfold passes in Hp. rewrite Hp. cbn [mbind res_bind].
  rewrite Hctx. cbn [mbind res_bind].
  by rewrite decide_False.
Qed.

(** X19: when bpf_read fails, arp_read closes the descriptor of the
    interface and returns: the descriptor is taken from the event loop and
    closed, the context keeps its queue with -1 for descriptor, sessions
    and timers are untouched, and what was still to be read is not read. *)
Theorem arp_read_error_closes (ifp : ifindex) (w : world) (s : iarp_state)
    (pre rest : list (bpf_read_result * arp_msg)) (arm0 : arp_msg) :
  ARP_STATE ifp w = Ok (Some s) →
  fd s ≠ -1 →
  Forall (passes ifp w) pre →
  ∃ w1,
    arp_read (pre ++ (ReadFailed, arm0) :: rest) ifp w = Ok w1
    ∧ ARP_STATE ifp w1
      = Ok (Some {| fd := -1; arp_states := arp_states s |})
    ∧ (∀ j, sessions j w1 = sessions j w)
    ∧ heap w1 = heap w
    ∧ timers w1 = timers w
    ∧ trace w1
      = trace w ++ [(now w, EvEventDelete (fd s)); (now w, EvBpfClose (fd s))].
Proof.
  intros Hctx Hfd Hpre.
  destruct (arp_close_effect ifp w (Some s) Hctx)
    as (w1 & Hcl & Hs1 & Hh1 & _ & _ & Hctx1).
  exists w1. split.
  { unfold arp_read. rewrite Hctx. cbn [mbind res_bind].
    by rewrite (arp_read_loop_passes ifp w s). }
  do 3 (split; [done|]).
  unfold arp_close in Hcl. rewrite Hctx in Hcl. cbn [mbind res_bind] in Hcl.
  rewrite decide_False in Hcl by done. injection Hcl as <-. wsimpl.
  by rewrite <- app_assoc.
Qed.


(** X21: a frame that conflicts with the only session of the interface,
    whose owner answers the conflict by freeing that session, ends
    arp_read: the callback is called once, the session is freed, the
    context is released and its descriptor closed, and arp_read returns
    without touching the context again, whether or not the buffer holds
    more frames. *)
Theorem arp_read_survives_last_free (ifp : ifindex) (w : world) (p : ptr)
    (st : arp_state) (s : iarp_state) (cb : arp_msg → list ptr)
    (data : list byte) (eof : bool) (arm0 arm : arp_msg)
    (rest : list (bpf_read_result * arp_msg)) :
  wf w →
  ARP_STATE ifp w = Ok (Some s) →
  arp_states s = [p] →
  heap w !! p = Some st →
  arp_decode (ifaces w) arm0 data = Ok (Message arm) →
  matches arm st →
  conflicted_cb st = Some cb →
  cb arm = [p] →
  ∃ w1,
    arp_read ((ReadFrame data eof, arm0) :: rest) ifp w = Ok w1
    ∧ ARP_STATE ifp w1 = Ok None
    ∧ heap w1 = delete p (heap w)
    ∧ conflicted_calls (trace w1) = conflicted_calls (trace w) ++ [p]
    ∧ freed_calls (trace w1)
      = freed_calls (trace w) ++ (if free_cb st then [p] else [])
    ∧ closed_calls (trace w1)
      = closed_calls (trace w) ++ (if decide (fd s = -1) then [] else [fd s]).
Proof.
  intros Hwf Hctx Hq Hp Hdec Hm Hcb Hfree.
  pose proof (sessions_of_ARP_STATE _ _ _ Hctx) as Hsess. rewrite Hq in Hsess.
  destruct (wf_live w ifp p Hwf) as (st' & Hst' & Hif).
  { rewrite Hsess. by left. }
  assert (st' = st) as -> by congruence.
  set (w0 := log (EvConflicted p arm) w).
  assert (wf w0) as Hwf0 by by apply (wf_same_sessions w).
  destruct (arp_free_effect p w0 st (fd s) [p] Hwf0 Hp)
    as (w1 & Hfr & Hwf1 & Hh1 & Hs1 & Hfc1 & Hc1).
  { rewrite Hif. change (ARP_STATE ifp w0) with (ARP_STATE ifp w).
    rewrite Hctx. do 2 f_equal. destruct s. simpl in *. by subst. }
  rewrite filter_cons_False, filter_nil in Hc1 by (by intros ?).
  rewrite decide_True in Hc1 by done. rewrite Hif in Hc1.
  destruct Hc1 as [Hctx1 Hcc1].
  assert (arp_packet ifp arm0 data w = Ok w1) as Hpkt.
  { rewrite (arp_packet_message _ _ arm) by done.
    unfold arp_conflicts. rewrite Hctx. cbn [mbind res_bind].
    rewrite Hq. cbn [length head].
    rewrite foreach_safe_step, (deref_Some _ _ st) by done.
    cbn [mbind res_bind]. rewrite Hsess.
    unfold conflict_body. rewrite (deref_Some _ _ st) by done.
    cbn [mbind res_bind].
    rewrite decide_False by (unfold matches in Hm; tauto).
    rewrite Hcb, Hfree, owner_frees_cons. fold w0. rewrite Hfr.
    cbn [mbind res_bind owner_frees].
    simpl. by rewrite decide_True. }
  exists w1. split.
  { unfold arp_read. rewrite Hctx. cbn [mbind res_bind].
    rewrite arp_read_loop_frame, Hpkt. cbn [mbind res_bind].
    by rewrite Hctx1. }
  split; [done|]. split; [done|].
  split.
  { destruct (arp_free_wf p w0 Hwf0) as (w1' & Hfr' & _ & _ & _ & Hcc');
      [done|].
    assert (w1' = w1) as -> by congruence.
    rewrite Hcc'. unfold w0. simpl. by rewrite conflicted_calls_app. }
  split.
  { rewrite Hfc1. unfold w0. simpl. rewrite freed_calls_app. simpl.
    by rewrite app_nil_r. }
  rewrite Hcc1. unfold w0. simpl. rewrite closed_calls_app. simpl.
  by rewrite app_nil_r.
Qed.

End arp.

(** * The theorems at work on concrete worlds

    The hardware address arrays are taken 20 bytes long. *)

(** An 8-byte buffer whose header claims 255-byte hardware addresses. *)
Lemma forged_frame_rejected :
  arp_decode (ifaces world_A_B) (msg 0 0) forged_frame = Ok Truncated
  ∧ arp_packet 0 (msg 0 0) forged_frame world_A_B = Ok world_A_B.
Proof.
  apply (arp_packet_rejects_before_reading_past 0 (msg 0 0) forged_frame
           world_A_B); reflexivity.
Defined.

(** A frame whose sender is the interface itself. *)
Lemma own_frame_ignored :
  arp_packet 0 (msg 0 0) own_frame world_A_B = Ok world_A_B
  ∧ ∀ arm, arp_decode (ifaces world_A_B) (msg 0 0) own_frame
           ≠ Ok (Message arm).
Proof.
  apply (arp_packet_ignores_self 0 (msg 0 0) own_frame world_A_B
           {| ar_hrd := 1; ar_pro := 2048; ar_hln := 6; ar_pln := 4;
              ar_op := 2 |}
           (eth0 (Some {| fd := 3; arp_states := [1; 2]%nat |}))).
  - reflexivity.
  - apply list_elem_of_here.
  - reflexivity.
  - reflexivity.
Defined.

(** Freeing one of two sessions: the other stays queued, the descriptor
    stays open and the filter is refreshed. *)
Lemma free_one_of_two :
  ∃ w',
    arp_free (Some 1%nat) world_A_B = Ok w'
    ∧ timers w' = []
    ∧ heap w' = delete 1%nat (heap world_A_B)
    ∧ sessions 0 w' = [2%nat]
    ∧ ARP_STATE 0 w' = Ok (Some {| fd := 3; arp_states := [2%nat] |})
    ∧ trace w' = [(0, EvFreed 1%nat); (0, EvBpfFilter 0%nat 3)].
Proof.
  destruct (arp_free_releases 1%nat (owned addr_A (Some (λ _, [])))
              (eth0 (Some {| fd := 3; arp_states := [1; 2]%nat |}))
              {| fd := 3; arp_states := [1; 2]%nat |} world_A_B)
    as (w' & H1 & H2 & H3 & H4 & H5).
  - reflexivity.
  - reflexivity.
  - reflexivity.
  - apply list_elem_of_here.
  - exists w'. repeat split; try assumption; apply H5.
Defined.

(** arp_new twice for the same address on an interface without context. *)
Lemma new_twice_on_bare_interface :
  match arp_new 0 (Some addr_A) (world_bare quiet) with
  | Ok (Some p, w1) =>
      arp_new 0 (Some addr_A) w1 = Ok (Some p, w1)
      ∧ p ∈ sessions 0 w1
      ∧ (sessions 0 (world_bare quiet) = [] → sessions 0 w1 = [p])
  | _ => False
  end.
Proof.
  destruct (arp_new 0 (Some addr_A) (world_bare quiet))
    as [[[p|] w1]|] eqn:E.
  - exact (arp_new_idempotent 0%nat addr_A (world_bare quiet) w1 p E).
  - vm_compute in E. discriminate E.
  - vm_compute in E. discriminate E.
Defined.

(** Sessions for A and B; a message with sender IP A and target IP C. *)
Lemma only_A_is_called :
  ∃ w' calls,
    arp_conflicts 0 (msg addr_A addr_C) world_A_B = Ok w'
    ∧ conflicted_calls (trace w') = conflicted_calls (trace world_A_B) ++ calls
    ∧ calls = [1%nat].
Proof.
  destruct (arp_conflicts_calls_matching 0%nat (msg addr_A addr_C) world_A_B
              (eth0 (Some {| fd := 3; arp_states := [1; 2]%nat |}))
              {| fd := 3; arp_states := [1; 2]%nat |})
    as (w' & calls & H1 & H2 & H3 & _).
  - apply (bool_decide_unpack _). vm_compute. exact I.
  - reflexivity.
  - reflexivity.
  - intros p Hp. apply elem_of_cons in Hp as [->|Hp]; [by left|].
    apply list_elem_of_singleton in Hp as ->. by left.
  - exists w', calls. split; [exact H1|]. split; [exact H2|]. exact H3.
Defined.

(** C4, against the claim as it stands: the callback of the first session
    frees the session queued after it;
    the loop goes on from the freed session, and the third session, which
    matches and was never freed, is not called. *)
Lemma freeing_the_next_session_breaks_dispatch :
  is_Some (heap world_frees_next !! 3%nat)
  ∧ called (heap world_frees_next) (msg addr_A 0) 3%nat = true
  ∧ arp_conflicts 0 (msg addr_A 0) world_frees_next = Err UseAfterFree
  ∧ ¬ ∃ w', arp_conflicts 0 (msg addr_A 0) world_frees_next = Ok w'
            ∧ 3%nat ∈ conflicted_calls (trace w').
Proof.
  assert (arp_conflicts 0 (msg addr_A 0) world_frees_next
          = Err UseAfterFree) as E by (vm_compute; reflexivity).
  split; [by eexists|]. split; [reflexivity|]. split; [exact E|].
  intros (w' & Hrun & _). rewrite E in Hrun. discriminate Hrun.
Qed.

(** The first callback frees its own session and the third, the fourth
    frees the second: the dispatch completes; the third, freed before its
    turn, is passed over; the second, freed after its turn, is called. *)
Lemma frees_before_and_after_turn :
  ∃ w' calls,
    arp_conflicts 0 (msg addr_A 0) world_frees_others = Ok w'
    ∧ conflicted_calls (trace w')
      = conflicted_calls (trace world_frees_others) ++ calls
    ∧ calls = [1; 2; 4]%nat
    ∧ NoDup calls
    ∧ calls `sublist_of` [1; 2; 3; 4]%nat
    ∧ (∀ p, p ∈ calls →
            p ∈ [1; 2; 3; 4]%nat
            ∧ called (heap world_frees_others) (msg addr_A 0) p = true)
    ∧ (∀ p, p ∈ [1; 2; 3; 4]%nat →
            called (heap world_frees_others) (msg addr_A 0) p = true →
            (p ∈ calls
             ∧ ∀ q, q ∈ calls → queued_before q p [1; 2; 3; 4]%nat →
                    p ∉ frees (heap world_frees_others) (msg addr_A 0) q)
            ∨ ((p ∉ calls)
               ∧ ∃ q, q ∈ calls
                      ∧ queued_before q p [1; 2; 3; 4]%nat
                      ∧ p ∈ frees (heap world_frees_others)
                              (msg addr_A 0) q)).
Proof.
  destruct (arp_conflicts_survives_frees 0%nat (msg addr_A 0)
              world_frees_others
              (eth0 (Some {| fd := 3; arp_states := [1; 2; 3; 4]%nat |}))
              {| fd := 3; arp_states := [1; 2; 3; 4]%nat |})
    as (w' & calls & H1 & H2 & H3 & H4 & H5 & H6).
  - apply (bool_decide_unpack _). vm_compute. exact I.
  - reflexivity.
  - reflexivity.
  - cbn. repeat split; apply (bool_decide_unpack _); vm_compute; exact I.
  - exists w', calls. split; [exact H1|]. split; [exact H2|].
    split; [|split; [exact H3|split; [exact H4|split; [exact H5|exact H6]]]].
    vm_compute in H1. injection H1 as <-. vm_compute in H2.
    symmetry. exact H2.
Defined.

(** arp_probe on an interface whose descriptor is still closed. *)
Lemma probe_on_closed_interface :
  ∃ w0 w' d1 d2,
    arp_probe 20 1 world_closed = Ok w0
    ∧ eloop_run 20 4 w0 = Ok w'
    ∧ PROBE_MIN * NSEC_PER_SEC ≤ d1 < PROBE_MAX * NSEC_PER_SEC
    ∧ PROBE_MIN * NSEC_PER_SEC ≤ d2 < PROBE_MAX * NSEC_PER_SEC
    ∧ trace w' =
        [(0, EvBpfOpen 0%nat 3); (0, EvEventAdd 3); (0, EvBpfFilter 0%nat 3);
         (0, EvBpfSend 0%nat 3 ETHERTYPE_ARP
               (request_frame (eth0 None) INADDR_ANY addr_A));
         (d1, EvBpfSend 0%nat 3 ETHERTYPE_ARP
                (request_frame (eth0 None) INADDR_ANY addr_A));
         (d1 + d2, EvBpfSend 0%nat 3 ETHERTYPE_ARP
                     (request_frame (eth0 None) INADDR_ANY addr_A));
         (d1 + d2 + ANNOUNCE_WAIT * NSEC_PER_SEC, EvProbed 1%nat)]
    ∧ timers w' = [].
Proof.
  destruct (arp_probe_three_probes_then_probed 20 1%nat world_closed
              (owned addr_A (Some (λ _, [])))
              (eth0 (Some {| fd := -1; arp_states := [1%nat] |}))
              {| fd := -1; arp_states := [1%nat] |})
    as (w0 & w' & d1 & d2 & H1 & H2 & H3 & H4 & [H5 H6] & H7 & _).
  - reflexivity.
  - reflexivity.
  - reflexivity.
  - vm_compute. lia.
  - vm_compute. discriminate.
  - reflexivity.
  - reflexivity.
  - exists w0, w', d1, d2.
    split; [exact H1|]. split; [exact H2|]. split; [exact H3|].
    split; [exact H4|]. split; [|exact H7].
    rewrite H6, H5. reflexivity.
Defined.

(** C2, where the code departs from it: a session as arp_new makes it,
    which has no probed callback, probed for on an interface whose
    transport opens.  Up to the third send all goes as the claim says: the
    first probe leaves at once, two more follow, each after a delay in
    [PROBE_MIN, PROBE_MAX) seconds, every one an ARP request with sender
    IP 0.0.0.0 and the address of the session as target IP, and arp_probed
    is set to run ANNOUNCE_WAIT seconds after the third.  But arp_probed
    calls probed_cb without testing it, where arp_announced tests
    announced_cb: the call goes through a null pointer, the run of the
    event loop does not complete, and no probed callback fires. *)
Theorem arp_probe_of_new_session_calls_null :
  ∃ p w1 w0 wa wb d1 d2,
    arp_new 0 (Some addr_A) (world_bare quiet) = Ok (Some p, w1)
    ∧ heap w1 !! p = Some (new_state 0 (Some addr_A))
    ∧ arp_probe 20 p w1 = Ok w0
    ∧ eloop_step 20 w0 = Ok (Some wa)
    ∧ eloop_step 20 wa = Ok (Some wb)
    ∧ PROBE_MIN * NSEC_PER_SEC ≤ d1 < PROBE_MAX * NSEC_PER_SEC
    ∧ PROBE_MIN * NSEC_PER_SEC ≤ d2 < PROBE_MAX * NSEC_PER_SEC
    ∧ (let probe := EvBpfSend 0%nat 3 ETHERTYPE_ARP
                      (request_frame (eth0 None) INADDR_ANY addr_A) in
       trace wb
       = trace w1
           ++ [(0, EvBpfOpen 0%nat 3); (0, EvEventAdd 3);
               (0, EvBpfFilter 0%nat 3);
               (0, probe); (d1, probe); (d1 + d2, probe)])
    ∧ timers wb
      = [{| t_when := d1 + d2 + ANNOUNCE_WAIT * NSEC_PER_SEC;
            t_handler := H_arp_probed; t_arg := p |}]
    ∧ heap wb !! p = Some (with_probes PROBE_NUM (new_state 0 (Some addr_A)))
    ∧ eloop_step 20 wb = Err NullDeref
    ∧ ∀ k, eloop_run 20 (3 + k) w0 = Err NullDeref.
Proof.
  assert (∃ p w1,
            arp_new 0 (Some addr_A) (world_bare quiet) = Ok (Some p, w1))
    as (p & w1 & E1) by (do 2 eexists; vm_compute; reflexivity).
  assert (∃ w0, arp_probe 20 p w1 = Ok w0) as [w0 E2].
  { vm_compute in E1. simplify_eq. eexists. vm_compute. reflexivity. }
  assert (∃ wa, eloop_step 20 w0 = Ok (Some wa)) as [wa E3].
  { vm_compute in E1. simplify_eq. vm_compute in E2. simplify_eq.
    eexists. vm_compute. reflexivity. }
  assert (∃ wb, eloop_step 20 wa = Ok (Some wb)) as [wb E4].
  { vm_compute in E1. simplify_eq. vm_compute in E2. simplify_eq.
    vm_compute in E3. simplify_eq. eexists. vm_compute. reflexivity. }
  assert (∀ k, eloop_run 20 (3 + k) w0 = Err NullDeref
               ∧ eloop_step 20 wb = Err NullDeref) as Hrun.
  { intros k. change (3 + k)%nat with (S (S (S k))).
    assert (eloop_step 20 wb = Err NullDeref) as E5.
    { vm_compute in E1. simplify_eq. vm_compute in E2. simplify_eq.
      vm_compute in E3. simplify_eq. vm_compute in E4. simplify_eq.
      vm_compute. reflexivity. }
    split; [|exact E5].
    rewrite eloop_run_step, E3. cbn [mbind res_bind].
    rewrite eloop_run_step, E4. cbn [mbind res_bind].
    by rewrite eloop_run_step, E5. }
  exists p, w1, w0, wa, wb, 1500000321, 1500000321.
  split; [exact E1|].
  split.
  { vm_compute in E1. simplify_eq. vm_compute. reflexivity. }
  split; [exact E2|]. split; [exact E3|]. split; [exact E4|].
  split; [unfold PROBE_MIN, PROBE_MAX, NSEC_PER_SEC; lia|].
  split; [unfold PROBE_MIN, PROBE_MAX, NSEC_PER_SEC; lia|].
  split; [|split; [|split; [|split]]].
  5: exact (λ k, proj1 (Hrun k)).
  4: exact (proj2 (Hrun 0%nat)).
  all: vm_compute in E1; simplify_eq; vm_compute in E2; simplify_eq;
    vm_compute in E3; simplify_eq; vm_compute in E4; simplify_eq;
    vm_compute; reflexivity.
Qed.

(** arp_announce on the same interface. *)
Lemma announce_on_closed_interface :
  ∃ w0 w',
    arp_announce 20 1 world_closed = Ok w0
    ∧ eloop_run 20 3 w0 = Ok w'
    ∧ conflicted_calls (trace w') = []
    ∧ length (trace w') = 5%nat
    ∧ last (trace w') = Some (4000000000, EvAnnounced 1%nat)
    ∧ timers w' = []
    ∧ sessions 0 w' = [1%nat]
    ∧ heap w' !! 1%nat
      = Some (with_claims ANNOUNCE_NUM (owned addr_A (Some (λ _, [])))).
Proof.
  destruct (arp_announce_two_announcements 20 1%nat world_closed
              (owned addr_A (Some (λ _, [])))
              (eth0 (Some {| fd := -1; arp_states := [1%nat] |}))
              {| fd := -1; arp_states := [1%nat] |})
    as (w0 & w' & H1 & H2 & [H3 H4] & H5 & H6 & _ & H7).
  - reflexivity.
  - reflexivity.
  - reflexivity.
  - apply list_elem_of_here.
  - vm_compute. lia.
  - vm_compute. discriminate.
  - reflexivity.
  - exists w0, w'. split; [exact H1|]. split; [exact H2|].
    rewrite H4, H3. repeat split; try assumption.
Defined.

(** ** Further properties at work *)

(** The announcement of a peer, as the interface of world_A_B reads it. *)
Lemma peer_announcement_decoded :
  arp_decode (ifaces world_A_B) fresh_arm frame_claiming_A
  = Ok (Message arm_claiming_A).
Proof.
  apply (arp_request_frame_decodes 20 peer addr_A addr_A frame_claiming_A
           (ifaces world_A_B) fresh_arm).
  - reflexivity.
  - vm_compute. lia.
  - intros ifn Hin. apply list_elem_of_singleton in Hin as ->. discriminate.
  - vm_compute. lia.
  - vm_compute. lia.
Defined.

(** A request on an Ethernet interface is 28 bytes long. *)
Lemma ethernet_request_fits :
  if decide (hwlen (eth0 (Some {| fd := 3; arp_states := [1; 2]%nat |}))
             ≤ 20)%nat
  then
    ∃ f, arp_request 20 0 0 addr_A world_A_B
         = Ok (42, log (EvBpfSend 0%nat 3 ETHERTYPE_ARP f) (bump world_A_B))
         ∧ length f = 28%nat
         ∧ (length f ≤ ARP_LEN 20)%nat
  else arp_request 20 0 0 addr_A world_A_B = Ok (-1, world_A_B).
Proof.
  apply (arp_request_fits_or_refuses 20 0%nat 0 addr_A world_A_B
           (eth0 (Some {| fd := 3; arp_states := [1; 2]%nat |}))
           {| fd := 3; arp_states := [1; 2]%nat |}); reflexivity.
Defined.

(** The announcement of a peer fits the buffer and is taken apart, all
    four copies made, without fault. *)
Lemma peer_announcement_decoded_in_bounds :
  ∃ d,
    arp_decode (ifaces world_A_B) fresh_arm frame_claiming_A = Ok d
    ∧ d = Message arm_claiming_A.
Proof.
  destruct (arp_decode_within_arp_len 20 (ifaces world_A_B) fresh_arm
              frame_claiming_A) as [d Hd].
  - vm_compute. lia.
  - reflexivity.
  - reflexivity.
  - intros ar Har. vm_compute in Har. injection Har as <-. reflexivity.
  - exists d. split; [exact Hd|].
    vm_compute in Hd. injection Hd as <-. reflexivity.
Defined.

(** What the message read from the announcement of the peer holds. *)
Lemma peer_announcement_content :
  ∃ ar,
    read_arphdr frame_claiming_A = Ok ar
    ∧ (sizeof_arphdr + 2 * (ar_hln ar + ar_pln ar)
       ≤ length frame_claiming_A)%nat
    ∧ take (ar_hln ar) (sha arm_claiming_A) = hwaddr peer
    ∧ sip arm_claiming_A = addr_A
    ∧ tip arm_claiming_A = addr_A
    ∧ op arm_claiming_A = op fresh_arm.
Proof.
  destruct (arp_decode_message (ifaces world_A_B) fresh_arm arm_claiming_A
              frame_claiming_A)
    as (ar & H1 & H2 & _ & _ & _ & _ & H7).
  - reflexivity.
  - exists ar. split; [exact H1|]. split; [exact H2|].
    vm_compute in H1. injection H1 as <-.
    split; [reflexivity|]. split; [reflexivity|]. split; [reflexivity|].
    exact H7.
Defined.

(** Opening twice. *)
Lemma open_twice :
  match arp_open 0 world_closed with
  | Ok (r, w1) => r = 3 ∧ arp_open 0 w1 = Ok (r, w1)
  | Err _ => False
  end.
Proof.
  destruct (arp_open 0 world_closed) as [[r w1]|] eqn:E.
  - assert (r = 3) as Hr by (vm_compute in E; congruence).
    split; [exact Hr|].
    apply (arp_open_idempotent 0%nat world_closed w1 r E). lia.
  - vm_compute in E. discriminate E.
Defined.

(** Opening when bpf_open fails. *)
Lemma open_without_bpf :
  ∃ w1,
    arp_open 0 world_no_bpf = Ok (-1, w1)
    ∧ ARP_STATE 0 w1 = Ok (Some {| fd := -1; arp_states := [1%nat] |})
    ∧ ifaces w1 = ifaces world_no_bpf
    ∧ heap w1 = heap world_no_bpf
    ∧ timers w1 = []
    ∧ trace w1 = [(0, EvBpfOpen 0%nat (-1))].
Proof.
  apply (arp_open_failure 0%nat world_no_bpf
           {| fd := -1; arp_states := [1%nat] |}); reflexivity.
Defined.

(** Closing twice. *)
Lemma close_twice :
  ∃ w1,
    arp_close 0 world_A_B = Ok w1
    ∧ arp_close 0 w1 = Ok w1
    ∧ sessions 0 w1 = [1; 2]%nat
    ∧ ARP_STATE 0 w1 = Ok (Some {| fd := -1; arp_states := [1; 2]%nat |})
    ∧ trace w1 = [(0, EvEventDelete 3); (0, EvBpfClose 3)].
Proof.
  destruct (arp_close_closes_once 0%nat world_A_B
              (eth0 (Some {| fd := 3; arp_states := [1; 2]%nat |})))
    as (w1 & H1 & H2 & H3 & _ & _ & H4 & H5).
  - reflexivity.
  - exists w1. split; [exact H1|]. split; [exact H2|].
    split; [exact H3|]. split; [exact H4|]. exact H5.
Defined.

(** Probing and announcing when bpf_open fails. *)
Lemma probe_and_announce_without_bpf :
  ∃ w1,
    arp_probe 20 1 world_no_bpf = Ok w1
    ∧ arp_announce 20 1 world_no_bpf = Ok w1
    ∧ heap w1 = heap world_no_bpf
    ∧ timers w1 = []
    ∧ ifaces w1 = ifaces world_no_bpf
    ∧ trace w1 = [(0, EvBpfOpen 0%nat (-1))].
Proof.
  apply (arp_probe_announce_without_transport 20 1%nat world_no_bpf
           (owned addr_A (Some (λ _, [])))
           (eth0 (Some {| fd := -1; arp_states := [1%nat] |}))
           {| fd := -1; arp_states := [1%nat] |}); reflexivity.
Defined.

(** Probing for a session that has no probed callback. *)
Lemma probe_without_callback :
  ∃ w0,
    arp_probe 20 1 world_no_callbacks = Ok w0
    ∧ eloop_run 20 4 w0 = Err NullDeref.
Proof.
  destruct (arp_probe_without_probed_cb 20 1%nat world_no_callbacks
              (new_state 0 (Some addr_A))
              (eth0 (Some {| fd := -1; arp_states := [1%nat] |}))
              {| fd := -1; arp_states := [1%nat] |})
    as (w0 & w1 & w2 & d1 & d2 & H1 & _ & _ & _ & _ & H6).
  - reflexivity.
  - reflexivity.
  - reflexivity.
  - vm_compute. lia.
  - vm_compute. discriminate.
  - reflexivity.
  - reflexivity.
  - exists w0. split; [exact H1|]. exact (H6 1%nat).
Defined.

(** Cancelling after the first probe. *)
Lemma cancel_after_first_probe :
  ∃ w0 w1,
    arp_probe 20 1 world_closed = Ok w0
    ∧ arp_cancel 1 w0 = Ok w1
    ∧ timers w1 = []
    ∧ eloop_run 20 1 w1 = Ok w1
    ∧ trace w1 = trace w0
    ∧ sessions 0 w1 = [1%nat].
Proof.
  destruct (arp_cancel_stops_probing 20 1%nat world_closed
              (owned addr_A (Some (λ _, [])))
              (eth0 (Some {| fd := -1; arp_states := [1%nat] |}))
              {| fd := -1; arp_states := [1%nat] |} 0)
    as (w0 & w1 & H1 & H2 & _ & H4 & H5 & H6 & _ & H8).
  - reflexivity.
  - reflexivity.
  - reflexivity.
  - vm_compute. lia.
  - vm_compute. discriminate.
  - reflexivity.
  - exists w0, w1. split; [exact H1|]. split; [exact H2|].
    split; [exact H4|]. split; [exact H5|]. split; [exact H6|]. exact H8.
Defined.

(** Looking up B among the sessions for A and B. *)
Lemma find_B :
  ∃ r,
    arp_find 0 addr_B world_A_B = Ok r
    ∧ match r with
      | Some p =>
          p ∈ sessions 0 world_A_B
          ∧ addr <$> heap world_A_B !! p = Some addr_B
      | None =>
          ∀ p st, p ∈ sessions 0 world_A_B →
                  heap world_A_B !! p = Some st → addr st ≠ addr_B
      end.
Proof.
  apply (arp_find_finds 0%nat addr_B world_A_B
           (eth0 (Some {| fd := 3; arp_states := [1; 2]%nat |}))).
  - apply (bool_decide_unpack _). vm_compute. exact I.
  - reflexivity.
Defined.

(** Two sessions without address on a bare interface. *)
Lemma two_sessions_without_address :
  match arp_new 0 None (world_bare quiet) with
  | Ok (Some p, w1) =>
      match arp_new 0 None w1 with
      | Ok (Some q, w2) => p ≠ q ∧ sessions 0 w2 = [p; q]
      | _ => False
      end
  | _ => False
  end.
Proof.
  destruct (arp_new 0 None (world_bare quiet)) as [[[p|] w1]|] eqn:E1.
  - destruct (arp_new 0 None w1) as [[[q|] w2]|] eqn:E2.
    + destruct (arp_new_null_addr_allocates 0%nat (world_bare quiet) w1 w2
                  p q E1 E2) as (H1 & _ & H3 & _).
      split; [exact H1|]. exact H3.
    + vm_compute in E1. injection E1 as <- <-.
      vm_compute in E2. discriminate E2.
    + vm_compute in E1. injection E1 as <- <-.
      vm_compute in E2. discriminate E2.
  - vm_compute in E1. discriminate E1.
  - vm_compute in E1. discriminate E1.
Defined.

(** A third session keeps the world well-formed. *)
Lemma new_C_keeps_wf :
  match arp_new 0 (Some addr_C) world_A_B with
  | Ok (_, w1) => wf w1
  | Err _ => False
  end.
Proof.
  destruct (arp_new 0 (Some addr_C) world_A_B) as [[r w1]|] eqn:E.
  - apply (arp_new_keeps_wf 0%nat (Some addr_C) world_A_B w1 r); [|exact E].
    apply (bool_decide_unpack _). vm_compute. exact I.
  - vm_compute in E. discriminate E.
Defined.

(** Freeing the session for A keeps the world well-formed. *)
Lemma free_A_keeps_wf :
  ∃ w',
    arp_free (Some 1%nat) world_A_B = Ok w'
    ∧ wf w'
    ∧ heap w' = delete 1%nat (heap world_A_B)
    ∧ ∀ j, sessions j w' = filter (λ q, q ≠ 1%nat) (sessions j world_A_B).
Proof.
  apply (arp_free_keeps_wf 1%nat world_A_B).
  - apply (bool_decide_unpack _). vm_compute. exact I.
  - apply (bool_decide_unpack _). vm_compute. exact I.
Defined.

(** A session for C, made and freed again. *)
Lemma new_C_then_free :
  match arp_new 0 (Some addr_C) world_A_B with
  | Ok (Some p, w1) =>
      ∃ w2,
        arp_free (Some p) w1 = Ok w2
        ∧ wf w2
        ∧ heap w2 = heap world_A_B
        ∧ ∀ j, sessions j w2 = sessions j world_A_B
  | _ => False
  end.
Proof.
  destruct (arp_new 0 (Some addr_C) world_A_B) as [[[p|] w1]|] eqn:E.
  - apply (arp_new_then_arp_free 0%nat (Some addr_C) world_A_B w1 p).
    + apply (bool_decide_unpack _). vm_compute. exact I.
    + exact E.
    + vm_compute in E. injection E as <- _. reflexivity.
  - vm_compute in E. discriminate E.
  - vm_compute in E. discriminate E.
Defined.

(** After the session for A is freed it is not found any more. *)
Lemma freed_A_not_found :
  ∃ w',
    arp_free (Some 1%nat) world_A_B = Ok w'
    ∧ (∀ ifp a, arp_find ifp a w' ≠ Ok (Some 1%nat))
    ∧ (∀ ifp a q, arp_find ifp a world_A_B = Ok (Some q) → q ≠ 1%nat →
                  arp_find ifp a w' = Ok (Some q)).
Proof.
  apply (arp_find_after_arp_free 1%nat world_A_B).
  - apply (bool_decide_unpack _). vm_compute. exact I.
  - apply (bool_decide_unpack _). vm_compute. exact I.
Defined.

(** Freeing all but the second of three sessions. *)
Lemma free_but_the_second :
  ∃ w',
    arp_free_but 2 world_two_ifaces = Ok w'
    ∧ wf w'
    ∧ sessions 0 w' = [2%nat]
    ∧ sessions 1 w' = [4%nat]
    ∧ freed_calls (trace w') = [1; 3]%nat
    ∧ closed_calls (trace w') = []
    ∧ ARP_STATE 0 w' = Ok (Some {| fd := 3; arp_states := [2%nat] |}).
Proof.
  destruct (arp_free_but_keeps_one 2%nat world_two_ifaces
              (new_state 0 (Some addr_B)))
    as (w' & s & H1 & H2 & H3 & _ & H5 & H6 & H7 & H8 & H9).
  - apply (bool_decide_unpack _). vm_compute. exact I.
  - reflexivity.
  - exists w'. split; [exact H1|]. split; [exact H2|]. split; [exact H3|].
    split; [apply (H5 1%nat); discriminate|].
    split; [rewrite H6; reflexivity|].
    split; [exact H7|].
    vm_compute in H8. injection H8 as <-. exact H9.
Defined.

(** Dropping the first of two interfaces. *)
Lemma drop_first_interface :
  ∃ w',
    arp_drop 0 world_two_ifaces = Ok w'
    ∧ wf w'
    ∧ sessions 0 w' = []
    ∧ sessions 1 w' = [4%nat]
    ∧ freed_calls (trace w') = [1; 3]%nat
    ∧ closed_calls (trace w') = [3]
    ∧ ARP_STATE 0 w' = Ok None
    ∧ arp_drop 0 w' = Ok w'.
Proof.
  destruct (arp_drop_frees_all 0%nat world_two_ifaces
              (Some {| fd := 3; arp_states := [1; 2; 3]%nat |}))
    as (w' & H1 & H2 & H3 & _ & H5 & H6 & H7 & H8 & H9).
  - apply (bool_decide_unpack _). vm_compute. exact I.
  - reflexivity.
  - exists w'. split; [exact H1|]. split; [exact H2|]. split; [exact H3|].
    split; [apply (H5 1%nat); discriminate|].
    split; [rewrite H6; reflexivity|].
    split; [exact H7|]. split; [exact H8|]. exact H9.
Defined.

(** A frame about C has no effect on the sessions for A and B. *)
Lemma frame_about_C_ignored :
  arp_packet 0 fresh_arm frame_claiming_C world_A_B = Ok world_A_B.
Proof.
  apply (arp_packet_without_match 0%nat fresh_arm
           {| op := 0; sha := hwaddr peer ++ replicate 14 x00; sip := addr_C;
              tha := replicate 20 x00; tip := addr_C |}
           frame_claiming_C world_A_B
           {| fd := 3; arp_states := [1; 2]%nat |}).
  - apply (bool_decide_unpack _). vm_compute. exact I.
  - reflexivity.
  - reflexivity.
  - intros p st Hp Hst. left. unfold matches.
    apply elem_of_cons in Hp as [->|Hp].
    + vm_compute in Hst. injection Hst as <-. simpl.
      intros [H|H]; discriminate H.
    + apply list_elem_of_singleton in Hp as ->.
      vm_compute in Hst. injection Hst as <-. simpl.
      intros [H|H]; discriminate H.
Defined.

(** A read error after a frame that was stepped over. *)
Lemma read_error_after_own_frame :
  ∃ w1,
    arp_read [(ReadFrame own_frame false, fresh_arm);
              (ReadFailed, fresh_arm);
              (ReadFrame frame_claiming_A true, fresh_arm)] 0 world_A_B
    = Ok w1
    ∧ ARP_STATE 0 w1 = Ok (Some {| fd := -1; arp_states := [1; 2]%nat |})
    ∧ (∀ j, sessions j w1 = sessions j world_A_B)
    ∧ heap w1 = heap world_A_B
    ∧ timers w1 = []
    ∧ trace w1 = [(0, EvEventDelete 3); (0, EvBpfClose 3)].
Proof.
  apply (arp_read_error_closes 0%nat world_A_B
           {| fd := 3; arp_states := [1; 2]%nat |}
           [(ReadFrame own_frame false, fresh_arm)]
           [(ReadFrame frame_claiming_A true, fresh_arm)] fresh_arm).
  - reflexivity.
  - discriminate.
  - constructor; [reflexivity|constructor].
Defined.


(** The owner frees its only session on a conflict; the frame that follows
    in the buffer is not read. *)
Lemma read_ends_with_last_session :
  ∃ w1,
    arp_read [(ReadFrame frame_claiming_A false, fresh_arm);
              (ReadFrame frame_claiming_A false, fresh_arm)] 0
      world_frees_self
    = Ok w1
    ∧ ARP_STATE 0 w1 = Ok None
    ∧ heap w1 = delete 1%nat (heap world_frees_self)
    ∧ conflicted_calls (trace w1) = [1%nat]
    ∧ freed_calls (trace w1) = [1%nat]
    ∧ closed_calls (trace w1) = [3].
Proof.
  apply (arp_read_survives_last_free 0%nat world_frees_self 1%nat
           (owned addr_A (Some (λ _, [1%nat])))
           {| fd := 3; arp_states := [1%nat] |} (λ _, [1%nat])
           frame_claiming_A false fresh_arm arm_claiming_A
           [(ReadFrame frame_claiming_A false, fresh_arm)]).
  - apply (bool_decide_unpack _). vm_compute. exact I.
  - reflexivity.
  - reflexivity.
  - reflexivity.
  - reflexivity.
  - left. reflexivity.
  - reflexivity.
  - reflexivity.
Defined.
